(** * Network-topology graph analysis: BFS / DFS path search, Dijkstra, metrics

    Shallow embedding of [task_01_graph.py], [task_02_graph.py] and
    [task_03_graph.py].  The scripts run on [networkx.Graph]; the part of that
    class the scripts use (node and adjacency dictionaries in insertion order,
    one attribute dictionary shared by both directions of an edge) is modelled
    in [Module Nx].  Python dictionaries that are only looked up and updated
    ([parent], [dist], the all-pairs table) are [gmap]s; dictionaries whose
    iteration order the code observes are association lists. *)

From Stdlib Require Import ZArith Floats.
From stdpp Require Import gmap strings list sorting pretty.

Local Open Scope string_scope.
Local Open Scope nat_scope.
Local Open Scope list_scope.
#[local] Set Warnings "-clear-no-such-hyp".

(** ** Exceptions, results and loops *)

Inductive exn : Type :=
| NetworkXError (node : string)   (* "The node ... is not in the graph." *)
| KeyError (key : string)
| IndexError
| ZeroDivisionError
| OverflowError
| ValueError.

(** Outcome of running a piece of the program with a bound on the number of
    loop iterations: a value, a raised exception, or the bound was hit. *)
Inductive result (A : Type) : Type :=
| Ok (a : A)
| Raise (e : exn)
| OutOfFuel.
Arguments Ok {A} a.
Arguments Raise {A} e.
Arguments OutOfFuel {A}.

Definition rbind {A B} (m : result A) (k : A → result B) : result B :=
  match m with
  | Ok a => k a
  | Raise e => Raise e
  | OutOfFuel => OutOfFuel
  end.

Notation "x ←r m ; k" := (rbind m (λ x, k))
  (at level 20, m at level 100, k at level 200, only parsing, right associativity).
Notation "' p ←r m ; k" := (rbind m (λ x, match x with p => k end))
  (at level 20, p pattern, m at level 100, k at level 200, only parsing,
   right associativity).

(** What one pass through a loop body asks for next. *)
Inductive ctl (S : Type) : Type :=
| Continue (s : S)
| Break (s : S).
Arguments Continue {S} s.
Arguments Break {S} s.

(** [while cond: body], unrolled at most [fuel] times. *)
Fixpoint while {S : Type} (fuel : nat) (cond : S → bool)
    (body : S → result (ctl S)) (s : S) : result S :=
  match fuel with
  | O => OutOfFuel
  | S fuel' =>
      if cond s then
        match body s with
        | Ok (Continue s') => while fuel' cond body s'
        | Ok (Break s') => Ok s'
        | Raise e => Raise e
        | OutOfFuel => OutOfFuel
        end
      else Ok s
  end.

(** [for x in xs: body], where the body may raise. *)
Fixpoint for_each {A S : Type} (xs : list A) (body : S → A → result S) (s : S)
    : result S :=
  match xs with
  | [] => Ok s
  | x :: xs' => s' ←r body s x; for_each xs' body s'
  end.

(** ** Insertion-ordered dictionaries *)

Section Dict.
Context {V : Type}.

Fixpoint dict_get (k : string) (d : list (string * V)) : option V :=
  match d with
  | [] => None
  | (k', v) :: d' => if decide (k = k') then Some v else dict_get k d'
  end.

(** [d[k] = v]: an existing key keeps its position, a new key goes last. *)
Fixpoint dict_set (k : string) (v : V) (d : list (string * V))
    : list (string * V) :=
  match d with
  | [] => [(k, v)]
  | (k', v') :: d' =>
      if decide (k = k') then (k, v) :: d' else (k', v') :: dict_set k v d'
  end.

Definition dict_keys (d : list (string * V)) : list string := d.*1.
End Dict.

(** ** The part of [networkx.Graph] the scripts use *)

Module Nx.

(** Attribute dictionary of an edge: the keys the scripts read or write. *)
Record EdgeData (W : Type) : Type := mkEdgeData {
  kind : option string;
  speed_mbps : option Z;
  weight : option W
}.
Arguments mkEdgeData {W} kind speed_mbps weight.
Arguments kind {W} _.
Arguments speed_mbps {W} _.
Arguments weight {W} _.

(** [G._node], [G._adj] and the store of edge attribute dictionaries:
    [G._adj[u][v]] and [G._adj[v][u]] hold the address of the same
    dictionary. *)
Record Graph (W : Type) : Type := mkGraph {
  g_node : list (string * string);
  g_adj : list (string * list (string * nat));
  g_data : list (EdgeData W)
}.
Arguments mkGraph {W} g_node g_adj g_data.
Arguments g_node {W} _.
Arguments g_adj {W} _.
Arguments g_data {W} _.

Section Graph.
Context {W : Type}.
Implicit Types G : Graph W.

Definition empty : Graph W := mkGraph [] [] [].

Definition nodes G : list string := dict_keys (g_node G).
Definition number_of_nodes G : nat := length (g_node G).

(** [G.add_node(n, type=ty)] *)
Definition add_node G (n ty : string) : Graph W :=
  match dict_get n (g_node G) with
  | None => mkGraph (dict_set n ty (g_node G)) (dict_set n [] (g_adj G)) (g_data G)
  | Some _ => mkGraph (dict_set n ty (g_node G)) (g_adj G) (g_data G)
  end.

Definition add_nodes_from G (ns : list (string * string)) : Graph W :=
  foldl (λ G '(n, ty), add_node G n ty) G ns.

(** [add_edge] creates a missing endpoint with an empty attribute dict. *)
Definition touch_node G (n : string) : Graph W :=
  match dict_get n (g_node G) with
  | None => mkGraph (dict_set n "" (g_node G)) (dict_set n [] (g_adj G)) (g_data G)
  | Some _ => G
  end.

(** [datadict.update(attr)] *)
Definition update_data (old new : EdgeData W) : EdgeData W :=
  mkEdgeData (from_option Some (kind old) (kind new))
             (from_option Some (speed_mbps old) (speed_mbps new))
             (from_option Some (weight old) (weight new)).

(** [G.add_edge(u, v, **attr)] *)
Definition add_edge G (u v : string) (attr : EdgeData W) : Graph W :=
  let G := touch_node (touch_node G u) v in
  let nbrs_u := default [] (dict_get u (g_adj G)) in
  let '(r, data) :=
    match dict_get v nbrs_u with
    | Some r => (r, alter (λ old, update_data old attr) r (g_data G))
    | None => (length (g_data G), g_data G ++ [attr])
    end in
  let adj := dict_set u (dict_set v r nbrs_u) (g_adj G) in
  let nbrs_v := default [] (dict_get v adj) in
  let adj := dict_set v (dict_set u r nbrs_v) adj in
  mkGraph (g_node G) adj data.

Definition add_edges_from G (es : list (string * string * EdgeData W))
    : Graph W :=
  foldl (λ G '(u, v, attr), add_edge G u v attr) G es.

(** [G.neighbors(n)]: the keys of [G._adj[n]] in insertion order. *)
Definition neighbors G (n : string) : result (list string) :=
  match dict_get n (g_adj G) with
  | Some nbrs => Ok (dict_keys nbrs)
  | None => Raise (NetworkXError n)
  end.

(** [G.edges[u, v]] *)
Definition edge_data G (u v : string) : result (EdgeData W) :=
  match dict_get u (g_adj G) with
  | None => Raise (KeyError u)
  | Some nbrs =>
      match dict_get v nbrs with
      | None => Raise (KeyError v)
      | Some r =>
          match g_data G !! r with
          | Some d => Ok d
          | None => Raise (KeyError v)
          end
      end
  end.

(** [G.degree()]: a self-loop counts twice. *)
Definition degree_of (n : string) (nbrs : list (string * nat)) : nat :=
  length nbrs + (if bool_decide (n ∈ dict_keys nbrs) then 1 else 0).

Definition degree G : list (string * nat) :=
  map (λ '(n, nbrs), (n, degree_of n nbrs)) (g_adj G).

(** [G.number_of_edges()] *)
Definition number_of_edges G : nat := sum_list (degree G).*2 `div` 2.

End Graph.
End Nx.
Import Nx.

(** ** task_02_graph.py: BFS and DFS path search *)

(** Python compares [str] values by code point; the node names are ASCII. *)
Definition str_le (a b : string) : Prop := String.leb a b = true.
#[global] Instance str_le_dec (a b : string) : Decision (str_le a b).
Proof. unfold str_le. apply _. Defined.

Section PathSearch.
Context {W : Type}.
Implicit Types G : Graph W.
Implicit Types parent : gmap string (option string).

(** [sorted(G.neighbors(node))] *)
Definition neighbors_sorted G (node : string) : result (list string) :=
  nbs ←r neighbors G node; Ok (merge_sort str_le nbs).

(** The [while cur is not None] loop of [reconstruct_path]. *)
Definition reconstruct_cond (s : option string * list string) : bool :=
  bool_decide (s.1 ≠ None).

Definition reconstruct_body parent (s : option string * list string)
    : result (ctl (option string * list string)) :=
  match s.1 with
  | None => Ok (Break s)
  | Some cur =>
      match parent !! cur with
      | Some p => Ok (Continue (p, s.2 ++ [cur]))
      | None => Raise (KeyError cur)
      end
  end.

Definition reconstruct_path (fuel : nat) parent (start goal : string)
    : result (list string) :=
  match parent !! goal with
  | None => Ok []
  | Some _ =>
      s ←r while fuel reconstruct_cond (reconstruct_body parent) (Some goal, []);
      let path := reverse s.2 in
      Ok (match path with
          | first :: _ => if decide (first = start) then path else []
          | [] => []
          end)
  end.

(** Search state: the frontier ([q] or [stack]), [parent], [visit_order]. *)
Definition search_state : Type :=
  list string * gmap string (option string) * list string.

Definition search_cond (s : search_state) : bool :=
  bool_decide (s.1.1 ≠ []).

(** [for nb in ...: if nb not in parent: parent[nb] = v; <push>(nb)] *)
Definition discover (push : list string → string → list string) (v : string)
    (nbs : list string) (frontier : list string) parent
    : list string * gmap string (option string) :=
  foldl (λ '(frontier, parent) nb,
           match parent !! nb with
           | None => (push frontier nb, <[nb := Some v]> parent)
           | Some _ => (frontier, parent)
           end)
        (frontier, parent) nbs.

(** [q.append(nb)]; [q.popleft()] takes the head of the list. *)
Definition q_append (q : list string) (nb : string) : list string := q ++ [nb].

Definition bfs_body G (goal : string) (s : search_state)
    : result (ctl search_state) :=
  match s with
  | ([], _, _) => Raise IndexError
  | (v :: q, parent, visit_order) =>
      let visit_order := visit_order ++ [v] in
      if decide (v = goal) then Ok (Break (q, parent, visit_order))
      else
        nbs ←r neighbors_sorted G v;
        let '(q, parent) := discover q_append v nbs q parent in
        Ok (Continue (q, parent, visit_order))
  end.

Definition bfs_path (fuel : nat) G (start goal : string)
    : result (list string * list string) :=
  s ←r while fuel search_cond (bfs_body G goal)
         ([start], {[start := None]}, []);
  path ←r reconstruct_path fuel s.1.2 start goal;
  Ok (path, s.2).

(** The stack is kept with its top at the head of the list:
    [stack.append(nb)] is a cons and [stack.pop()] takes the head. *)
Definition stack_append (stack : list string) (nb : string) : list string :=
  nb :: stack.

Definition dfs_body G (goal : string) (s : search_state)
    : result (ctl search_state) :=
  match s with
  | ([], _, _) => Raise IndexError
  | (v :: stack, parent, visit_order) =>
      let visit_order := visit_order ++ [v] in
      if decide (v = goal) then Ok (Break (stack, parent, visit_order))
      else
        nbs ←r neighbors_sorted G v;
        let '(stack, parent) :=
          discover stack_append v (reverse nbs) stack parent in
        Ok (Continue (stack, parent, visit_order))
  end.

Definition dfs_path (fuel : nat) G (start goal : string)
    : result (list string * list string) :=
  s ←r while fuel search_cond (dfs_body G goal)
         ([start], {[start := None]}, []);
  path ←r reconstruct_path fuel s.1.2 start goal;
  Ok (path, s.2).

(** [max(0, len(path) - 1)], the edge count shown by [print_compare]. *)
Definition edge_count (path : list string) : nat := length path - 1.

(** The rows [print_visit_order_table] adds to its table: the step number
    as text, and the node either search visited at that step, or the empty
    string once its visit order has ended. *)
Definition print_visit_order_table (bfs_order dfs_order : list string)
    : list (string * string * string) :=
  let max_len := length bfs_order `max` length dfs_order in
  (λ i, let b := if decide (i < length bfs_order)
                 then default "" (bfs_order !! i) else "" in
        let d := if decide (i < length dfs_order)
                 then default "" (dfs_order !! i) else "" in
        (pretty (i + 1), b, d)) <$> seq 0 max_len.

(** The reference topology of [build_network_topology]. *)
Definition topology_nodes : list (string * string) :=
  [ ("ISP", "internet");
    ("Router", "router"); ("Switch", "switch");
    ("AP_1", "wifi_ap"); ("AP_2", "wifi_ap");
    ("NAS", "server"); ("HomeServer", "server");
    ("Laptop_1", "client"); ("Laptop_2", "client"); ("PC", "client");
    ("Phone_1", "client"); ("Phone_2", "client"); ("TV", "client");
    ("Printer", "client");
    ("IoT_Hub", "iot"); ("Camera_1", "iot"); ("Camera_2", "iot") ].

Definition link (k : string) (speed : Z) : EdgeData W :=
  mkEdgeData (Some k) (Some speed) None.

Definition topology_edges : list (string * string * EdgeData W) :=
  [ ("ISP", "Router", link "wan" 1000);
    ("Router", "Switch", link "ethernet" 1000);
    ("Switch", "AP_1", link "ethernet" 1000);
    ("Switch", "AP_2", link "ethernet" 1000);
    ("Switch", "NAS", link "ethernet" 1000);
    ("Switch", "HomeServer", link "ethernet" 1000);
    ("Switch", "PC", link "ethernet" 1000);
    ("Switch", "Printer", link "ethernet" 100);
    ("AP_1", "Laptop_1", link "wifi" 600);
    ("AP_1", "Phone_1", link "wifi" 300);
    ("AP_1", "TV", link "wifi" 300);
    ("AP_2", "Laptop_2", link "wifi" 600);
    ("AP_2", "Phone_2", link "wifi" 300);
    ("AP_2", "IoT_Hub", link "wifi" 150);
    ("IoT_Hub", "Camera_1", link "wifi" 50);
    ("IoT_Hub", "Camera_2", link "wifi" 50) ].

(** [build_network_topology] of task_01 and task_02 (no weights yet). *)
Definition build_network_topology : Graph W :=
  add_edges_from (add_nodes_from Nx.empty topology_nodes) topology_edges.

End PathSearch.

(** ** Arithmetic on distances

    The scripts compute weights and distances in Python [float]s.  The
    operations they use are gathered in a class, so that the algorithms are
    written once: [float_arith] is the arithmetic the scripts run on (IEEE
    binary64, with its rounding). *)

Class Arith (W : Type) : Type := {
  w_zero : W;                    (* [0.0] *)
  w_one : W;                     (* [1.0] *)
  w_inf : W;                     (* [float("inf")] *)
  w_add : W → W → W;
  w_div : W → W → W;
  w_ltb : W → W → bool;          (* [a < b] *)
  w_eqb : W → W → bool;          (* [a == b] *)
  w_of_int : Z → option W        (* int to float; [None] is OverflowError *)
}.

(** [a <= b] on non-NaN values, as the algorithms test it: [not (b < a)]. *)
Definition w_le `{Arith W} (a b : W) : Prop := w_ltb b a = false.

(** Conversion of a Python [int] to binary64: round to nearest, ties to
    even.  Python raises OverflowError as soon as the rounded value would
    not be finite, that is from [2^1024 - 2^970] on (half an ulp below
    [2^1024]; the tie rounds to the even significand, which is out of
    range). *)
Definition float_of_Z (z : Z) : option float :=
  if (Z.abs z <? 2 ^ 1024 - 2 ^ 970)%Z
  then Some (SF2Prim (binary_normalize prec emax z 0 false))
  else None.

#[global] Instance float_arith : Arith float := {|
  w_zero := 0%float;
  w_one := 1%float;
  w_inf := infinity;
  w_add := PrimFloat.add;
  w_div := PrimFloat.div;
  w_ltb := PrimFloat.ltb;
  w_eqb := PrimFloat.eqb;
  w_of_int := float_of_Z
|}.

(** ** task_03_graph.py: edge weights and Dijkstra; task_01_graph.py: metrics *)

Section Weighted.
Context {W : Type} `{Arith W}.
Implicit Types G : Graph W.

(** [G.edges(data=True)]: every edge once, from the endpoint that comes
    first in [G._adj], with the address of its attribute dictionary. *)
Definition edges G : list (string * string * nat) :=
  (foldl (λ '(seen, out) '(n, nbrs),
            (n :: seen,
             out ++ omap (λ '(nbr, r),
                            if bool_decide (nbr ∈ seen) then None
                            else Some (n, nbr, r)) nbrs))
         ([], []) (g_adj G)).2.

(** The body of the loop of [add_edge_weights], on the edge's dictionary. *)
Definition set_weight (data : EdgeData W) : result (EdgeData W) :=
  let speed := default 1%Z (speed_mbps data) in
  let speed := Z.max speed 1 in
  match w_of_int speed with
  | None => Raise OverflowError
  | Some s => Ok (mkEdgeData (kind data) (speed_mbps data) (Some (w_div w_one s)))
  end.

Definition add_edge_weights G : result (Graph W) :=
  for_each (edges G)
    (λ G '(u, v, r),
       match g_data G !! r with
       | None => Raise (KeyError v)
       | Some data =>
           data' ←r set_weight data;
           Ok (mkGraph (g_node G) (g_adj G) (<[r := data']> (g_data G)))
       end) G.

(** [a / b] on two [int]s: both are converted and the quotient is rounded
    once, which is what Python returns for operands below [2^53]. *)
Definition true_div (a b : Z) : result W :=
  if decide (b = 0%Z) then Raise ZeroDivisionError
  else match w_of_int a, w_of_int b with
       | Some x, Some y => Ok (w_div x y)
       | _, _ => Raise OverflowError
       end.

(** What [analyze_graph] computes before it prints.  ([nx.density] and
    [nx.connected_components], which follow [avg_degree] and cannot raise,
    are left out.) *)
Record summary : Type := mkSummary {
  s_nodes : nat;
  s_edges : nat;
  s_avg_degree : W;
  s_max_deg : nat;
  s_hubs : list string
}.

Definition analyze_graph G : result summary :=
  let n := number_of_nodes G in
  let m := number_of_edges G in
  let degrees := degree G in
  avg_degree ←r true_div (Z.of_nat (sum_list degrees.*2)) (Z.of_nat n);
  max_deg ←r match degrees.*2 with
             | [] => Raise ValueError
             | d :: ds => Ok (foldl Nat.max d ds)
             end;
  let hubs := (filter (λ nd, nd.2 = max_deg) degrees).*1 in
  Ok (mkSummary n m avg_degree max_deg hubs).

(** The priority queue.  [heapq] keeps the list as a binary heap; what the
    script observes is that [heappop] removes and returns a smallest item
    under the order of tuples.  The queue is modelled as the bag of its
    items. *)
Definition heap : Type := list (W * string).

(** [(d1, u1) < (d2, u2)] on tuples. *)
Definition tuple_lt (a b : W * string) : bool :=
  if w_eqb a.1 b.1 then String.ltb a.2 b.2 else w_ltb a.1 b.1.

Definition heappush (pq : heap) (item : W * string) : heap := item :: pq.

(** The smallest of [x :: pq], and the other items. *)
Fixpoint pop_min (x : W * string) (pq : heap) : (W * string) * heap :=
  match pq with
  | [] => (x, [])
  | y :: pq' =>
      let '(m, rest) := pop_min y pq' in
      if tuple_lt m x then (m, x :: rest) else (x, y :: pq')
  end.

Definition heappop (pq : heap) : result ((W * string) * heap) :=
  match pq with
  | [] => Raise IndexError
  | x :: pq' => Ok (pop_min x pq')
  end.

Definition dijkstra_state : Type := gmap string W * heap.

(** The body of [for v in G.neighbors(u)]. *)
Definition relax G (cur_dist : W) (u : string) (s : dijkstra_state) (v : string)
    : result dijkstra_state :=
  data ←r edge_data G u v;
  let w := default w_one (weight data) in
  let nd := w_add cur_dist w in
  match s.1 !! v with
  | None => Raise (KeyError v)
  | Some dv =>
      if w_ltb nd dv then Ok (<[v := nd]> s.1, heappush s.2 (nd, v))
      else Ok s
  end.

Definition dijkstra_cond (s : dijkstra_state) : bool := bool_decide (s.2 ≠ []).

Definition dijkstra_body G (s : dijkstra_state) : result (ctl dijkstra_state) :=
  '(cur_dist, u, pq) ←r heappop s.2;
  match s.1 !! u with
  | None => Raise (KeyError u)
  | Some du =>
      if w_ltb du cur_dist then Ok (Continue (s.1, pq))
      else
        nbs ←r neighbors G u;
        s' ←r for_each nbs (relax G cur_dist u) (s.1, pq);
        Ok (Continue s')
  end.

Definition dijkstra_from_source (fuel : nat) G (start : string)
    : result (gmap string W) :=
  let dist : gmap string W := list_to_map ((λ node, (node, w_inf)) <$> nodes G) in
  let dist := <[start := w_zero]> dist in
  s ←r while fuel dijkstra_cond (dijkstra_body G) (dist, [(w_zero, start)]);
  Ok s.1.

Definition all_pairs_shortest_distances (fuel : nat) G
    : result (gmap string (gmap string W)) :=
  for_each (nodes G)
    (λ result start,
       dist ←r dijkstra_from_source fuel G start;
       Ok (<[start := dist]> result)) ∅.

(** [all_pairs[src][dst]] *)
Definition table_get (t : gmap string (gmap string W)) (src dst : string)
    : option W :=
  row ← t !! src; row !! dst.

(** A cell of the table [print_distance_matrix] prints: a piece of text, or
    a distance that is shown as [f"{d:.4f}"]. *)
Inductive cell : Type :=
| Text (s : string)
| Fixed4 (d : W).

(** The rows [print_distance_matrix] adds to its table, one per node. *)
Definition matrix_row (all_pairs : gmap string (gmap string W))
    (nodes : list string) (src : string) : result (list cell) :=
  for_each nodes
    (λ row dst,
       match all_pairs !! src with
       | None => Raise (KeyError src)
       | Some dists =>
           match dists !! dst with
           | None => Raise (KeyError dst)
           | Some d =>
               Ok (row ++ [if decide (src = dst) then Text "0" else Fixed4 d])
           end
       end) [Text src].

Definition print_distance_matrix G (all_pairs : gmap string (gmap string W))
    : result (list (list cell)) :=
  let nodes := nodes G in
  for_each nodes
    (λ rows src, row ←r matrix_row all_pairs nodes src; Ok (rows ++ [row])) [].

End Weighted.

(** [build_network_topology] of task_03: the same devices and links, then
    [add_edge_weights]. *)
Module Task03.
Definition build_network_topology `{Arith W} : result (Graph W) :=
  add_edge_weights (add_edges_from (add_nodes_from Nx.empty topology_nodes)
                                   topology_edges).
End Task03.

(** ** Reasoning about loops and dictionaries *)

(** Total-correctness rule for [while]: an invariant [I], a variant [mu]
    that every [Continue] decreases, and a postcondition [Q] reached when the
    condition fails or the body breaks. *)
Lemma while_rule {S : Type} (I Q : S → Prop) (mu : S → nat) cond body :
  (∀ s, I s → cond s = false → Q s) →
  (∀ s, I s → cond s = true →
     (∃ s', body s = Ok (Continue s') ∧ I s' ∧ mu s' < mu s) ∨
     (∃ s', body s = Ok (Break s') ∧ Q s')) →
  ∀ fuel s, I s → mu s < fuel →
    ∃ s', while fuel cond body s = Ok s' ∧ Q s'.
Proof.
  intros Hexit Hbody fuel.
  induction fuel as [|fuel IH]; intros s HI Hmu; [lia|].
  simpl. destruct (cond s) eqn:Hc.
  - destruct (Hbody s HI Hc) as [(s' & -> & HI' & Hlt)|(s' & -> & HQ)].
    + apply IH; [done|lia].
    + eauto.
  - eauto.
Qed.

Section DictFacts.
Context {V : Type}.
Implicit Types d : list (string * V).

Lemma dict_get_Some_elem k v d : dict_get k d = Some v → (k, v) ∈ d.
Proof.
  induction d as [|[k' v'] d IH]; simpl; [done|].
  case_decide; intros ?; simplify_eq; [left|right; auto].
Qed.

Lemma dict_get_is_Some k d : is_Some (dict_get k d) ↔ k ∈ dict_keys d.
Proof.
  unfold dict_keys. induction d as [|[k' v'] d IH]; simpl.
  - split; [intros [? ?]; done|intros ?%elem_of_nil; done].
  - case_decide; subst.
    + split; [left|eauto].
    + rewrite IH. rewrite elem_of_cons. naive_solver.
Qed.

Lemma dict_get_None k d : dict_get k d = None ↔ k ∉ dict_keys d.
Proof. rewrite <- dict_get_is_Some, eq_None_not_Some. done. Qed.

Lemma dict_get_set k k' v d :
  dict_get k (dict_set k' v d) = if decide (k = k') then Some v else dict_get k d.
Proof.
  induction d as [|[k0 v0] d IH]; simpl.
  - repeat case_decide; done.
  - repeat (case_decide; simpl; simplify_eq); try done.
Qed.
End DictFacts.

(** ** Well-formed graphs, edges and walks *)

Section GraphFacts.
Context {W : Type}.
Implicit Types G : Graph W.

(** [G._adj[u][v]], the address of the edge's attribute dictionary. *)
Definition adj G (u v : string) : option nat :=
  nbrs ← dict_get u (g_adj G); dict_get v nbrs.

Definition edge G (u v : string) : Prop := is_Some (adj G u v).

(** What every [networkx.Graph] satisfies: the node and adjacency
    dictionaries have the same keys, neighbours are nodes, and both
    directions of an edge share one attribute dictionary. *)
Record wf_graph G : Prop := {
  wf_keys : dict_keys (g_node G) = dict_keys (g_adj G);
  wf_nodup : NoDup (nodes G);
  wf_closed : ∀ u v, edge G u v → v ∈ nodes G;
  wf_sym : ∀ u v r, adj G u v = Some r → adj G v u = Some r;
  wf_data : ∀ u v r, adj G u v = Some r → r < length (g_data G)
}.

(** A walk from [u] to [v], listed from [u]; it has [length p - 1] edges. *)
Inductive walk G (u : string) : string → list string → Prop :=
| walk_start : u ∈ nodes G → walk G u u [u]
| walk_snoc v x p : walk G u v p → edge G v x → walk G u x (p ++ [x]).

Definition reachable G (u v : string) : Prop := ∃ p, walk G u v p.

Lemma edge_neighbors G u v nbs :
  neighbors G u = Ok nbs → (v ∈ nbs ↔ edge G u v).
Proof.
  unfold neighbors, edge, adj. destruct (dict_get u (g_adj G)) as [nbrs|]; [|done].
  intros [= <-]. simpl. by rewrite dict_get_is_Some.
Qed.

Lemma neighbors_node G u :
  wf_graph G → u ∈ nodes G → ∃ nbs, neighbors G u = Ok nbs.
Proof.
  intros Hwf Hu. unfold neighbors, nodes in *. rewrite (wf_keys _ Hwf) in Hu.
  apply dict_get_is_Some in Hu as [nbrs ->]. eauto.
Qed.

Lemma neighbors_absent G u :
  wf_graph G → u ∉ nodes G → neighbors G u = Raise (NetworkXError u).
Proof.
  intros Hwf Hu. unfold neighbors, nodes in *. rewrite (wf_keys _ Hwf) in Hu.
  apply dict_get_None in Hu as ->. done.
Qed.

Lemma walk_head G u v p : walk G u v p → head p = Some u.
Proof.
  induction 1 as [|v x p Hw IH He]; [done|].
  destruct p; [done|]. done.
Qed.

Lemma walk_nodes G u v p : wf_graph G → walk G u v p → v ∈ nodes G.
Proof. intros Hwf. destruct 1; [done|]. by eapply wf_closed. Qed.

(** Boolean check of well-formedness, for concrete graphs. *)
Definition wf_graphb G : bool :=
  bool_decide (dict_keys (g_node G) = dict_keys (g_adj G)) &&
  bool_decide (NoDup (nodes G)) &&
  forallb (λ '(u, nbrs),
    forallb (λ '(v, r),
      bool_decide (v ∈ nodes G) && bool_decide (adj G v u = Some r) &&
      bool_decide (r < length (g_data G))) nbrs) (g_adj G).

Lemma wf_graphb_sound G : wf_graphb G = true → wf_graph G.
Proof.
  unfold wf_graphb. rewrite !andb_true_iff, forallb_forall.
  intros [[Hk%bool_decide_eq_true Hnd%bool_decide_eq_true] Hall].
  assert (∀ u v r, adj G u v = Some r →
            v ∈ nodes G ∧ adj G v u = Some r ∧ r < length (g_data G)) as Hadj.
  { intros u v r. unfold adj at 1.
    destruct (dict_get u (g_adj G)) as [nbrs|] eqn:Hu; simpl; [|done].
    intros Hv. apply dict_get_Some_elem, list_elem_of_In in Hu.
    apply Hall in Hu. rewrite forallb_forall in Hu.
    apply dict_get_Some_elem, list_elem_of_In in Hv. apply Hu in Hv.
    rewrite !andb_true_iff, !bool_decide_eq_true in Hv. tauto. }
  split; [done|done|..].
  - intros u v [r Hr]. by apply Hadj in Hr as (? & ? & ?).
  - intros u v r Hr. by apply Hadj in Hr as (? & ? & ?).
  - intros u v r Hr. by apply Hadj in Hr as (? & ? & ?).
Qed.

End GraphFacts.

(** ** Graphs built with the library's operations are well formed *)

Section DictKeys.
Context {V : Type}.
Implicit Types d : list (string * V).

Lemma dict_keys_set_old k v d :
  k ∈ dict_keys d → dict_keys (dict_set k v d) = dict_keys d.
Proof.
  unfold dict_keys. induction d as [|[k' v'] d IH]; simpl.
  - by intros ?%elem_of_nil.
  - case_decide; subst; [done|]. simpl.
    intros [?|?]%elem_of_cons; [done|]. f_equal. auto.
Qed.

Lemma dict_keys_set_new k v d :
  k ∉ dict_keys d → dict_keys (dict_set k v d) = dict_keys d ++ [k].
Proof.
  unfold dict_keys. induction d as [|[k' v'] d IH]; simpl; [done|].
  intros Hk. case_decide; subst.
  - exfalso. apply Hk. left.
  - simpl. f_equal. apply IH. intros ?. apply Hk. by right.
Qed.
End DictKeys.

Section Construction.
Context {W : Type}.
Implicit Types G : Graph W.

Lemma empty_wf : wf_graph (Nx.empty (W:=W)).
Proof.
  split; simpl; try done.
  - constructor.
  - intros u v [r Hr]. done.
Qed.

Lemma adj_None_absent G u v :
  wf_graph G → u ∉ nodes G → adj G u v = None.
Proof.
  intros Hwf Hu. unfold adj, nodes in *. rewrite (wf_keys _ Hwf) in Hu.
  apply dict_get_None in Hu. by rewrite Hu.
Qed.

(** Adding a node that is not there yet. *)
Lemma wf_new_node G n ty :
  wf_graph G → n ∉ nodes G →
  wf_graph (mkGraph (dict_set n ty (g_node G)) (dict_set n [] (g_adj G)) (g_data G)).
Proof.
  intros Hwf Hn.
  assert (n ∉ dict_keys (g_adj G)) as Hn' by (by rewrite <- (wf_keys _ Hwf)).
  assert (∀ u v, adj (mkGraph (dict_set n ty (g_node G))
                              (dict_set n [] (g_adj G)) (g_data G)) u v
                 = adj G u v) as Hadj.
  { intros u v. unfold adj. simpl. rewrite dict_get_set.
    case_decide; [|done]. subst. apply dict_get_None in Hn'. by rewrite Hn'. }
  split; unfold nodes, edge; simpl.
  - rewrite !dict_keys_set_new by done. by rewrite (wf_keys _ Hwf).
  - rewrite dict_keys_set_new by done. apply NoDup_app. split_and!.
    + apply (wf_nodup _ Hwf).
    + intros x Hx ->%list_elem_of_singleton. done.
    + apply NoDup_singleton.
  - intros u v. rewrite Hadj. intros He%(wf_closed _ Hwf).
    rewrite dict_keys_set_new by done. apply elem_of_app. by left.
  - intros u v r. rewrite !Hadj. apply (wf_sym _ Hwf).
  - intros u v r. rewrite Hadj. apply (wf_data _ Hwf).
Qed.

Lemma add_node_wf G n ty : wf_graph G → wf_graph (add_node G n ty).
Proof.
  intros Hwf. unfold add_node.
  destruct (dict_get n (g_node G)) eqn:Hn.
  - assert (n ∈ dict_keys (g_node G)) as Hin by (apply dict_get_is_Some; eauto).
    split; unfold nodes, edge, adj; simpl;
      rewrite ?(dict_keys_set_old n ty (g_node G)) by done.
    + apply (wf_keys _ Hwf).
    + apply (wf_nodup _ Hwf).
    + apply (wf_closed _ Hwf).
    + apply (wf_sym _ Hwf).
    + apply (wf_data _ Hwf).
  - apply wf_new_node; [done|]. by apply dict_get_None.
Qed.

Lemma touch_node_wf G n : wf_graph G → wf_graph (touch_node G n).
Proof.
  intros Hwf. unfold touch_node.
  destruct (dict_get n (g_node G)) eqn:Hn; [done|].
  apply wf_new_node; [done|]. by apply dict_get_None.
Qed.

Lemma touch_node_in G n : n ∈ nodes (touch_node G n).
Proof.
  unfold touch_node, nodes.
  destruct (dict_get n (g_node G)) eqn:Hn; simpl.
  - apply dict_get_is_Some. eauto.
  - apply dict_get_is_Some. rewrite dict_get_set, decide_True by done. eauto.
Qed.

Lemma touch_node_mono G n x : x ∈ nodes G → x ∈ nodes (touch_node G n).
Proof.
  unfold touch_node, nodes.
  destruct (dict_get n (g_node G)) eqn:Hn; simpl; [done|].
  intros Hx. rewrite dict_keys_set_new by (by apply dict_get_None).
  apply elem_of_app. by left.
Qed.

(** Linking two nodes of the graph through the dictionary at address [r]. *)
Lemma wf_link G u v r (data' : list (EdgeData W)) :
  wf_graph G → u ∈ nodes G → v ∈ nodes G →
  r < length data' → length (g_data G) ≤ length data' →
  let nbrs_u := default [] (dict_get u (g_adj G)) in
  let adj1 := dict_set u (dict_set v r nbrs_u) (g_adj G) in
  let nbrs_v := default [] (dict_get v adj1) in
  let adj2 := dict_set v (dict_set u r nbrs_v) adj1 in
  wf_graph (mkGraph (g_node G) adj2 data').
Proof.
  intros Hwf Hu Hv Hr Hlen nbrs_u adj1 nbrs_v adj2.
  assert (u ∈ dict_keys (g_adj G)) as Hu' by (by rewrite <- (wf_keys _ Hwf)).
  assert (v ∈ dict_keys (g_adj G)) as Hv' by (by rewrite <- (wf_keys _ Hwf)).
  assert (dict_keys adj1 = dict_keys (g_adj G)) as Hk1.
  { by apply dict_keys_set_old. }
  assert (dict_keys adj2 = dict_keys (g_adj G)) as Hk2.
  { unfold adj2. rewrite dict_keys_set_old; [done|]. by rewrite Hk1. }
  assert (∀ a b, adj (mkGraph (g_node G) adj2 data') a b
                 = if decide ((a = u ∧ b = v) ∨ (a = v ∧ b = u))
                   then Some r else adj G a b) as Hadj.
  { intros a b. unfold adj. simpl. unfold adj2, nbrs_v, adj1, nbrs_u.
    apply dict_get_is_Some in Hu' as [nu Hnu].
    apply dict_get_is_Some in Hv' as [nv Hnv].
    rewrite !dict_get_set, Hnu. simpl.
    destruct (decide (a = v)) as [->|Hav]; simpl.
    - destruct (decide (v = u)) as [->|Hvu]; simpl.
      + rewrite !dict_get_set.
        destruct (decide (b = u)) as [->|Hbu].
        * by rewrite decide_True by auto.
        * rewrite decide_False by naive_solver. by rewrite Hnu.
      + rewrite Hnv. simpl. rewrite dict_get_set.
        destruct (decide (b = u)) as [->|Hbu].
        * by rewrite decide_True by auto.
        * by rewrite decide_False by naive_solver.
    - destruct (decide (a = u)) as [->|Hau]; simpl.
      + rewrite dict_get_set.
        destruct (decide (b = v)) as [->|Hbv].
        * by rewrite decide_True by auto.
        * rewrite decide_False by naive_solver. by rewrite Hnu.
      + rewrite decide_False by naive_solver. done. }
  split; unfold nodes, edge; simpl.
  - rewrite Hk2. apply (wf_keys _ Hwf).
  - apply (wf_nodup _ Hwf).
  - intros a b. rewrite Hadj. case_decide as Hc.
    + intros _. destruct Hc as [[-> ->]|[-> ->]]; done.
    + apply (wf_closed _ Hwf).
  - intros a b r'. rewrite !Hadj. case_decide as Hc.
    + intros [= <-]. rewrite decide_True; [done|]. naive_solver.
    + rewrite decide_False by naive_solver. apply (wf_sym _ Hwf).
  - intros a b r'. rewrite Hadj. case_decide as Hc.
    + by intros [= <-].
    + intros Hr'%(wf_data _ Hwf). lia.
Qed.

Lemma add_edge_wf G u v attr : wf_graph G → wf_graph (add_edge G u v attr).
Proof.
  intros Hwf. unfold add_edge.
  set (G2 := touch_node (touch_node G u) v).
  assert (wf_graph G2) as Hwf2 by (by apply touch_node_wf, touch_node_wf).
  assert (u ∈ nodes G2) as Hu by (apply touch_node_mono, touch_node_in).
  assert (v ∈ nodes G2) as Hv by apply touch_node_in.
  destruct (dict_get v (default [] (dict_get u (g_adj G2)))) as [r|] eqn:Hr.
  - apply (wf_link G2 u v r); [done..| |].
    + rewrite length_alter. apply (wf_data _ Hwf2 u v). unfold adj.
      destruct (dict_get u (g_adj G2)); simpl in *; done.
    + by rewrite length_alter.
  - apply (wf_link G2 u v (length (g_data G2))); [done..| |].
    + rewrite length_app. simpl. lia.
    + rewrite length_app. lia.
Qed.

(** The graphs the scripts build: from the empty graph by adding nodes and
    edges. *)
Inductive built : Graph W → Prop :=
| built_empty : built Nx.empty
| built_node G n ty : built G → built (add_node G n ty)
| built_edge G u v attr : built G → built (add_edge G u v attr).

Lemma built_wf G : built G → wf_graph G.
Proof.
  induction 1; [apply empty_wf|by apply add_node_wf|by apply add_edge_wf].
Qed.

Lemma add_nodes_from_built G ns : built G → built (add_nodes_from G ns).
Proof.
  unfold add_nodes_from. revert G.
  induction ns as [|[n ty] ns IH]; intros G HG; simpl; [done|].
  apply IH. by constructor.
Qed.

Lemma add_edges_from_built G es : built G → built (add_edges_from G es).
Proof.
  unfold add_edges_from. revert G.
  induction es as [|[[u v] attr] es IH]; intros G HG; simpl; [done|].
  apply IH. by constructor.
Qed.

Lemma build_network_topology_wf : wf_graph (@build_network_topology W).
Proof.
  apply built_wf. unfold build_network_topology.
  apply add_edges_from_built, add_nodes_from_built. constructor.
Qed.
End Construction.

(** ** Parent maps and path reconstruction *)

Section ParentFacts.
Implicit Types parent : gmap string (option string).

(** [back parent x l]: following the parent links from [x] visits [l]
    (from [x] back to a root, whose parent is [None]). *)
Inductive back parent : string → list string → Prop :=
| back_root x : parent !! x = Some None → back parent x [x]
| back_step x y l :
    parent !! x = Some (Some y) → back parent y l → back parent x (x :: l).

Lemma back_head parent x l : back parent x l → head l = Some x.
Proof. by destruct 1. Qed.

Lemma back_key parent x l : back parent x l → is_Some (parent !! x).
Proof. destruct 1; eauto. Qed.



Lemma reconstruct_loop parent x l :
  back parent x l →
  ∀ fuel acc, length l < fuel →
    while fuel reconstruct_cond (reconstruct_body parent) (Some x, acc)
    = Ok (None, acc ++ l).
Proof.
  induction 1 as [x Hx|x y l Hx Hb IH]; intros fuel acc Hf; simpl in Hf.
  - destruct fuel as [|[|fuel]]; [lia..|]. simpl.
    unfold reconstruct_body at 1. simpl. rewrite Hx. done.
  - destruct fuel as [|fuel]; [lia|]. simpl.
    unfold reconstruct_body at 1. simpl. rewrite Hx.
    rewrite IH by lia. by rewrite <- app_assoc.
Qed.

(** The value [reconstruct_path] returns once the links from [goal] are
    known: the reversed chain if it begins with [start], else nothing. *)
Definition checked_path (start : string) (l : list string) : list string :=
  match reverse l with
  | first :: _ => if decide (first = start) then reverse l else []
  | [] => []
  end.

Lemma reconstruct_back parent start goal l fuel :
  back parent goal l → length l < fuel →
  reconstruct_path fuel parent start goal = Ok (checked_path start l).
Proof.
  intros Hb Hf. unfold reconstruct_path.
  destruct (back_key _ _ _ Hb) as [p ->].
  rewrite (reconstruct_loop _ _ _ Hb) by done. done.
Qed.

Lemma reconstruct_absent parent start goal fuel :
  parent !! goal = None → reconstruct_path fuel parent start goal = Ok [].
Proof. unfold reconstruct_path. by intros ->. Qed.
End ParentFacts.

(** ** Invariants of the two search loops *)

Section SearchInvariants.
Context {W : Type}.
Variable G : Graph W.
Hypothesis Hwf : wf_graph G.
Variables start goal : string.
Implicit Types parent : gmap string (option string).
Implicit Types dep : string → nat.

(** [parent] is a tree rooted at [start] whose links are edges of [G];
    [dep] is the depth of each key in that tree. *)
Record tree_inv parent dep : Prop := {
  tree_root : parent !! start = Some None;
  tree_root_dep : dep start = 0;
  tree_root_only : ∀ x, parent !! x = Some None → x = start;
  tree_link : ∀ x y, parent !! x = Some (Some y) →
                is_Some (parent !! y) ∧ edge G y x ∧ dep x = S (dep y)
}.

Lemma tree_back parent dep :
  tree_inv parent dep → start ∈ nodes G →
  ∀ n x, dep x = n → is_Some (parent !! x) →
    ∃ l, back parent x l ∧ length l = S n ∧ walk G start x (reverse l).
Proof.
  intros Ht Hs n. induction n as [|n IH]; intros x Hd [[y|] Hx].
  - apply (tree_link _ _ Ht) in Hx as (_ & _ & ?). lia.
  - apply (tree_root_only _ _ Ht) in Hx as Heq. subst x.
    exists [start]. split_and!; [by constructor|done|by constructor].
  - pose proof Hx as Hx'.
    apply (tree_link _ _ Ht) in Hx as (Hy & He & Hd').
    destruct (IH y) as (l & Hb & Hl & Hw); [lia|done|].
    exists (x :: l). split_and!.
    + by econstructor.
    + simpl. lia.
    + rewrite reverse_cons. by econstructor.
  - apply (tree_root_only _ _ Ht) in Hx as Heq. subst x.
    rewrite (tree_root_dep _ _ Ht) in Hd. done.
Qed.

(** State of either loop at the top of an iteration.  Every discovered
    node is in [visit_order] or in the frontier, exactly once. *)
Record search_inv dep (s : search_state) : Prop := {
  si_tree : tree_inv s.1.2 dep;
  si_keys : ∀ x, is_Some (s.1.2 !! x) ↔ x ∈ s.2 ++ s.1.1;
  si_nodup : NoDup (s.2 ++ s.1.1);
  si_nodes : ∀ x, x ∈ s.2 ++ s.1.1 → x ∈ nodes G;
  si_goal : goal ∉ s.2;
  si_dep : ∀ x, x ∈ s.2 ++ s.1.1 → dep x < length (s.2 ++ s.1.1);
  si_first : head (s.2 ++ s.1.1) = Some start;
  si_expanded : ∀ u w, u ∈ s.2 → edge G u w → is_Some (s.1.2 !! w)
}.

Lemma search_inv_init :
  start ∈ nodes G →
  search_inv (λ _, 0) ([start], {[start := None]}, []).
Proof.
  intros Hs. split; simpl.
  - split.
    + apply lookup_singleton_eq.
    + done.
    + intros x Hx%lookup_singleton_Some. naive_solver.
    + intros x y Hx%lookup_singleton_Some. naive_solver.
  - intros x. rewrite list_elem_of_singleton. split.
    + intros [v Hv%lookup_singleton_Some]. naive_solver.
    + intros ->. rewrite lookup_singleton_eq. eauto.
  - apply NoDup_singleton.
  - intros x ->%list_elem_of_singleton. done.
  - apply not_elem_of_nil.
  - intros; lia.
  - done.
  - intros u w Hu%elem_of_nil. done.
Qed.

Lemma search_inv_length dep s :
  search_inv dep s → length (s.2 ++ s.1.1) ≤ length (nodes G).
Proof.
  intros Hi. apply submseteq_length, NoDup_submseteq.
  - apply (si_nodup _ _ Hi).
  - apply (si_nodes _ _ Hi).
Qed.

(** The nodes [discover] adds, in the order it meets them. *)
Lemma discover_spec push v nbs frontier parent :
  ∃ new,
    NoDup new ∧
    (∀ x, x ∈ new ↔ x ∈ nbs ∧ parent !! x = None) ∧
    (∀ x, (discover push v nbs frontier parent).2 !! x =
          if decide (x ∈ new) then Some (Some v) else parent !! x) ∧
    (discover push v nbs frontier parent).1 = foldl push frontier new.
Proof.
  unfold discover.
  revert frontier parent. induction nbs as [|nb nbs IH]; intros frontier parent.
  - exists []. simpl. split_and!.
    + constructor.
    + intros x. rewrite elem_of_nil. naive_solver.
    + intros x. destruct (decide (x ∈ [])) as [Hx|]; [by inversion Hx|done].
    + done.
  - simpl. destruct (parent !! nb) as [p|] eqn:Hnb.
    + destruct (IH frontier parent) as (new & Hnd & Hmem & Hpar & Hfr).
      exists new. split_and!; [done| |done|done].
      intros x. rewrite Hmem, elem_of_cons. naive_solver.
    + destruct (IH (push frontier nb) (<[nb := Some v]> parent))
        as (new & Hnd & Hmem & Hpar & Hfr).
      assert (nb ∉ new) as Hfresh.
      { intros [_ Hn]%Hmem. by rewrite lookup_insert_eq in Hn. }
      exists (nb :: new). split_and!.
      * by constructor.
      * intros x. rewrite !elem_of_cons, Hmem.
        destruct (decide (x = nb)) as [->|Hne].
        -- naive_solver.
        -- rewrite lookup_insert_ne by done. naive_solver.
      * intros x. rewrite Hpar.
        destruct (decide (x = nb)) as [->|Hne].
        -- rewrite decide_False by done. rewrite lookup_insert_eq.
           rewrite decide_True by left. done.
        -- rewrite lookup_insert_ne by done.
           repeat case_decide; try done; set_solver.
      * done.
Qed.
(** Depths after the nodes [new] were hung below [v]. *)
Definition dep_after dep (v : string) (new : list string) : string → nat :=
  λ z, if decide (z ∈ new) then S (dep v) else dep z.

(** One expansion step keeps the invariant, whatever the frontier
    discipline, as long as the new frontier holds the old one (without
    the expanded node) and the newly discovered nodes. *)
Lemma search_step dep v fr parent visit new fr' parent' :
  search_inv dep (v :: fr, parent, visit) →
  v ≠ goal →
  NoDup new →
  (∀ x, x ∈ new ↔ edge G v x ∧ parent !! x = None) →
  (∀ x, parent' !! x = if decide (x ∈ new) then Some (Some v) else parent !! x) →
  fr' ≡ₚ fr ++ new →
  search_inv (dep_after dep v new) (fr', parent', visit ++ [v]).
Proof.
  intros Hi Hvg Hnd Hnew Hpar Hfr.
  destruct Hi as [Ht Hkeys Hnodup Hnodes Hgoal Hdep Hfirst Hexp]; simpl in *.
  assert (∀ x, is_Some (parent !! x) → x ∉ new) as Hold.
  { intros x [p Hp] [_ Hn]%Hnew. congruence. }
  assert (∀ x, x ∈ (visit ++ [v]) ++ fr' ↔ x ∈ visit ++ v :: fr ∨ x ∈ new) as Hmem.
  { intros x. rewrite Hfr. rewrite !elem_of_app, !elem_of_cons, elem_of_nil.
    tauto. }
  assert ((visit ++ [v]) ++ fr' ≡ₚ (visit ++ v :: fr) ++ new) as Hperm.
  { rewrite Hfr. rewrite <- !app_assoc. simpl. done. }
  assert (is_Some (parent !! v)) as Hv.
  { apply Hkeys. rewrite elem_of_app, elem_of_cons. auto. }
  unfold dep_after.
  split; simpl.
  - destruct Ht as [Hroot Hrd Hro Hlink]. split.
    + rewrite Hpar, decide_False; [done|]. apply Hold. eauto.
    + rewrite decide_False; [done|]. apply Hold. eauto.
    + intros x. rewrite Hpar. case_decide; [done|]. auto.
    + intros x y. rewrite Hpar. case_decide as Hx.
      * intros [= <-]. apply Hnew in Hx as [He _].
        rewrite Hpar, !decide_False by auto. done.
      * intros Hxy. destruct (Hlink _ _ Hxy) as (Hy & He & Hd).
        rewrite Hpar, !decide_False by auto. done.
  - intros x. rewrite Hmem, Hpar. case_decide as Hx.
    + split; eauto.
    + rewrite Hkeys. tauto.
  - rewrite Hperm. apply NoDup_app. split_and!; [done| |done].
    intros x Hx%Hkeys. auto.
  - intros x [Hx|Hx]%Hmem; [auto|].
    apply Hnew in Hx as [He _]. by eapply wf_closed.
  - rewrite elem_of_app, list_elem_of_singleton. naive_solver.
  - intros x Hx. rewrite Hperm, length_app.
    case_decide as Hin.
    + destruct new; [by inversion Hin|]. simpl.
      assert (dep v < length (visit ++ v :: fr)); [|lia].
      apply Hdep. rewrite elem_of_app, elem_of_cons. auto.
    + apply Hmem in Hx as [Hx|Hx]; [|done].
      apply Hdep in Hx. lia.
  - rewrite <- Hfirst. rewrite <- !app_assoc. simpl.
    destruct visit; done.
  - intros u w [Hu|Hu%list_elem_of_singleton]%elem_of_app He.
    + rewrite Hpar. specialize (Hexp _ _ Hu He).
      rewrite decide_False by auto. done.
    + subst u. rewrite Hpar. case_decide as Hw; [eauto|].
      destruct (parent !! w) eqn:Hpw; [eauto|].
      exfalso. apply Hw, Hnew. done.
Qed.

(** The variant of both loops: nodes not yet in [visit_order]. *)
Definition search_mu (s : search_state) : nat :=
  length (nodes G) - length s.2.

Lemma search_mu_step dep v fr parent visit fr' parent' :
  search_inv dep (v :: fr, parent, visit) →
  search_mu (fr', parent', visit ++ [v]) < search_mu (v :: fr, parent, visit).
Proof.
  intros Hi%search_inv_length. unfold search_mu. simpl in *.
  rewrite !length_app in *. simpl in *. lia.
Qed.

Lemma neighbors_sorted_spec v :
  v ∈ nodes G →
  ∃ nbs, neighbors_sorted G v = Ok nbs ∧ ∀ x, x ∈ nbs ↔ edge G v x.
Proof.
  intros Hv. destruct (neighbors_node G v Hwf Hv) as [nbs0 Hn].
  unfold neighbors_sorted. rewrite Hn. simpl.
  eexists; split; [done|]. intros x.
  rewrite merge_sort_Permutation. by apply edge_neighbors.
Qed.

Lemma foldl_q_append q new : foldl q_append q new = q ++ new.
Proof.
  revert q. induction new as [|x new IH]; intros q; simpl.
  - by rewrite app_nil_r.
  - rewrite IH. unfold q_append. by rewrite <- app_assoc.
Qed.

Lemma foldl_stack_append stack new :
  foldl stack_append stack new = reverse new ++ stack.
Proof.
  revert stack. induction new as [|x new IH]; intros stack; simpl; [done|].
  rewrite IH, reverse_cons. unfold stack_append. by rewrite <- app_assoc.
Qed.

(** What one BFS iteration does when the dequeued node is not the goal. *)
Lemma bfs_body_continue dep v q parent visit :
  search_inv dep (v :: q, parent, visit) → v ≠ goal →
  ∃ new parent',
    bfs_body G goal (v :: q, parent, visit)
    = Ok (Continue (q ++ new, parent', visit ++ [v])) ∧
    NoDup new ∧
    (∀ x, x ∈ new ↔ edge G v x ∧ parent !! x = None) ∧
    (∀ x, parent' !! x = if decide (x ∈ new) then Some (Some v) else parent !! x).
Proof.
  intros Hi Hne.
  assert (v ∈ nodes G) as Hv.
  { apply (si_nodes _ _ Hi). simpl. rewrite elem_of_app, elem_of_cons. auto. }
  destruct (neighbors_sorted_spec v Hv) as (nbs & Hnbs & Hmem).
  destruct (discover_spec q_append v nbs q parent) as (new & Hnd & Hnew & Hpar & Hfr).
  exists new, (discover q_append v nbs q parent).2.
  split_and!; [|done| |done].
  - unfold bfs_body. rewrite decide_False by done. rewrite Hnbs. simpl.
    destruct (discover q_append v nbs q parent) as [q' parent'] eqn:Hd.
    simpl in *. rewrite Hfr, foldl_q_append. done.
  - intros x. rewrite Hnew, Hmem. done.
Qed.

(** What one DFS iteration does when the popped node is not the goal. *)
Lemma dfs_body_continue dep v stack parent visit :
  search_inv dep (v :: stack, parent, visit) → v ≠ goal →
  ∃ new parent',
    dfs_body G goal (v :: stack, parent, visit)
    = Ok (Continue (reverse new ++ stack, parent', visit ++ [v])) ∧
    NoDup new ∧
    (∀ x, x ∈ new ↔ edge G v x ∧ parent !! x = None) ∧
    (∀ x, parent' !! x = if decide (x ∈ new) then Some (Some v) else parent !! x).
Proof.
  intros Hi Hne.
  assert (v ∈ nodes G) as Hv.
  { apply (si_nodes _ _ Hi). simpl. rewrite elem_of_app, elem_of_cons. auto. }
  destruct (neighbors_sorted_spec v Hv) as (nbs & Hnbs & Hmem).
  destruct (discover_spec stack_append v (reverse nbs) stack parent)
    as (new & Hnd & Hnew & Hpar & Hfr).
  exists new, (discover stack_append v (reverse nbs) stack parent).2.
  split_and!; [|done| |done].
  - unfold dfs_body. rewrite decide_False by done. rewrite Hnbs. simpl.
    destruct (discover stack_append v (reverse nbs) stack parent)
      as [q' parent'] eqn:Hd.
    simpl in *. rewrite Hfr, foldl_stack_append. done.
  - intros x. rewrite Hnew, elem_of_reverse, Hmem. done.
Qed.
(** How a loop ends: the frontier ran empty, or [goal] was taken from the
    frontier [goal :: fr] of a state satisfying the invariant.  [X] is an
    extra invariant of the particular loop. *)
Definition search_post (X : (string → nat) → search_state → Prop)
    (s : search_state) : Prop :=
  (∃ dep, s.1.1 = [] ∧ search_inv dep s ∧ X dep s) ∨
  (∃ dep visit, s.2 = visit ++ [goal] ∧
     search_inv dep (goal :: s.1.1, s.1.2, visit) ∧
     X dep (goal :: s.1.1, s.1.2, visit)).

Lemma search_cond_false (s : search_state) : search_cond s = false → s.1.1 = [].
Proof.
  unfold search_cond. intros Hc%bool_decide_eq_false.
  by destruct (decide (s.1.1 = [])).
Qed.

Lemma search_cond_true (s : search_state) :
  search_cond s = true → ∃ v fr, s = (v :: fr, s.1.2, s.2).
Proof.
  unfold search_cond. intros Hc%bool_decide_eq_true.
  destruct s as [[[|v fr] parent] visit]; [done|]. eauto.
Qed.

Lemma dfs_loop fuel :
  start ∈ nodes G → length (nodes G) < fuel →
  ∃ s, while fuel search_cond (dfs_body G goal) ([start], {[start := None]}, [])
       = Ok s ∧ search_post (λ _ _, True) s.
Proof.
  intros Hs Hf.
  apply (while_rule (λ s, ∃ dep, search_inv dep s) _ search_mu).
  - intros s [dep Hi] Hc%search_cond_false. left. eauto.
  - intros s [dep Hi] (v & fr & Hc)%search_cond_true.
    destruct s as [[fr0 parent] visit]. simpl in Hc. simplify_eq.
    destruct (decide (v = goal)) as [->|Hne].
    + right. eexists. split.
      * unfold dfs_body. rewrite decide_True by done. done.
      * right. exists dep, visit. done.
    + left. destruct (dfs_body_continue _ _ _ _ _ Hi Hne)
        as (new & parent' & Hb & Hnd & Hnew & Hpar).
      eexists. split; [done|]. split.
      * eexists. eapply search_step; [done..|].
        by rewrite reverse_Permutation, (comm (++)).
      * by eapply search_mu_step.
  - eexists. by apply search_inv_init.
  - unfold search_mu. simpl. lia.
Qed.

(** BFS only: the queue holds nodes of depth [n] followed by nodes of
    depth [n + 1], visited nodes are no deeper than [n], and depth grows by
    at most one along any edge that leaves a visited node. *)
Definition bfs_levels dep (s : search_state) : Prop :=
  ∃ n A B,
    s.1.1 = A ++ B ∧
    (∀ x, x ∈ A → dep x = n) ∧
    (∀ x, x ∈ B → dep x = S n) ∧
    (∀ x, x ∈ s.2 → dep x ≤ n) ∧
    (∀ u w, u ∈ s.2 → edge G u w → dep w ≤ S (dep u)).

Lemma queue_split (v : string) q A B :
  v :: q = A ++ B →
  (A = [] ∧ B = v :: q) ∨ (∃ A', A = v :: A' ∧ q = A' ++ B).
Proof.
  destruct A as [|a A]; simpl; [auto|].
  intros [= <- ->]. eauto.
Qed.

Lemma bfs_levels_head dep v q parent visit x :
  bfs_levels dep (v :: q, parent, visit) → x ∈ v :: q → dep v ≤ dep x.
Proof.
  intros (n & A & B & Hq & HA & HB & _) Hx. simpl in *.
  apply queue_split in Hq as [[-> ->]|(A' & -> & ->)].
  - rewrite (HB v), (HB x); [done|done|left].
  - rewrite (HA v) by left.
    apply elem_of_cons in Hx as [->|[Hx|Hx]%elem_of_app].
    + by rewrite (HA v) by left.
    + rewrite (HA x); [done|by right].
    + rewrite (HB x); [lia|done].
Qed.

Lemma bfs_levels_step dep v q parent visit new parent' :
  search_inv dep (v :: q, parent, visit) →
  bfs_levels dep (v :: q, parent, visit) →
  (∀ x, x ∈ new ↔ edge G v x ∧ parent !! x = None) →
  bfs_levels (dep_after dep v new) (q ++ new, parent', visit ++ [v]).
Proof.
  intros Hi (n & A & B & Hq & HA & HB & Hvis & Hlip) Hnew. simpl in *.
  assert (∀ x, x ∈ visit ++ v :: q → x ∉ new) as Hold.
  { intros x Hx%(si_keys _ _ Hi) [_ Hn]%Hnew. simpl in *.
    destruct Hx; congruence. }
  assert (∀ x, x ∈ visit ++ v :: q → dep_after dep v new x = dep x) as Hsame.
  { intros x Hx. unfold dep_after. rewrite decide_False; auto. }
  assert (∀ x, x ∈ new → dep_after dep v new x = S (dep v)) as Hfresh.
  { intros x Hx. unfold dep_after. by rewrite decide_True. }
  assert (∀ x, x ∈ visit → x ∈ visit ++ v :: q) as Hin1.
  { intros x ?. rewrite elem_of_app. auto. }
  assert (∀ x, x ∈ v :: q → x ∈ visit ++ v :: q) as Hin2.
  { intros x ?. rewrite elem_of_app. auto. }
  assert (∀ x, x ∈ visit ++ v :: q → dep x ≤ S (dep v)) as Hbound.
  { intros x [Hx|Hx]%elem_of_app.
    - apply Hvis in Hx.
      assert (n ≤ dep v); [|lia].
      apply queue_split in Hq as [[-> ->]|(A' & -> & ->)].
      + rewrite (HB v); [lia|left].
      + rewrite (HA v); [lia|left].
    - assert (dep x ≤ S n ∧ n ≤ dep v) as [? ?]; [|lia].
      rewrite Hq in Hx. split.
      + apply elem_of_app in Hx as [Hx|Hx]; [rewrite (HA x)|rewrite (HB x)]; auto.
      + apply queue_split in Hq as [[-> ->]|(A' & -> & ->)].
        * rewrite (HB v); [lia|left].
        * rewrite (HA v); [lia|left]. }
  assert (∀ u w, u ∈ visit ++ [v] → edge G u w →
            dep_after dep v new w ≤ S (dep_after dep v new u)) as Hlip'.
  { intros u w [Hu|Hu%list_elem_of_singleton]%elem_of_app He.
    - rewrite (Hsame u) by auto.
      rewrite Hsame; [by eapply Hlip|].
      apply (si_keys _ _ Hi). simpl. by eapply (si_expanded _ _ Hi).
    - subst u. rewrite (Hsame v) by (apply Hin2; left).
      destruct (decide (w ∈ new)) as [Hw|Hw]; [by rewrite Hfresh|].
      assert (w ∈ visit ++ v :: q) as Hw'.
      { apply (si_keys _ _ Hi). simpl.
        destruct (parent !! w) eqn:Hpw; [eauto|].
        exfalso. apply Hw, Hnew. done. }
      rewrite Hsame by done. auto. }
  apply queue_split in Hq as [[-> ->]|(A' & -> & ->)].
  - (* the level [n] part is used up: [v] opens level [n + 1] *)
    exists (S n), q, new. split_and!; [done|..|done].
    + intros x Hx. rewrite Hsame by (apply Hin2; by right).
      apply HB. by right.
    + intros x Hx. rewrite Hfresh by done. f_equal. apply HB. left.
    + intros x [Hx|Hx%list_elem_of_singleton]%elem_of_app.
      * rewrite Hsame by auto. apply Hvis in Hx. lia.
      * subst x. rewrite Hsame by (apply Hin2; left).
        rewrite (HB v); [lia|left].
  - exists n, A', (B ++ new). split_and!; [by rewrite app_assoc|..|done].
    + intros x Hx. rewrite Hsame.
      * apply HA. by right.
      * apply Hin2. right. rewrite elem_of_app. auto.
    + intros x [Hx|Hx]%elem_of_app.
      * rewrite Hsame; [auto|]. apply Hin2. right. rewrite elem_of_app. auto.
      * rewrite Hfresh by done. f_equal. apply HA. left.
    + intros x [Hx|Hx%list_elem_of_singleton]%elem_of_app.
      * rewrite Hsame by auto. auto.
      * subst x. rewrite Hsame by (apply Hin2; left).
        rewrite (HA v); [lia|left].
Qed.

Lemma bfs_loop fuel :
  start ∈ nodes G → length (nodes G) < fuel →
  ∃ s, while fuel search_cond (bfs_body G goal) ([start], {[start := None]}, [])
       = Ok s ∧ search_post bfs_levels s.
Proof.
  intros Hs Hf.
  apply (while_rule (λ s, ∃ dep, search_inv dep s ∧ bfs_levels dep s) _ search_mu).
  - intros s (dep & Hi & Hl) Hc%search_cond_false. left. eauto.
  - intros s (dep & Hi & Hl) (v & fr & Hc)%search_cond_true.
    destruct s as [[fr0 parent] visit]. simpl in Hc. simplify_eq.
    destruct (decide (v = goal)) as [->|Hne].
    + right. eexists. split.
      * unfold bfs_body. rewrite decide_True by done. done.
      * right. exists dep, visit. done.
    + left. destruct (bfs_body_continue _ _ _ _ _ Hi Hne)
        as (new & parent' & Hb & Hnd & Hnew & Hpar).
      eexists. split; [done|]. split.
      * eexists. split.
        -- by eapply search_step.
        -- by eapply bfs_levels_step.
      * by eapply search_mu_step.
  - eexists. split; [by apply search_inv_init|].
    exists 0, [start], []. simpl. split_and!; try done.
    + intros x Hx. by inversion Hx.
    + intros u w Hu. by inversion Hu.
  - unfold search_mu. simpl. lia.
Qed.
(** Every discovered node is reachable, and [reconstruct_path] returns the
    tree path to it. *)
Lemma reconstruct_found dep s fuel x :
  search_inv dep s → start ∈ nodes G → length (nodes G) < fuel →
  is_Some (s.1.2 !! x) →
  ∃ path, reconstruct_path fuel s.1.2 start x = Ok path ∧
          walk G start x path ∧ length path = S (dep x).
Proof.
  intros Hi Hs Hf Hx.
  destruct (tree_back _ _ (si_tree _ _ Hi) Hs (dep x) x eq_refl Hx)
    as (l & Hb & Hl & Hw).
  assert (dep x < length (nodes G)) as Hd.
  { eapply Nat.lt_le_trans; [|by eapply search_inv_length].
    apply (si_dep _ _ Hi), (si_keys _ _ Hi), Hx. }
  exists (reverse l). split_and!; [|done|by rewrite length_reverse].
  rewrite (reconstruct_back _ start x l) by (done || lia).
  unfold checked_path. apply walk_head in Hw.
  destruct (reverse l) as [|first l']; [done|].
  simpl in Hw. simplify_eq. by rewrite decide_True.
Qed.

Lemma search_post_reachable X s :
  search_post X s → start ∈ nodes G →
  is_Some (s.1.2 !! goal) → reachable G start goal.
Proof.
  intros Hpost Hs Hg.
  assert (∃ dep s', search_inv dep s' ∧ s'.1.2 = s.1.2) as (dep & s' & Hi & Heq).
  { destruct Hpost as [(dep & _ & Hi & _)|(dep & visit & _ & Hi & _)]; eauto. }
  rewrite <- Heq in Hg.
  destruct (tree_back _ _ (si_tree _ _ Hi) Hs _ goal eq_refl Hg) as (l & _ & _ & Hw).
  by eexists.
Qed.

(** When the frontier runs empty every reachable node was discovered. *)
Lemma exhausted_complete dep s x p :
  search_inv dep s → s.1.1 = [] → walk G start x p → is_Some (s.1.2 !! x).
Proof.
  intros Hi Hfr. induction 1 as [|v x p Hw IH He].
  - rewrite (tree_root _ _ (si_tree _ _ Hi)). eauto.
  - apply (si_expanded _ _ Hi v); [|done].
    apply (si_keys _ _ Hi) in IH. by rewrite Hfr, app_nil_r in IH.
Qed.

Lemma search_post_order X s :
  search_post X s → head s.2 = Some start ∧ NoDup s.2.
Proof.
  intros [(dep & Hfr & Hi & _)|(dep & visit & Hv & Hi & _)].
  - pose proof (si_first _ _ Hi) as Hh. pose proof (si_nodup _ _ Hi) as Hn.
    rewrite Hfr, app_nil_r in Hh, Hn. done.
  - pose proof (si_first _ _ Hi) as Hh. pose proof (si_nodup _ _ Hi) as Hn.
    simpl in *. rewrite Hv. split.
    + destruct visit; simpl in *; done.
    + rewrite cons_middle, (assoc_L (++)) in Hn. by apply NoDup_app in Hn as [? _].
Qed.

(** The path either search returns, given how its loop ended. *)
Lemma search_post_path X s fuel :
  search_post X s → start ∈ nodes G → length (nodes G) < fuel →
  ∃ path, reconstruct_path fuel s.1.2 start goal = Ok path ∧
    (¬ reachable G start goal → path = []) ∧
    (reachable G start goal → walk G start goal path).
Proof.
  intros Hpost Hs Hf.
  destruct (s.1.2 !! goal) as [pg|] eqn:Hg.
  - assert (reachable G start goal) as Hr.
    { eapply search_post_reachable; [done..|]. rewrite Hg. eauto. }
    assert (∃ dep s', search_inv dep s' ∧ s'.1.2 = s.1.2) as (dep & s' & Hi & Heq).
    { destruct Hpost as [(dep & _ & Hi & _)|(dep & visit & _ & Hi & _)]; eauto. }
    destruct (reconstruct_found dep s' fuel goal Hi Hs Hf) as (path & Hp & Hw & _).
    { rewrite Heq, Hg. eauto. }
    rewrite Heq in Hp. exists path. split_and!; [done|done|done].
  - exists []. split_and!; [by apply reconstruct_absent|done|].
    intros [p Hp]. exfalso.
    destruct Hpost as [(dep & Hfr & Hi & _)|(dep & visit & _ & Hi & _)].
    + destruct (exhausted_complete _ _ _ _ Hi Hfr Hp) as [? ?]. congruence.
    + assert (is_Some (s.1.2 !! goal)) as [? ?]; [|congruence].
      apply (si_keys _ _ Hi). simpl. rewrite elem_of_app, elem_of_cons. auto.
Qed.

(** BFS: when [goal] is dequeued its depth is at most the number of edges
    of any walk from [start] to it. *)
Lemma bfs_depth_minimal dep q parent visit :
  search_inv dep (goal :: q, parent, visit) →
  bfs_levels dep (goal :: q, parent, visit) →
  ∀ y p, walk G start y p →
    (is_Some (parent !! y) ∧ dep y ≤ length p - 1) ∨ dep goal ≤ length p - 1.
Proof.
  intros Hi Hl y p. induction 1 as [|v x p Hw IH He].
  - left. pose proof (si_tree _ _ Hi) as Ht. simpl in Ht.
    rewrite (tree_root _ _ Ht), (tree_root_dep _ _ Ht).
    split; [eauto|simpl; lia].
  - assert (1 ≤ length p) as Hp.
    { apply walk_head in Hw. destruct p; simpl in *; [done|lia]. }
    rewrite length_app. simpl.
    destruct IH as [[Hv Hd]|Hd]; [|right; lia].
    apply (si_keys _ _ Hi) in Hv. simpl in Hv.
    apply elem_of_app in Hv as [Hv|Hv].
    + left. split; [by eapply (si_expanded _ _ Hi)|].
      destruct Hl as (n & A & B & _ & _ & _ & _ & Hlip). simpl in *.
      specialize (Hlip _ _ Hv He). lia.
    + right. pose proof (bfs_levels_head _ _ _ _ _ _ Hl Hv). lia.
Qed.
End SearchInvariants.


Lemma while_break {S : Type} cond body (s s' : S) fuel :
  cond s = true → body s = Ok (Break s') →
  while (Datatypes.S fuel) cond body s = Ok s'.
Proof. intros Hc Hb. simpl. by rewrite Hc, Hb. Qed.

(** ** Fuel: a result, once reached, does not depend on the bound *)

Lemma while_mono {S : Type} cond body (s : S) fuel fuel' :
  while fuel cond body s ≠ OutOfFuel → fuel ≤ fuel' →
  while fuel' cond body s = while fuel cond body s.
Proof.
  revert s fuel'. induction fuel as [|fuel IH]; intros s fuel' Hne Hle; [done|].
  destruct fuel' as [|fuel']; [lia|]. simpl in *.
  destruct (cond s); [|done].
  destruct (body s) as [[s'|s']| |]; try done.
  apply IH; [done|lia].
Qed.

Lemma reconstruct_path_mono parent start goal fuel fuel' :
  reconstruct_path fuel parent start goal ≠ OutOfFuel → fuel ≤ fuel' →
  reconstruct_path fuel' parent start goal = reconstruct_path fuel parent start goal.
Proof.
  unfold reconstruct_path. destruct (parent !! goal); [|done].
  intros Hne Hle. rewrite (while_mono _ _ _ fuel fuel'); [done| |done].
  intros Heq. by rewrite Heq in Hne.
Qed.

Lemma bfs_path_mono {W} (G : Graph W) start goal fuel fuel' :
  bfs_path fuel G start goal ≠ OutOfFuel → fuel ≤ fuel' →
  bfs_path fuel' G start goal = bfs_path fuel G start goal.
Proof.
  unfold bfs_path. intros Hne Hle.
  rewrite (while_mono _ _ _ fuel fuel'); [| |done].
  - destruct (while fuel _ _ _) as [s| |]; simpl in *; [|done..].
    rewrite (reconstruct_path_mono _ _ _ fuel fuel'); [done| |done].
    intros Heq. by rewrite Heq in Hne.
  - intros Heq. by rewrite Heq in Hne.
Qed.

Lemma dfs_path_mono {W} (G : Graph W) start goal fuel fuel' :
  dfs_path fuel G start goal ≠ OutOfFuel → fuel ≤ fuel' →
  dfs_path fuel' G start goal = dfs_path fuel G start goal.
Proof.
  unfold dfs_path. intros Hne Hle.
  rewrite (while_mono _ _ _ fuel fuel'); [| |done].
  - destruct (while fuel _ _ _) as [s| |]; simpl in *; [|done..].
    rewrite (reconstruct_path_mono _ _ _ fuel fuel'); [done| |done].
    intros Heq. by rewrite Heq in Hne.
  - intros Heq. by rewrite Heq in Hne.
Qed.

(** Boolean check that a list of nodes is a walk, for concrete graphs. *)
Fixpoint is_walk {W} (G : Graph W) (u : string) (p : list string) : bool :=
  match p with
  | [] => true
  | x :: p' => bool_decide (is_Some (adj G u x)) && is_walk G x p'
  end.

Lemma is_walk_sound {W} (G : Graph W) u v p0 p :
  walk G u v p0 → is_walk G v p = true →
  walk G u (default v (last p)) (p0 ++ p).
Proof.
  revert v p0. induction p as [|x p IH]; intros v p0 Hw; simpl.
  - intros _. by rewrite app_nil_r.
  - rewrite andb_true_iff, bool_decide_eq_true. intros [He Hp].
    rewrite cons_middle, (assoc_L (++)).
    replace (default v (last (x :: p))) with (default x (last p)).
    + apply IH; [|done]. by econstructor.
    + rewrite (last_cons x p). by destruct (last p).
Qed.

(** A set of nodes that contains [u] and is closed under edges contains
    everything reachable from [u]: a certificate that a node is unreachable. *)
Definition closed_under_edges {W} (G : Graph W) (S : list string) : bool :=
  forallb (λ u, forallb (λ v, bool_decide (v ∈ S))
                  (default [] (dict_keys <$> dict_get u (g_adj G)))) S.

Lemma closed_under_edges_reachable {W} (G : Graph W) S u x :
  closed_under_edges G S = true → u ∈ S → reachable G u x → x ∈ S.
Proof.
  unfold closed_under_edges. rewrite forallb_forall.
  intros Hc Hu [p Hp]. induction Hp as [|v x p Hw IH He]; [done|].
  apply list_elem_of_In, Hc in IH. rewrite forallb_forall in IH.
  destruct He as [r Hr]. unfold adj in Hr.
  destruct (dict_get v (g_adj G)) as [nbrs|]; simpl in *; [|done].
  assert (x ∈ dict_keys nbrs) as Hx by (apply dict_get_is_Some; eauto).
  apply list_elem_of_In, IH, bool_decide_eq_true in Hx. done.
Qed.

Lemma absent_unreachable {W} (G : Graph W) u x :
  wf_graph G → x ∉ nodes G → ¬ reachable G u x.
Proof. intros Hwf Hx [p Hp]. by apply walk_nodes in Hp. Qed.

(** Two islands: [A - B] and, apart from them, [C]. *)
Definition two_islands : Graph unit :=
  add_node (add_edge Nx.empty "A" "B" (mkEdgeData None None None)) "C" "client".

(** Decide a closed proposition by evaluation. *)
Ltac by_compute :=
  match goal with
  | |- ?P => apply (bool_decide_eq_true_1 P); vm_compute; reflexivity
  end.

(** ** Laws of the arithmetic, and weighted walks *)

(** The order and addition laws the proofs about Dijkstra's algorithm use:
    [<] is a strict order whose complement is transitive, addition is
    monotone, adding a non-negative weight does not decrease a distance and
    [inf] is the greatest value.  None of them asks addition to be
    associative or commutative, nor a sum of finite values to be finite:
    binary64 addition rounds and overflows.  Binary64 itself fails them
    where NaN is involved; [binary64_laws] below proves them for binary64
    with NaN and negative operands read as 0, which computes what binary64
    computes in a run on positive weights. *)
Class ArithLaws (W : Type) `{Arith W} : Prop := {
  ltb_irrefl : ∀ a, w_ltb a a = false;
  ltb_trans : ∀ a b c, w_ltb a b = true → w_ltb b c = true → w_ltb a c = true;
  le_trans : ∀ a b c, w_le a b → w_le b c → w_le a c;
  add_mono : ∀ a b w, w_le a b → w_le (w_add a w) (w_add b w);
  add_nonneg : ∀ a w, w_le w_zero w → w_le a (w_add a w);
  inf_top : ∀ a, w_le a w_inf;
  eqb_ltb : ∀ a b, w_eqb a b = true → w_ltb a b = false ∧ w_ltb b a = false
}.

Section OrderFacts.
Context {W : Type} `{ArithLaws W}.

Lemma le_refl a : w_le a a.
Proof. apply ltb_irrefl. Qed.

Lemma lt_le a b : w_ltb a b = true → w_le a b.
Proof.
  intros Hab. unfold w_le. destruct (w_ltb b a) eqn:Hba; [|done].
  by rewrite <- (ltb_irrefl a), <- (ltb_trans a b a Hab Hba).
Qed.

Lemma le_lt_trans a b c : w_le a b → w_ltb b c = true → w_ltb a c = true.
Proof.
  intros Hab Hbc. destruct (w_ltb a c) eqn:Hac; [done|].
  (* c <= a <= b, so not b < c *)
  assert (w_le c b) as Hcb by (by apply (le_trans c a b)).
  unfold w_le in Hcb. congruence.
Qed.


End OrderFacts.

Section WeightedWalks.
Context {W : Type} `{Arith W}.
Implicit Types G : Graph W.

(** [wedge G u v w]: [v] is a neighbour of [u] and the loop of
    [dijkstra_from_source] reads the weight [w] for it. *)
Definition wedge G (u v : string) (w : W) : Prop :=
  ∃ data, edge_data G u v = Ok data ∧ w = default w_one (weight data).

(** A walk from [u] with its weight, summed from [u] on in the order the
    algorithm adds: [((0 + w1) + w2) + ...]. *)
Inductive wwalk G (u : string) : string → W → Prop :=
| wwalk_start : u ∈ nodes G → wwalk G u u w_zero
| wwalk_snoc v x d w :
    wwalk G u v d → wedge G v x w → wwalk G u x (w_add d w).

(** Every weight the algorithm can read is positive and finite. *)
Definition positive_weights G : Prop :=
  ∀ data, data ∈ g_data G →
    w_ltb w_zero (default w_one (weight data)) = true ∧
    w_ltb (default w_one (weight data)) w_inf = true.

Definition positive_weightsb G : bool :=
  forallb (λ data, w_ltb w_zero (default w_one (weight data)) &&
                   w_ltb (default w_one (weight data)) w_inf) (g_data G).

Lemma positive_weightsb_sound G :
  positive_weightsb G = true → positive_weights G.
Proof.
  unfold positive_weightsb. rewrite forallb_forall.
  intros Hall data Hd%list_elem_of_In%Hall.
  by apply andb_true_iff in Hd.
Qed.

Lemma wedge_edge G u v w : wedge G u v w → edge G u v.
Proof.
  intros (data & Hd & _). unfold edge_data, edge, adj in *.
  destruct (dict_get u (g_adj G)) as [nbrs|]; simpl; [|done].
  destruct (dict_get v nbrs); [eauto|done].
Qed.

Lemma edge_wedge G u v :
  wf_graph G → edge G u v → ∃ w, wedge G u v w.
Proof.
  intros Hwf [r Hr]. pose proof (wf_data _ Hwf _ _ _ Hr) as Hlt.
  apply lookup_lt_is_Some in Hlt as [data Hdata].
  exists (default w_one (weight data)), data. split; [|done].
  unfold edge_data, adj in *.
  destruct (dict_get u (g_adj G)) as [nbrs|]; simpl in *; [|done].
  by rewrite Hr, Hdata.
Qed.

Lemma wedge_det G u v w1 w2 : wedge G u v w1 → wedge G u v w2 → w1 = w2.
Proof. intros (d1 & H1 & ->) (d2 & H2 & ->). congruence. Qed.

Lemma wedge_data G u v w :
  wedge G u v w → ∃ data, data ∈ g_data G ∧ w = default w_one (weight data).
Proof.
  intros (data & Hd & ->). exists data. split; [|done].
  unfold edge_data in Hd.
  destruct (dict_get u (g_adj G)) as [nbrs|]; [|done].
  destruct (dict_get v nbrs) as [r|]; [|done].
  destruct (g_data G !! r) eqn:Hr; [|done].
  simplify_eq. by eapply list_elem_of_lookup_2.
Qed.

(** Both directions of an edge read the same weight. *)
Lemma wedge_sym G u v w : wf_graph G → wedge G u v w → wedge G v u w.
Proof.
  intros Hwf (data & Hd & ->). exists data. split; [|done].
  unfold edge_data in *.
  destruct (dict_get u (g_adj G)) as [nbrs|] eqn:Hu; [|done].
  destruct (dict_get v nbrs) as [r|] eqn:Hv; [|done].
  assert (adj G u v = Some r) as Hr by (unfold adj; by rewrite Hu).
  apply (wf_sym _ Hwf) in Hr. unfold adj in Hr.
  destruct (dict_get v (g_adj G)) as [nbrs'|]; simpl in Hr; [|done].
  rewrite Hr. by destruct (g_data G !! r).
Qed.

Lemma wwalk_reachable G u v d : wwalk G u v d → reachable G u v.
Proof.
  induction 1 as [|v x d w Hw [p IH] He].
  - exists [u]. by constructor.
  - exists (p ++ [x]). econstructor; [done|]. by eapply wedge_edge.
Qed.

Lemma reachable_wwalk G u v :
  wf_graph G → reachable G u v → ∃ d, wwalk G u v d.
Proof.
  intros Hwf [p Hp]. induction Hp as [|v x p Hw [d IH] He].
  - exists w_zero. by constructor.
  - destruct (edge_wedge G v x Hwf He) as [w Hwe].
    exists (w_add d w). by econstructor.
Qed.

End WeightedWalks.

(** Total-correctness rule for [while] with a ghost value [g] that the
    invariant and the variant may mention. *)
Lemma while_rule_ghost {S Gh : Type} (I : Gh → S → Prop) (Q : S → Prop)
    (mu : Gh → S → nat) cond body :
  (∀ g s, I g s → cond s = false → Q s) →
  (∀ g s, I g s → cond s = true →
     (∃ g' s', body s = Ok (Continue s') ∧ I g' s' ∧ mu g' s' < mu g s) ∨
     (∃ s', body s = Ok (Break s') ∧ Q s')) →
  ∀ fuel g s, I g s → mu g s < fuel →
    ∃ s', while fuel cond body s = Ok s' ∧ Q s'.
Proof.
  intros Hexit Hbody fuel.
  induction fuel as [|fuel IH]; intros g s HI Hmu; [lia|].
  simpl. destruct (cond s) eqn:Hc.
  - destruct (Hbody g s HI Hc) as [(g' & s' & -> & HI' & Hlt)|(s' & -> & HQ)].
    + apply (IH g'); [done|lia].
    + eauto.
  - eauto.
Qed.

(** ** The priority queue *)

Section Heap.
Context {W : Type} `{ArithLaws W}.

Lemma tuple_lt_true (a b : W * string) : tuple_lt a b = true → w_le a.1 b.1.
Proof.
  unfold tuple_lt. destruct (w_eqb a.1 b.1) eqn:He.
  - intros _. by apply eqb_ltb in He as [_ ?].
  - apply lt_le.
Qed.

Lemma tuple_lt_false (a b : W * string) : tuple_lt a b = false → w_le b.1 a.1.
Proof.
  unfold tuple_lt. destruct (w_eqb a.1 b.1) eqn:He.
  - intros _. by apply eqb_ltb in He as [? _].
  - done.
Qed.

Lemma pop_min_perm (x : W * string) pq :
  x :: pq ≡ₚ (pop_min x pq).1 :: (pop_min x pq).2.
Proof.
  revert x. induction pq as [|y pq IH]; intros x; simpl; [done|].
  destruct (pop_min y pq) as [m rest] eqn:Hp.
  specialize (IH y). rewrite Hp in IH. simpl in IH.
  destruct (tuple_lt m x); simpl; [|done].
  rewrite IH. apply Permutation_swap.
Qed.

(** No item left in the queue has a smaller distance than the popped one. *)
Lemma pop_min_le (x : W * string) pq z :
  z ∈ (pop_min x pq).2 → w_le (pop_min x pq).1.1 z.1.
Proof.
  revert x z. induction pq as [|y pq IH]; intros x z; simpl.
  - by intros ?%elem_of_nil.
  - destruct (pop_min y pq) as [m rest] eqn:Hp.
    pose proof (IH y) as IHy. rewrite Hp in IHy. simpl in IHy.
    pose proof (pop_min_perm y pq) as Hperm. rewrite Hp in Hperm. simpl in Hperm.
    destruct (tuple_lt m x) eqn:Hlt; simpl.
    + intros [->|Hz]%elem_of_cons; [by apply tuple_lt_true|by apply IHy].
    + intros Hz. rewrite Hperm in Hz.
      apply tuple_lt_false in Hlt.
      apply elem_of_cons in Hz as [->|Hz]; [done|].
      eapply le_trans; [done|]. by apply IHy.
Qed.

Lemma heappop_spec (pq : heap) :
  pq ≠ [] →
  ∃ d u rest, heappop pq = Ok ((d, u), rest) ∧ pq ≡ₚ (d, u) :: rest ∧
              ∀ z, z ∈ rest → w_le d z.1.
Proof.
  destruct pq as [|x pq]; [done|]. intros _. simpl.
  destruct (pop_min x pq) as [[d u] rest] eqn:Hp.
  exists d, u, rest. split_and!; [done|..].
  - pose proof (pop_min_perm x pq) as Hperm. by rewrite Hp in Hperm.
  - intros z Hz. pose proof (pop_min_le x pq z) as Hle.
    rewrite Hp in Hle. by apply Hle.
Qed.
End Heap.

(** ** Invariants of Dijkstra's loop *)

Section Dijkstra.
Context {W : Type} `{ArithLaws W}.
Variable G : Graph W.
Hypothesis Hwf : wf_graph G.
Hypothesis Hpos : positive_weights G.
Variable start : string.
Hypothesis Hstart : start ∈ nodes G.
Implicit Types dist : gmap string W.
Implicit Types s : @dijkstra_state W.
Implicit Types P : list string.

Lemma wedge_pos u v w :
  wedge G u v w → w_ltb w_zero w = true ∧ w_ltb w w_inf = true.
Proof. intros (data & Hd & ->)%wedge_data. by apply Hpos. Qed.

Lemma wwalk_nonneg v d : wwalk G start v d → w_le w_zero d.
Proof.
  induction 1 as [|v x d w Hw IH He]; [apply le_refl|].
  eapply le_trans; [done|]. apply add_nonneg, lt_le.
  by apply wedge_pos in He as [? _].
Qed.


(** Facts about [dist] and the queue that hold at every point of the run:
    the keys of [dist] are the nodes, [dist[start]] is 0, every other entry
    is [inf] or the weight of a walk, and so is every queued distance, which
    is never below the recorded one. *)
Record dj_base s : Prop := {
  dj_dom : ∀ v, is_Some (s.1 !! v) ↔ v ∈ nodes G;
  dj_start : s.1 !! start = Some w_zero;
  dj_real : ∀ v dv, s.1 !! v = Some dv → dv = w_inf ∨ wwalk G start v dv;
  dj_pq : ∀ d u, (d, u) ∈ s.2 →
            wwalk G start u d ∧ ∃ du, s.1 !! u = Some du ∧ w_le du d
}.

(** All edges out of [u] are relaxed with respect to [dist]. *)
Definition relaxed dist (u : string) : Prop :=
  ∀ du v w, dist !! u = Some du → wedge G u v w →
    ∃ dv, dist !! v = Some dv ∧ w_le dv (w_add du w).

(** At the top of an iteration, with [P] the nodes expanded so far: a node
    with a finite distance is either in [P], and then its edges are relaxed
    and nothing queued lies below its distance, or it has a queue entry
    carrying its current distance. *)
Record dj_inv P s : Prop := {
  dj_b : dj_base s;
  dj_pending : ∀ u du, s.1 !! u = Some du → w_ltb du w_inf = true → u ∉ P →
                 ∃ d, (d, u) ∈ s.2 ∧ w_le d du;
  dj_relaxed : ∀ u, u ∈ P → relaxed s.1 u;
  dj_order : ∀ x dx d y, x ∈ P → s.1 !! x = Some dx → (d, y) ∈ s.2 → w_le dx d
}.

(** In the middle of expanding [u], popped with distance [d], after the
    neighbours [done]. *)
Record dj_mid P (u : string) (d : W) (done : list string) s : Prop := {
  djm_b : dj_base s;
  djm_walk : wwalk G start u d;
  djm_u : ∃ du, s.1 !! u = Some du ∧ w_le d du;
  djm_pending : ∀ x dx, s.1 !! x = Some dx → w_ltb dx w_inf = true →
                  x ∉ u :: P → ∃ d', (d', x) ∈ s.2 ∧ w_le d' dx;
  djm_relaxed : ∀ x, x ∈ P → relaxed s.1 x;
  djm_done : ∀ v w, v ∈ done → wedge G u v w →
               ∃ dv, s.1 !! v = Some dv ∧ w_le dv (w_add d w);
  djm_cur : ∀ x dx, x ∈ u :: P → s.1 !! x = Some dx → w_le dx d;
  djm_order : ∀ x dx d' y, x ∈ u :: P → s.1 !! x = Some dx → (d', y) ∈ s.2 →
                w_le dx d'
}.

(** One pass through the body of [for v in G.neighbors(u)]. *)
Lemma relax_step P u d done s v :
  dj_mid P u d done s → edge G u v →
  ∃ s', relax G d u s v = Ok s' ∧
        dj_mid P u d (done ++ [v]) s' ∧
        length s'.2 ≤ S (length s.2) ∧
        (u ∈ P → s' = s).
Proof.
  intros Hm He. destruct s as [dist pq].
  destruct Hm as [[Hdom Hst Hreal Hpq] Hwalk Hu Hpend Hrel Hdone Hcur Hord].
  simpl in *.
  destruct (edge_wedge G u v Hwf He) as [w Hw].
  pose proof Hw as (data & Hdata & Hweq).
  assert (v ∈ nodes G) as Hv by (by eapply wf_closed).
  apply Hdom in Hv as [dv Hdv].
  assert (wwalk G start v (w_add d w)) as Hwalk' by (by econstructor).
  unfold relax. rewrite Hdata. simpl. rewrite Hdv, <- Hweq.
  destruct (w_ltb (w_add d w) dv) eqn:Hlt.
  - (* [dist[v] = nd] and [heappush(pq, (nd, v))] *)
    assert (v ∉ u :: P) as HvP.
    { intros Hin. pose proof (Hcur _ _ Hin Hdv) as Hle.
      assert (w_le dv (w_add d w)) as Hle'.
      { eapply le_trans; [done|]. apply add_nonneg, lt_le.
        by apply wedge_pos in Hw as [? _]. }
      unfold w_le in Hle'. congruence. }
    assert (v ≠ start) as Hvs.
    { intros ->. rewrite Hst in Hdv. simplify_eq.
      apply wwalk_nonneg in Hwalk'. unfold w_le in Hwalk'. congruence. }
    eexists. split; [done|]. split_and!; [split; [split|..]|..]; simpl.
    + intros x. rewrite <- Hdom. destruct (decide (x = v)) as [->|Hne].
      * rewrite lookup_insert_eq, Hdv. split; eauto.
      * by rewrite lookup_insert_ne.
    + by rewrite lookup_insert_ne.
    + intros x dx. destruct (decide (x = v)) as [->|Hne].
      * rewrite lookup_insert_eq. intros [= <-]. by right.
      * rewrite lookup_insert_ne by done. apply Hreal.
    + intros d' y [ [= -> ->] | Hin]%elem_of_cons.
      * split; [done|]. exists (w_add d w).
        rewrite lookup_insert_eq. split; [done|apply le_refl].
      * destruct (Hpq _ _ Hin) as (Hwy & dy & Hdy & Hle). split; [done|].
        destruct (decide (y = v)) as [->|Hne].
        -- rewrite lookup_insert_eq. eexists; split; [done|].
           simplify_eq. eapply le_trans; [|done]. by apply lt_le.
        -- rewrite lookup_insert_ne by done. eauto.
    + done.
    + destruct Hu as (du & Hdu & Hle). exists du. split; [|done].
      rewrite lookup_insert_ne; [done|]. intros <-. apply HvP. left.
    + intros x dx. destruct (decide (x = v)) as [->|Hne].
      * rewrite lookup_insert_eq. intros [= <-] _ _.
        exists (w_add d w). split; [left|apply le_refl].
      * rewrite lookup_insert_ne by done. intros Hdx Hfin HxP.
        destruct (Hpend _ _ Hdx Hfin HxP) as (d' & Hin & Hle).
        exists d'. split; [by right|done].
    + intros x HxP du' y w' Hdu' Hwe.
      assert (x ≠ v) as Hne by (intros ->; apply HvP; by right).
      rewrite lookup_insert_ne in Hdu' by done.
      destruct (Hrel _ HxP _ _ _ Hdu' Hwe) as (dy & Hdy & Hle).
      destruct (decide (y = v)) as [->|Hne'].
      * rewrite lookup_insert_eq. eexists; split; [done|]. simplify_eq.
        eapply le_trans; [|done]. by apply lt_le.
      * rewrite lookup_insert_ne by done. eauto.
    + intros y w' [Hin | ->%list_elem_of_singleton]%elem_of_app Hwe.
      * destruct (Hdone _ _ Hin Hwe) as (dy & Hdy & Hle).
        destruct (decide (y = v)) as [->|Hne'].
        -- rewrite lookup_insert_eq. eexists; split; [done|]. simplify_eq.
           eapply le_trans; [|done]. by apply lt_le.
        -- rewrite lookup_insert_ne by done. eauto.
      * rewrite lookup_insert_eq. eexists; split; [done|].
        rewrite (wedge_det G u v w' w Hwe Hw). apply le_refl.
    + intros x dx HxP.
      assert (x ≠ v) as Hne by (by intros ->).
      rewrite lookup_insert_ne by done. by apply Hcur.
    + intros x dx d' y HxP.
      assert (x ≠ v) as Hne by (by intros ->).
      rewrite lookup_insert_ne by done.
      intros Hdx [ [= -> ->] | Hin]%elem_of_cons; [|by eapply Hord].
      eapply le_trans; [by eapply Hcur|].
      apply add_nonneg, lt_le. by apply wedge_pos in Hw as [? _].
    + lia.
    + intros HuP. exfalso.
      destruct Hu as (du & Hdu & Hle).
      destruct (Hrel _ HuP _ _ _ Hdu Hw) as (dv' & Hdv' & Hle').
      assert (dv' = dv) as -> by congruence.
      assert (w_le dv (w_add d w)) as Hbad.
      { eapply le_trans; [done|]. apply add_mono. apply (Hcur u); [left|done]. }
      unfold w_le in Hbad. congruence.
  - eexists. split; [done|]. split_and!; [split; try done|simpl; lia|done].
    simpl. intros y w' [Hin | ->%list_elem_of_singleton]%elem_of_app Hwe.
    + by eapply Hdone.
    + exists dv. split; [done|].
      by rewrite (wedge_det G u v w' w Hwe Hw).
Qed.

Lemma relax_all P u d nbs :
  ∀ done s,
    dj_mid P u d done s → (∀ v, v ∈ nbs → edge G u v) →
    ∃ s', for_each nbs (relax G d u) s = Ok s' ∧
          dj_mid P u d (done ++ nbs) s' ∧
          length s'.2 ≤ length s.2 + length nbs ∧
          (u ∈ P → s' = s).
Proof.
  induction nbs as [|v nbs IH]; intros done s Hm Hnbs; simpl.
  - exists s. rewrite app_nil_r. split_and!; [done|done|lia|done].
  - destruct (relax_step P u d done s v Hm) as (s1 & -> & Hm1 & Hlen1 & Hsame1).
    { apply Hnbs. left. }
    simpl. destruct (IH (done ++ [v]) s1 Hm1) as (s' & Hfor & Hm' & Hlen & Hsame).
    { intros x Hx. apply Hnbs. by right. }
    exists s'. split_and!; [done| |lia|].
    + by rewrite cons_middle, (assoc_L (++)).
    + intros HuP. rewrite (Hsame HuP). auto.
Qed.
(** The variant: queue length plus the degrees of the nodes not yet
    expanded (each expansion pushes at most one item per neighbour). *)
Definition deg (u : string) : nat :=
  length (default [] (dict_get u (g_adj G))).

Definition pending_degree P (l : list string) : nat :=
  sum_list (deg <$> filter (λ x, x ∉ P) l).

Definition dijkstra_mu P s : nat := length s.2 + pending_degree P (nodes G).

Lemma pending_degree_mono u P l :
  pending_degree (u :: P) l ≤ pending_degree P l.
Proof.
  unfold pending_degree. induction l as [|x l IH]; [done|].
  rewrite !filter_cons.
  destruct (decide (x ∉ u :: P)) as [Hx|Hx];
    destruct (decide (x ∉ P)) as [Hx'|Hx']; rewrite ?fmap_cons; simpl; try lia.
  exfalso. apply Hx'. intros ?. apply Hx. by right.
Qed.

Lemma pending_degree_cons u P l :
  u ∈ l → u ∉ P →
  pending_degree (u :: P) l + deg u ≤ pending_degree P l.
Proof.
  intros Hu HuP. induction l as [|x l IH]; [by inversion Hu|].
  pose proof (pending_degree_mono u P l) as Hmono.
  unfold pending_degree in *. rewrite !filter_cons.
  destruct (decide (x = u)) as [->|Hne].
  - rewrite decide_False by (intros Hn; apply Hn; left).
    rewrite decide_True by done. rewrite fmap_cons. simpl. lia.
  - apply elem_of_cons in Hu as [->|Hu]; [done|]. specialize (IH Hu).
    destruct (decide (x ∉ u :: P)) as [Hx|Hx];
      destruct (decide (x ∉ P)) as [Hx'|Hx']; rewrite ?fmap_cons; simpl; try lia.
    exfalso. apply Hx'. intros ?. apply Hx. by right.
Qed.

Lemma neighbors_deg u nbs : neighbors G u = Ok nbs → length nbs = deg u.
Proof.
  unfold neighbors, deg. destruct (dict_get u (g_adj G)); [|done].
  intros [= <-]. unfold dict_keys. by rewrite length_fmap.
Qed.

(** One iteration of the [while pq] loop. *)
Lemma dijkstra_step P s :
  dj_inv P s → dijkstra_cond s = true →
  ∃ P' s', dijkstra_body G s = Ok (Continue s') ∧ dj_inv P' s' ∧
           dijkstra_mu P' s' < dijkstra_mu P s.
Proof.
  intros [[Hdom Hst Hreal Hpq] Hpend Hrel Hord] Hc.
  destruct s as [dist pq]. simpl in *.
  unfold dijkstra_cond in Hc. apply bool_decide_eq_true in Hc. simpl in Hc.
  destruct (heappop_spec pq Hc) as (d & u & rest & Hpop & Hperm & Hmin).
  assert (∀ z, z ∈ rest → z ∈ pq) as Hsub.
  { intros z Hz. rewrite Hperm. by right. }
  assert ((d, u) ∈ pq) as Hin by (rewrite Hperm; left).
  assert (length pq = S (length rest)) as Hlen by (by rewrite Hperm).
  destruct (Hpq _ _ Hin) as (Hwalk & du & Hdu & Hle).
  unfold dijkstra_body. simpl. rewrite Hpop. simpl. rewrite Hdu.
  destruct (w_ltb du d) eqn:Hstale.
  - (* a stale entry: [continue] *)
    exists P, (dist, rest). split; [done|]. split.
    + split; [split|..]; simpl; try done.
      * intros d' y Hy. apply Hpq. auto.
      * intros x dx Hdx Hfin HxP.
        destruct (Hpend _ _ Hdx Hfin HxP) as (d' & Hin' & Hle').
        exists d'. split; [|done]. rewrite Hperm in Hin'.
        apply elem_of_cons in Hin' as [[= -> ->]|?]; [|done].
        rewrite Hdu in Hdx. simplify_eq. unfold w_le in Hle'. congruence.
      * intros x dx d' y HxP Hdx Hy. eapply Hord; eauto.
    + unfold dijkstra_mu. simpl. lia.
  - assert (u ∈ nodes G) as Hu by (apply Hdom; eauto).
    destruct (neighbors_node G u Hwf Hu) as [nbs Hnbs].
    rewrite Hnbs. simpl.
    assert (dj_mid P u d [] (dist, rest)) as Hmid.
    { split; [split|..]; simpl; try done.
      - intros d' y Hy. apply Hpq. auto.
      - eauto.
      - intros x dx Hdx Hfin HxP.
        destruct (Hpend _ _ Hdx Hfin) as (d' & Hin' & Hle').
        { intros ?. apply HxP. by right. }
        exists d'. split; [|done]. rewrite Hperm in Hin'.
        apply elem_of_cons in Hin' as [[= -> ->]|?]; [|done].
        exfalso. apply HxP. left.
      - intros v w Hv. by inversion Hv.
      - intros x dx [->|HxP]%elem_of_cons Hdx.
        + by simplify_eq.
        + by eapply Hord.
      - intros x dx d' y [->|HxP]%elem_of_cons Hdx Hy.
        + simplify_eq. eapply le_trans; [done|]. by apply (Hmin (d', y)).
        + eapply Hord; eauto. }
    destruct (relax_all P u d nbs [] (dist, rest) Hmid)
      as (s' & Hfor & Hm' & Hlen' & Hsame).
    { intros v Hv. by apply (edge_neighbors G u v nbs). }
    rewrite Hfor. simpl in *.
    destruct Hm' as [Hb' Hwalk' Hu' Hpend' Hrel' Hdone' Hcur' Hord'].
    destruct (decide (u ∈ P)) as [HuP|HuP].
    + exists P, s'. split; [done|]. split.
      * split; try done.
        -- intros x dx Hdx Hfin HxP. apply (Hpend' x dx Hdx Hfin).
           intros [->|?]%elem_of_cons; done.
        -- intros x dx d' y HxP. apply Hord'. by right.
      * rewrite (Hsame HuP). unfold dijkstra_mu. simpl. lia.
    + exists (u :: P), s'. split; [done|]. split.
      * split; try done.
        intros x [->|HxP]%elem_of_cons; [|by apply Hrel'].
        intros du' v w Hdu' Hwe.
        destruct (Hdone' v w) as (dv & Hdv & Hle'); [|done|].
        { apply (edge_neighbors G u v nbs Hnbs). by eapply wedge_edge. }
        exists dv. split; [done|].
        eapply le_trans; [done|]. apply add_mono.
        destruct Hu' as (du'' & Hdu'' & Hle''). by simplify_eq.
      * unfold dijkstra_mu. simpl.
        pose proof (pending_degree_cons u P (nodes G) Hu HuP).
        rewrite (neighbors_deg u nbs Hnbs) in Hlen'. lia.
Qed.
(** Iterations that always suffice: one per queue item, and at most one
    item is pushed per neighbour of each node. *)
Definition dijkstra_bound : nat := S (sum_list (deg <$> nodes G)).

Lemma pending_degree_nil l : pending_degree [] l ≤ sum_list (deg <$> l).
Proof.
  unfold pending_degree. induction l as [|x l IH]; [done|].
  rewrite filter_cons. destruct (decide (x ∉ [])) as [?|Hx].
  - rewrite !fmap_cons. simpl in *. lia.
  - exfalso. apply Hx. apply not_elem_of_nil.
Qed.

Lemma dist_init_lookup (l : list string) v :
  (list_to_map ((λ node, (node, w_inf)) <$> l) : gmap string W) !! v
  = if decide (v ∈ l) then Some w_inf else None.
Proof.
  induction l as [|x l IH].
  - rewrite fmap_nil, list_to_map_nil, lookup_empty.
    by rewrite decide_False by apply not_elem_of_nil.
  - rewrite fmap_cons, list_to_map_cons. simpl.
    destruct (decide (v = x)) as [->|Hne].
    + rewrite lookup_insert_eq. by rewrite decide_True by left.
    + rewrite lookup_insert_ne by done. rewrite IH.
      destruct (decide (v ∈ l)) as [Hv|Hv].
      * by rewrite decide_True by (by right).
      * rewrite decide_False; [done|]. by intros [?|?]%elem_of_cons.
Qed.

Lemma dijkstra_init :
  dj_inv [] (<[start := w_zero]>
               (list_to_map ((λ node, (node, w_inf)) <$> nodes G)),
             [(w_zero, start)]).
Proof.
  split; [split|..]; simpl.
  - intros v. destruct (decide (v = start)) as [->|Hne].
    + rewrite lookup_insert_eq. split; eauto.
    + rewrite lookup_insert_ne by done. rewrite dist_init_lookup.
      case_decide; split; [eauto|eauto|intros [? ?]; done|done].
  - apply lookup_insert_eq.
  - intros v dv. destruct (decide (v = start)) as [->|Hne].
    + rewrite lookup_insert_eq. intros [= <-]. right. by constructor.
    + rewrite lookup_insert_ne by done. rewrite dist_init_lookup.
      case_decide; [|done]. intros [= <-]. by left.
  - intros d u [= -> ->]%list_elem_of_singleton. split; [by constructor|].
    exists w_zero. rewrite lookup_insert_eq. split; [done|apply le_refl].
  - intros u du. destruct (decide (u = start)) as [->|Hne].
    + rewrite lookup_insert_eq. intros [= <-] _ _.
      exists w_zero. split; [by left|apply le_refl].
    + rewrite lookup_insert_ne by done. rewrite dist_init_lookup.
      case_decide; [|done]. intros [= <-]. by rewrite ltb_irrefl.
  - intros u Hu. by inversion Hu.
  - intros x dx d y Hx. by inversion Hx.
Qed.

(** What holds when the queue has run empty. *)
Record dj_final dist : Prop := {
  djf_dom : ∀ v, is_Some (dist !! v) ↔ v ∈ nodes G;
  djf_start : dist !! start = Some w_zero;
  djf_real : ∀ v dv, dist !! v = Some dv → dv = w_inf ∨ wwalk G start v dv;
  djf_least : ∀ v d, wwalk G start v d → ∃ dv, dist !! v = Some dv ∧ w_le dv d
}.

Lemma dj_inv_final P dist : dj_inv P (dist, []) → dj_final dist.
Proof.
  intros [[Hdom Hst Hreal Hpq] Hpend Hrel Hord]. simpl in *.
  split; [done..|].
  intros v d. induction 1 as [|v x d w Hw (dv & Hdv & Hle) He].
  - exists w_zero. split; [done|apply le_refl].
  - assert (x ∈ nodes G) as Hx.
    { eapply wf_closed; [done|]. by eapply wedge_edge. }
    apply Hdom in Hx as [dx Hdx].
    destruct (w_ltb dv w_inf) eqn:Hfin.
    + destruct (decide (v ∈ P)) as [HvP|HvP].
      * destruct (Hrel _ HvP _ _ _ Hdv He) as (dx' & Hdx' & Hle').
        exists dx'. split; [done|].
        eapply le_trans; [done|]. by apply add_mono.
      * destruct (Hpend _ _ Hdv Hfin HvP) as (? & Hin & _). by inversion Hin.
    + exists dx. split; [done|].
      eapply le_trans; [apply inf_top|].
      eapply le_trans; [exact Hfin|].
      eapply le_trans; [done|]. apply add_nonneg, lt_le.
      by apply wedge_pos in He as [? _].
Qed.

Lemma dijkstra_loop fuel :
  dijkstra_bound < fuel →
  ∃ dist, dijkstra_from_source fuel G start = Ok dist ∧ dj_final dist.
Proof.
  intros Hf. unfold dijkstra_from_source.
  destruct (while_rule_ghost dj_inv (λ s, dj_final s.1) dijkstra_mu
              dijkstra_cond (dijkstra_body G)) with
    (fuel := fuel) (g := @nil string)
    (s := (<[start := w_zero]>
             (list_to_map ((λ node, (node, w_inf)) <$> nodes G) : gmap string W),
           [(w_zero, start)])) as (s' & Hloop & Hfinal).
  - intros P s Hi Hc. unfold dijkstra_cond in Hc.
    apply bool_decide_eq_false in Hc. destruct s as [dist pq]. simpl in *.
    destruct pq; [|by destruct Hc]. by eapply dj_inv_final.
  - intros P s Hi Hc. left.
    destruct (dijkstra_step P s Hi Hc) as (P' & s' & ? & ? & ?). eauto.
  - apply dijkstra_init.
  - unfold dijkstra_mu, dijkstra_bound in *. simpl.
    pose proof (pending_degree_nil (nodes G)). lia.
  - rewrite Hloop. simpl. eauto.
Qed.
End Dijkstra.

(** ** The all-pairs table *)

Section AllPairs.
Context {W : Type} `{Arith W}.
Variable G : Graph W.

(** The loop of [all_pairs_shortest_distances] over the sources [l], where
    every single-source run returns. *)
Lemma all_pairs_loop fuel (l : list string) :
  (∀ a, a ∈ l → ∃ dist, dijkstra_from_source fuel G a = Ok dist) →
  ∀ t0 : gmap string (gmap string W), ∃ t : gmap string (gmap string W),
    for_each l (λ result start,
                  dist ←r dijkstra_from_source fuel G start;
                  Ok (<[start := dist]> result)) t0 = Ok t ∧
    (∀ a, a ∈ l → ∃ dist, t !! a = Some dist ∧
                          dijkstra_from_source fuel G a = Ok dist) ∧
    (∀ a, a ∉ l → t !! a = t0 !! a).
Proof.
  induction l as [|x l IH]; intros Hl t0; simpl.
  - exists t0. split_and!; [done| |done]. intros a Ha. by inversion Ha.
  - destruct (Hl x) as [dist Hd]; [left|].
    rewrite Hd. simpl.
    destruct (IH (λ a Ha, Hl a (proj2 (elem_of_cons l a x) (or_intror Ha)))
                 (<[x := dist]> t0)) as (t & Hfor & Hrows & Hrest).
    exists t. split_and!; [done|..].
    + intros a Ha. destruct (decide (a ∈ l)) as [Hal|Hal]; [by apply Hrows|].
      apply elem_of_cons in Ha as [->|?]; [|done].
      exists dist. rewrite (Hrest x Hal), lookup_insert_eq. done.
    + intros a Ha. rewrite Hrest.
      * rewrite lookup_insert_ne; [done|]. intros ->. apply Ha. left.
      * intros ?. apply Ha. by right.
Qed.
End AllPairs.

(** ** The reference topology with weights *)

Definition float_topology : Graph float :=
  match Task03.build_network_topology with
  | Ok G => G
  | _ => Nx.empty
  end.

Lemma float_topology_wf : wf_graph float_topology.
Proof. apply wf_graphb_sound. vm_compute. reflexivity. Qed.

Lemma float_topology_positive : positive_weights float_topology.
Proof. apply positive_weightsb_sound. vm_compute. reflexivity. Qed.

(** ** Binary64 addition, division and comparison

    The scripts add and compare distances in binary64, and divide 1.0 by a
    speed.  The specification of the primitive floats ([SpecFloat]) is
    related here to integers: a float that is neither NaN nor negative has
    the value [sval x * 2^-1074], with [+inf] standing at [val_top], above
    every finite value; comparison of such floats is comparison of their
    values, and their sum is the sum of their values rounded to nearest,
    ties to even, at 53 bits. *)

Section BinaryFloats.
Local Open Scope Z_scope.

(** The place of [+inf] on the scale of [sval]: [2^1024 * 2^1074]. *)
Definition val_top : Z := 2 ^ 2098.

(** The value of a float in units of [2^-1074], the least subnormal. *)
Definition sval (x : spec_float) : Z :=
  match x with
  | S754_finite _ m e => Zpos m * 2 ^ (e + 1074)
  | S754_infinity _ => val_top
  | _ => 0
  end.

(** Not NaN, not negative, and in the binary64 format. *)
Definition sgood (x : spec_float) : bool :=
  match x with
  | S754_zero _ => true
  | S754_infinity s => negb s
  | S754_finite s m e => negb s && bounded prec emax m e
  | S754_nan => false
  end.

Lemma digits2_pos_bounds (m : positive) :
  2 ^ (Zpos (digits2_pos m) - 1) <= Zpos m < 2 ^ Zpos (digits2_pos m).
Proof.
  induction m as [m IH|m IH|]; simpl digits2_pos; [| |done].
  - rewrite Pos2Z.inj_succ.
    replace (Z.succ (Zpos (digits2_pos m)) - 1) with (Z.succ (Zpos (digits2_pos m) - 1)) by lia.
    rewrite !Z.pow_succ_r by lia. lia.
  - rewrite Pos2Z.inj_succ.
    replace (Z.succ (Zpos (digits2_pos m)) - 1) with (Z.succ (Zpos (digits2_pos m) - 1)) by lia.
    rewrite !Z.pow_succ_r by lia. lia.
Qed.

Lemma bounded_spec (m : positive) (e : Z) :
  bounded prec emax m e = true ↔
  -1074 <= e <= 971 ∧ Zpos (digits2_pos m) <= 53 ∧
  (e = -1074 ∨ Zpos (digits2_pos m) = 53).
Proof.
  unfold bounded, canonical_mantissa, fexp, SpecFloat.emin.
  change prec with 53. change emax with 1024.
  rewrite andb_true_iff, Z.eqb_eq, Z.leb_le. lia.
Qed.

Lemma pow2_pos (k : Z) : 0 <= k → 0 < 2 ^ k.
Proof. intros. by apply Z.pow_pos_nonneg. Qed.

Lemma pow2_le (a b : Z) : 0 <= a <= b → 2 ^ a <= 2 ^ b.
Proof. intros. apply Z.pow_le_mono_r; lia. Qed.

Lemma pow2_lt (a b : Z) : 0 <= a < b → 2 ^ a < 2 ^ b.
Proof. intros. apply Z.pow_lt_mono_r; lia. Qed.

Lemma mul_lt_le (a b c d : Z) : 0 <= a < b → 0 < c <= d → a * c < b * d.
Proof. nia. Qed.

Lemma sval_finite_bounds s m e :
  bounded prec emax m e = true →
  0 < sval (S754_finite s m e) < val_top.
Proof.
  intros (He & Hd & _)%bounded_spec. simpl.
  pose proof (digits2_pos_bounds m) as [_ Hm].
  assert (0 < 2 ^ (e + 1074)) by (apply pow2_pos; lia).
  split; [lia|].
  assert (Zpos m < 2 ^ 53).
  { eapply Z.lt_le_trans; [done|]. apply pow2_le. lia. }
  assert (2 ^ (e + 1074) <= 2 ^ 2045) by (apply pow2_le; lia).
  unfold val_top. replace 2098 with (53 + 2045) by lia.
  rewrite (Z.pow_add_r 2 53 2045) by lia. apply mul_lt_le; lia.
Qed.

(** Value order of two canonical positive floats. *)
Lemma sval_finite_compare m1 e1 m2 e2 :
  bounded prec emax m1 e1 = true → bounded prec emax m2 e2 = true →
  (sval (S754_finite false m1 e1) ?= sval (S754_finite false m2 e2))
  = match e1 ?= e2 with
    | Lt => Lt
    | Gt => Gt
    | Eq => Pos.compare_cont Eq m1 m2
    end.
Proof.
  intros (He1 & Hd1 & Hc1)%bounded_spec (He2 & Hd2 & Hc2)%bounded_spec. simpl.
  pose proof (digits2_pos_bounds m1) as [Hl1 Hu1].
  pose proof (digits2_pos_bounds m2) as [Hl2 Hu2].
  assert (∀ m (ea eb : Z) m', -1074 <= ea < eb → eb <= 971 →
            Zpos m < 2 ^ 53 → 2 ^ 52 <= Zpos m' →
            Zpos m * 2 ^ (ea + 1074) < Zpos m' * 2 ^ (eb + 1074)) as Hlt.
  { intros m ea eb m' Hea Heb Hm Hm'.
    replace (eb + 1074) with ((ea + 1074) + (eb - ea)) by lia.
    rewrite (Z.pow_add_r 2 (ea + 1074) (eb - ea)) by lia.
    assert (0 < 2 ^ (ea + 1074)) by (apply pow2_pos; lia).
    assert (2 ^ 1 <= 2 ^ (eb - ea)) by (apply pow2_le; lia).
    change (2 ^ 1) with 2 in *.
    set (P := 2 ^ (ea + 1074)) in *. set (Q := 2 ^ (eb - ea)) in *.
    assert (Zpos m < 2 * 2 ^ 52) as Hm2 by (by rewrite <- (Z.pow_succ_r 2 52)).
    set (T := 2 ^ 52) in *. clearbody P Q T.
    assert (Zpos m * P < 2 * T * P) by nia.
    assert (0 < T * P) by nia.
    assert (2 * (T * P) <= Q * (T * P)) by nia.
    assert (T * (P * Q) <= Zpos m' * (P * Q)) by nia.
    lia. }
  assert (∀ m d, Zpos m < 2 ^ d → d <= 53 → Zpos m < 2 ^ 53) as Hub.
  { intros m d Hm Hd. eapply Z.lt_le_trans; [done|]. apply pow2_le.
    split; [|done]. destruct (Z.le_gt_cases 0 d); [done|].
    rewrite Z.pow_neg_r in Hm by lia. lia. }
  destruct (Z.compare_spec e1 e2) as [->|Hlt12|Hgt12].
  - change (Pos.compare_cont Eq m1 m2) with (Zpos m1 ?= Zpos m2).
    assert (0 < 2 ^ (e2 + 1074)) by (apply pow2_pos; lia).
    destruct (Z.compare_spec (Zpos m1) (Zpos m2)) as [Heq|?|?].
    + rewrite Heq. apply Z.compare_refl.
    + apply Z.compare_lt_iff. nia.
    + apply Z.compare_gt_iff. nia.
  - apply Z.compare_lt_iff. apply Hlt; [lia|lia|by eapply Hub|].
    destruct Hc2 as [?|Hc2]; [lia|]. rewrite Hc2 in Hl2. done.
  - apply Z.compare_gt_iff. apply Hlt; [lia|lia|by eapply Hub|].
    destruct Hc1 as [?|Hc1]; [lia|]. rewrite Hc1 in Hl1. done.
Qed.

Lemma top_pos : 0 < val_top.
Proof. by apply pow2_pos. Qed.

Lemma SFcompare_sval x y :
  sgood x = true → sgood y = true →
  SFcompare x y = Some (sval x ?= sval y).
Proof.
  pose proof top_pos.
  destruct x as [sx|[|]| |[|] mx ex], y as [sy|[|]| |[|] my ey];
    cbn [sgood negb andb SFcompare sval]; try (intros; discriminate).
  all: intros Hx Hy; f_equal; symmetry.
  all: try (by apply sval_finite_compare).
  all: try (pose proof (sval_finite_bounds false _ _ Hx) as Hbx; cbn [sval] in Hbx).
  all: try (pose proof (sval_finite_bounds false _ _ Hy) as Hby; cbn [sval] in Hby).
  all: first [apply Z.compare_lt_iff; lia | apply Z.compare_gt_iff; lia
             | apply Z.compare_eq_iff; lia].
Qed.

Lemma SFltb_sval x y :
  sgood x = true → sgood y = true → SFltb x y = (sval x <? sval y).
Proof.
  intros Hx Hy. unfold SFltb, Z.ltb. rewrite (SFcompare_sval x y Hx Hy).
  by destruct (sval x ?= sval y).
Qed.

Lemma SFleb_sval x y :
  sgood x = true → sgood y = true → SFleb x y = (sval x <=? sval y).
Proof.
  intros Hx Hy. unfold SFleb, Z.leb. rewrite (SFcompare_sval x y Hx Hy).
  by destruct (sval x ?= sval y).
Qed.

Lemma SFeqb_sval x y :
  sgood x = true → sgood y = true → SFeqb x y = (sval x =? sval y).
Proof.
  intros Hx Hy. unfold SFeqb. rewrite (SFcompare_sval x y Hx Hy).
  destruct (Z.compare_spec (sval x) (sval y)); symmetry.
  - by apply Z.eqb_eq.
  - apply Z.eqb_neq. lia.
  - apply Z.eqb_neq. lia.
Qed.
End BinaryFloats.

(** *** Right shifts and rounding to nearest *)

Section Rounding.
Local Open Scope Z_scope.

Lemma iter_pos_nat {A : Type} (f : A → A) (p : positive) (x : A) :
  SpecFloat.iter_pos f p x = Nat.iter (Pos.to_nat p) f x.
Proof.
  revert x. induction p as [p IH|p IH|]; intros x; cbn [SpecFloat.iter_pos].
  - rewrite !IH, Pos2Nat.inj_xI.
    change (f x) with (Nat.iter 1 f x). rewrite <- !Nat.iter_add.
    f_equal. lia.
  - rewrite !IH, Pos2Nat.inj_xO. rewrite <- !Nat.iter_add. f_equal. lia.
  - done.
Qed.

Lemma shr_1_spec (m : Z) (r s : bool) :
  0 <= m →
  shr_1 (Build_shr_record m r s) = Build_shr_record (m / 2) (Z.odd m) (r || s).
Proof.
  intros Hm. rewrite <- Z.div2_div.
  destruct m as [|[p|p|]|]; try done; lia.
Qed.

(** [k] right shifts of [m]: the quotient, and where the remainder lies. *)
Lemma shr_iter (m : Z) (k : nat) :
  0 <= m →
  ∃ q ρ (r s : bool),
    Nat.iter k shr_1 (Build_shr_record m false false) = Build_shr_record q r s ∧
    m = q * 2 ^ Z.of_nat k + ρ ∧ 0 <= ρ < 2 ^ Z.of_nat k ∧ 0 <= q ∧
    (r = true ↔ 2 ^ Z.of_nat k <= 2 * ρ) ∧
    (s = true ↔ ρ ≠ 0 ∧ 2 * ρ ≠ 2 ^ Z.of_nat k).
Proof.
  intros Hm. induction k as [|k (q & ρ & r & s & Hit & Hdec & Hρ & Hq & Hr & Hs)].
  - exists m, 0, false, false. simpl. split_and!; try done; try lia.
  - rewrite Nat2Z.inj_succ, Z.pow_succ_r by lia.
    set (P := 2 ^ Z.of_nat k) in *.
    assert (0 < P) by (apply pow2_pos; lia).
    simpl Nat.iter. rewrite Hit, shr_1_spec by done.
    pose proof (Z.div_mod q 2 ltac:(lia)) as Hq2.
    pose proof (Z.mod_pos_bound q 2 ltac:(lia)) as Hb.
    exists (q / 2), ((q mod 2) * P + ρ), (Z.odd q), (r || s).
    assert (Z.odd q = true ↔ q mod 2 = 1) as Hodd.
    { rewrite Zmod_odd. destruct (Z.odd q); split; done || lia. }
    assert (r || s = true ↔ ρ ≠ 0) as Hrs.
    { rewrite orb_true_iff, Hr, Hs. lia. }
    rewrite Hodd, Hrs. split; [done|].
    set (b := q mod 2) in *. set (h := q / 2) in *. clearbody b h.
    assert (b = 0 ∨ b = 1) as [-> | ->] by lia; lia.
Qed.

(** The quotient [m / 2^n] rounded to nearest, ties to even. *)
Definition round_shift (m n : Z) : Z :=
  let q := m / 2 ^ n in
  let ρ := m mod 2 ^ n in
  if 2 * ρ <? 2 ^ n then q
  else if 2 * ρ =? 2 ^ n then (if Z.even q then q else q + 1)
  else q + 1.

Lemma shr_round (m : Z) (p : positive) :
  0 <= m →
  let mrs := SpecFloat.iter_pos shr_1 p (Build_shr_record m false false) in
  round_nearest_even (shr_m mrs) (loc_of_shr_record mrs) = round_shift m (Zpos p).
Proof.
  intros Hm. cbv zeta. rewrite iter_pos_nat.
  destruct (shr_iter m (Pos.to_nat p) Hm)
    as (q & ρ & r & s & -> & Hdec & Hρ & Hq & Hr & Hs).
  rewrite positive_nat_Z in *. set (P := 2 ^ Zpos p) in *.
  assert (0 < P) by (apply pow2_pos; lia).
  unfold round_shift. fold P.
  assert (m / P = q) as ->.
  { symmetry. apply (Z.div_unique_pos m P q ρ); lia. }
  assert (m mod P = ρ) as ->.
  { symmetry. apply (Z.mod_unique_pos m P q ρ); lia. }
  cbn [shr_m loc_of_shr_record].
  destruct r, s; cbn [round_nearest_even].
  - rewrite (proj2 (Z.ltb_ge _ _)) by lia.
    rewrite (proj2 (Z.eqb_neq _ _)) by lia. done.
  - rewrite (proj2 (Z.ltb_ge _ _)) by lia.
    assert (2 * ρ = P) as Heq.
    { destruct (Z.eq_dec (2 * ρ) P); [done|].
      assert (false = true); [|done]. apply Hs. lia. }
    rewrite (proj2 (Z.eqb_eq _ _)) by done. done.
  - rewrite (proj2 (Z.ltb_lt _ _)); [done|].
    destruct (Z.lt_ge_cases (2 * ρ) P); [done|].
    assert (false = true); [|done]. apply Hr. lia.
  - rewrite (proj2 (Z.ltb_lt _ _)); [done|].
    destruct (Z.lt_ge_cases (2 * ρ) P); [done|].
    assert (false = true); [|done]. apply Hr. lia.
Qed.

Lemma round_shift_0 (m : Z) : round_shift m 0 = m.
Proof.
  unfold round_shift. change (2 ^ 0) with 1.
  rewrite Z.mod_1_r, Z.div_1_r. done.
Qed.
End Rounding.

(** *** Rounding is monotone *)

Section RoundValue.
Local Open Scope Z_scope.

Lemma round_shift_bounds (m n : Z) :
  m / 2 ^ n <= round_shift m n <= m / 2 ^ n + 1.
Proof.
  unfold round_shift.
  destruct (2 * (m mod 2 ^ n) <? 2 ^ n); [lia|].
  destruct (2 * (m mod 2 ^ n) =? 2 ^ n); [|lia].
  destruct (Z.even (m / 2 ^ n)); lia.
Qed.

Lemma round_shift_exact (m k : Z) : 0 <= k → round_shift (m * 2 ^ k) k = m.
Proof.
  intros Hk. unfold round_shift.
  assert (0 < 2 ^ k) by (by apply pow2_pos).
  rewrite Z.mod_mul, Z.div_mul by lia.
  rewrite (proj2 (Z.ltb_lt _ _)) by lia. done.
Qed.

Lemma round_shift_scale (m n j : Z) :
  0 <= n → 0 <= j → round_shift (m * 2 ^ j) (n + j) = round_shift m n.
Proof.
  intros Hn Hj. unfold round_shift.
  assert (0 < 2 ^ n) by (by apply pow2_pos).
  assert (0 < 2 ^ j) by (by apply pow2_pos).
  rewrite Z.pow_add_r by done.
  rewrite Z.div_mul_cancel_r by lia.
  rewrite Z.mul_mod_distr_r by lia.
  set (ρ := m mod 2 ^ n). set (P := 2 ^ n) in *. set (J := 2 ^ j) in *.
  assert ((2 * (ρ * J) <? P * J) = (2 * ρ <? P)) as ->.
  { destruct (Z.ltb_spec (2 * ρ) P); [apply Z.ltb_lt|apply Z.ltb_ge]; nia. }
  assert ((2 * (ρ * J) =? P * J) = (2 * ρ =? P)) as ->.
  { destruct (Z.eqb_spec (2 * ρ) P); [apply Z.eqb_eq|apply Z.eqb_neq]; nia. }
  done.
Qed.

Lemma round_shift_mono (n m m' : Z) :
  0 <= n → m <= m' → round_shift m n <= round_shift m' n.
Proof.
  intros Hn Hm.
  assert (0 < 2 ^ n) as HP by (by apply pow2_pos).
  pose proof (Z.div_mod m (2 ^ n) ltac:(lia)) as Hd.
  pose proof (Z.div_mod m' (2 ^ n) ltac:(lia)) as Hd'.
  pose proof (Z.mod_pos_bound m (2 ^ n) HP) as Hr.
  pose proof (Z.mod_pos_bound m' (2 ^ n) HP) as Hr'.
  assert (m / 2 ^ n <= m' / 2 ^ n) as Hq by (by apply Z.div_le_mono).
  unfold round_shift.
  set (P := 2 ^ n) in *. set (q := m / P) in *. set (q' := m' / P) in *.
  set (ρ := m mod P) in *. set (ρ' := m' mod P) in *.
  clearbody P q q' ρ ρ'.
  destruct (Z.eq_dec q q') as [<- | Hne].
  - assert (ρ <= ρ') by nia.
    destruct (Z.ltb_spec (2 * ρ) P), (Z.ltb_spec (2 * ρ') P); try lia.
    + destruct (Z.eqb_spec (2 * ρ') P); [|lia]. destruct (Z.even q); lia.
    + destruct (Z.eqb_spec (2 * ρ) P), (Z.eqb_spec (2 * ρ') P); try lia.
      destruct (Z.even q); lia.
  - destruct (2 * ρ <? P), (2 * ρ' <? P), (2 * ρ =? P), (2 * ρ' =? P),
      (Z.even q), (Z.even q'); lia.
Qed.

(** Rounding a positive integer to 53 significant bits. *)
Definition rne (V : Z) : Z :=
  let s := Z.max (Z.log2 V - 52) 0 in
  round_shift V s * 2 ^ s.

Lemma rne_canonical (m k : Z) :
  0 < m < 2 ^ 53 → 0 <= k → k = 0 ∨ 2 ^ 52 <= m → rne (m * 2 ^ k) = m * 2 ^ k.
Proof.
  intros Hm Hk Hc. unfold rne.
  assert (Z.log2 (m * 2 ^ k) = Z.log2 m + k) as ->.
  { rewrite Z.log2_mul_pow2 by lia. lia. }
  assert (Z.log2 m <= 52) as Hl.
  { apply Z.lt_succ_r. apply Z.log2_lt_pow2; lia. }
  assert (0 <= Z.log2 m) by apply Z.log2_nonneg.
  destruct Hc as [-> | Hc].
  - rewrite Z.add_0_r, Z.max_r by lia. rewrite round_shift_0.
    change (2 ^ 0) with 1. lia.
  - assert (52 <= Z.log2 m) by (by apply Z.log2_le_pow2; lia).
    replace (Z.max (Z.log2 m + k - 52) 0) with k by lia.
    by rewrite round_shift_exact.
Qed.

Lemma rne_mono (V V' : Z) : 0 < V <= V' → rne V <= rne V'.
Proof.
  intros HV. unfold rne.
  pose proof (Z.log2_le_mono V V' ltac:(lia)) as Hl.
  pose proof (Z.log2_nonneg V) as H0.
  pose proof (Z.log2_spec V ltac:(lia)) as [Hlo Hhi].
  pose proof (Z.log2_spec V' ltac:(lia)) as [Hlo' Hhi'].
  set (L := Z.log2 V) in *. set (L' := Z.log2 V') in *.
  set (s := Z.max (L - 52) 0). set (s' := Z.max (L' - 52) 0).
  assert (0 <= s <= s') as Hs by lia.
  assert (0 < 2 ^ s) as HP by (apply pow2_pos; lia).
  assert (0 < 2 ^ s') as HP' by (apply pow2_pos; lia).
  destruct (Z.eq_dec s s') as [<- | Hne].
  - apply Z.mul_le_mono_nonneg_r; [lia|]. apply round_shift_mono; lia.
  - assert (s' = L' - 52 ∧ L < L') as [Hs' HL] by lia.
    (* below [2 ^ (L + 1)] on the left, from [2 ^ L'] on the right *)
    apply Z.le_trans with (2 ^ (L + 1)).
    + pose proof (round_shift_bounds V s) as [_ Hub].
      assert (V / 2 ^ s + 1 <= 2 ^ (L + 1 - s)) as Hq.
      { assert (V / 2 ^ s < 2 ^ (L + 1 - s)); [|lia].
        apply Z.div_lt_upper_bound; [done|].
        rewrite <- Z.pow_add_r by lia. replace (s + (L + 1 - s)) with (Z.succ L) by lia.
        done. }
      replace (2 ^ (L + 1)) with (2 ^ (L + 1 - s) * 2 ^ s).
      * apply Z.mul_le_mono_nonneg_r; lia.
      * rewrite <- Z.pow_add_r by lia. f_equal. lia.
    + apply Z.le_trans with (2 ^ L'); [apply pow2_le; lia|].
      pose proof (round_shift_bounds V' s') as [Hlb _].
      assert (2 ^ 52 <= V' / 2 ^ s') as Hq.
      { apply Z.div_le_lower_bound; [done|].
        rewrite <- Z.pow_add_r by lia. replace (s' + 52) with L' by lia. done. }
      replace (2 ^ L') with (2 ^ 52 * 2 ^ s').
      * apply Z.mul_le_mono_nonneg_r; lia.
      * rewrite <- Z.pow_add_r by lia. f_equal. lia.
Qed.

(** Rounded sum of two scaled values: saturating at [val_top]. *)
Definition rsum (V : Z) : Z := if V <=? 0 then 0 else Z.min val_top (rne V).

Lemma rne_top : rne val_top = val_top.
Proof.
  unfold val_top. replace 2098 with (52 + 2046) by lia.
  rewrite Z.pow_add_r by lia. apply rne_canonical; [|lia|right; lia].
  split; [by apply pow2_pos|by apply pow2_lt].
Qed.

Lemma rne_pos (V : Z) : 0 < V → 0 < rne V.
Proof.
  intros HV. unfold rne.
  pose proof (Z.log2_nonneg V) as H0.
  pose proof (Z.log2_spec V ltac:(lia)) as [Hlo Hhi].
  set (L := Z.log2 V) in *. set (s := Z.max (L - 52) 0).
  assert (0 < 2 ^ s) as HP by (apply pow2_pos; lia).
  pose proof (round_shift_bounds V s) as [Hlb _].
  assert (1 <= V / 2 ^ s).
  { apply Z.div_le_lower_bound; [done|]. rewrite Z.mul_1_r.
    apply Z.le_trans with (2 ^ L); [apply pow2_le; lia|done]. }
  nia.
Qed.

Lemma rsum_mono (V V' : Z) : V <= V' → rsum V <= rsum V'.
Proof.
  intros HV. unfold rsum. pose proof top_pos.
  destruct (Z.leb_spec V 0), (Z.leb_spec V' 0); try lia.
  - pose proof (rne_pos V' ltac:(lia)). lia.
  - pose proof (rne_mono V V' ltac:(lia)). lia.
Qed.

Lemma rsum_top (V : Z) : val_top <= V → rsum V = val_top.
Proof.
  intros HV. unfold rsum. pose proof top_pos.
  rewrite (proj2 (Z.leb_gt _ _)) by lia.
  pose proof (rne_mono val_top V ltac:(lia)) as Hm. rewrite rne_top in Hm. lia.
Qed.
End RoundValue.

(** *** [binary_round] rounds the value *)

Section RoundFloat.
Local Open Scope Z_scope.

Lemma fexp_eq (x : Z) : fexp prec emax x = Z.max (x - 53) (-1074).
Proof. reflexivity. Qed.

Lemma log2_digits (m : positive) : Z.log2 (Zpos m) = Zpos (digits2_pos m) - 1.
Proof.
  pose proof (digits2_pos_bounds m) as [Hl Hu].
  apply Z.log2_unique; [lia|].
  replace (Z.succ (Zpos (digits2_pos m) - 1)) with (Zpos (digits2_pos m)) by lia. done.
Qed.

Lemma digits_small (m : positive) : Zpos m < 2 ^ 53 → Zpos (digits2_pos m) <= 53.
Proof.
  intros Hm. pose proof (digits2_pos_bounds m) as [Hl _].
  destruct (Z.le_gt_cases (Zpos (digits2_pos m)) 53) as [?|Hgt]; [done|].
  assert (2 ^ 53 <= 2 ^ (Zpos (digits2_pos m) - 1)) by (apply pow2_le; lia). lia.
Qed.

Lemma digits_large (m : positive) : 2 ^ 52 <= Zpos m → 53 <= Zpos (digits2_pos m).
Proof.
  intros Hm. pose proof (digits2_pos_bounds m) as [_ Hu].
  destruct (Z.le_gt_cases 53 (Zpos (digits2_pos m))) as [?|Hlt]; [done|].
  assert (2 ^ Zpos (digits2_pos m) <= 2 ^ 52) by (apply pow2_le; lia). lia.
Qed.

Lemma shr_nonpos mrs e n : n <= 0 → shr mrs e n = (mrs, e).
Proof. intros Hn. unfold shr. destruct n; [done|lia|done]. Qed.

(** The second normalisation step of [binary_round_aux], after rounding to
    [m2] at the exponent [f]. *)
Lemma renormalize (m2 : positive) (f : Z) :
  -1074 <= f → Zpos m2 <= 2 ^ 53 →
  ∃ m e2,
    shr_fexp prec emax (Zpos m2) f loc_Exact
    = (Build_shr_record (Zpos m) false false, e2) ∧
    Zpos m * 2 ^ (e2 + 1074) = Zpos m2 * 2 ^ (f + 1074) ∧
    Zpos m < 2 ^ 53 ∧ f <= e2 <= f + 1 ∧ (2 ^ 52 <= Zpos m2 → 2 ^ 52 <= Zpos m) ∧
    (e2 = f ∨ 2 ^ 52 <= Zpos m).
Proof.
  intros Hf Hm. unfold shr_fexp. cbn [Zdigits2 shr_record_of_loc].
  rewrite fexp_eq.
  destruct (Z.eq_dec (Zpos m2) (2 ^ 53)) as [Heq|Hne].
  - assert (m2 = 9007199254740992%positive) as -> by (by injection Heq).
    exists 4503599627370496%positive, (f + 1).
    replace (Z.max (Zpos (digits2_pos 9007199254740992) + f - 53) (-1074) - f)
      with 1 by (cbn [digits2_pos Pos.succ]; lia).
    split_and!; [done| |done|lia|lia|done|by right].
    replace (f + 1 + 1074) with (Z.succ (f + 1074)) by lia.
    rewrite Z.pow_succ_r by lia. lia.
  - exists m2, f. pose proof (digits_small m2 ltac:(lia)).
    rewrite shr_nonpos by lia.
    split_and!; [done|done|lia|lia|lia|done|by left].
Qed.

Lemma binary_round_value (M : positive) (e : Z) :
  -1074 <= e →
  e <= fexp prec emax (Zpos (digits2_pos M) + e) →
  let R := rne (Zpos M * 2 ^ (e + 1074)) in
  (binary_round prec emax false M e = S754_infinity false ∧ val_top <= R) ∨
  (∃ m e2, binary_round prec emax false M e = S754_finite false m e2 ∧
           Zpos m * 2 ^ (e2 + 1074) = R ∧ R < val_top ∧
           bounded prec emax m e2 = true).
Proof.
  intros He Hf. rewrite fexp_eq in Hf. cbv zeta.
  pose proof (digits2_pos_bounds M) as [HMl HMu].
  set (d := Zpos (digits2_pos M)) in *.
  set (f := Z.max (d + e - 53) (-1074)) in *.
  set (n := f - e).
  assert (0 <= n) as Hn by (unfold n; lia).
  assert (0 < 2 ^ n) as HPn by (by apply pow2_pos).
  (* the quotient kept by the first shift *)
  assert (1 <= Zpos M / 2 ^ n < 2 ^ 53 ∧
          (-1074 < f → 2 ^ 52 <= Zpos M / 2 ^ n)) as (Hq & Hqn).
  { destruct (Z.le_gt_cases (d + e - 53) (-1074)) as [Hsub|Hnorm].
    - assert (n = 0) as -> by (unfold n, f; lia).
      change (2 ^ 0) with 1. rewrite Z.div_1_r.
      assert (2 ^ d <= 2 ^ 53) by (apply pow2_le; lia).
      split; [lia|]. unfold f. lia.
    - assert (n = d - 53) as Hnd by (unfold n, f; lia).
      assert (2 ^ 52 <= Zpos M / 2 ^ n).
      { apply Z.div_le_lower_bound; [done|].
        rewrite <- Z.pow_add_r by lia. replace (n + 52) with (d - 1) by lia. done. }
      assert (Zpos M / 2 ^ n < 2 ^ 53).
      { apply Z.div_lt_upper_bound; [done|].
        rewrite <- Z.pow_add_r by lia. replace (n + 53) with d by lia. done. }
      split; [|done]. split; [|done].
      apply Z.le_trans with (2 ^ 52); done. }
  (* the first shift and the rounding *)
  assert (∃ mrs, shr_fexp prec emax (Zpos M) e loc_Exact = (mrs, f) ∧
            round_nearest_even (shr_m mrs) (loc_of_shr_record mrs)
            = round_shift (Zpos M) n) as (mrs & Hshr & Hround).
  { unfold shr_fexp. cbn [Zdigits2 shr_record_of_loc]. rewrite fexp_eq.
    fold d. fold f. fold n. unfold shr.
    destruct n as [|p|p] eqn:Hnp; [| |lia].
    - eexists. split; [f_equal; unfold n in Hnp; lia|].
      by rewrite round_shift_0.
    - eexists. split; [f_equal; unfold n in Hnp; lia|].
      by apply shr_round. }
  pose proof (round_shift_bounds (Zpos M) n) as Hb.
  set (q := Zpos M / 2 ^ n) in *. clearbody q.
  destruct (round_shift (Zpos M) n) as [|m2|m2] eqn:HM2; [lia| |lia].
  destruct (renormalize m2 f)
    as (m & e2 & Hre & Hval & Hm & He2 & Hmn & Hcase); [lia|lia|].
  (* the rounded value *)
  assert (rne (Zpos M * 2 ^ (e + 1074)) = Zpos m2 * 2 ^ (f + 1074)) as HR.
  { unfold rne. rewrite Z.log2_mul_pow2, log2_digits by lia. fold d.
    replace (Z.max (e + 1074 + (d - 1) - 52) 0) with (n + (e + 1074))
      by (unfold n, f; lia).
    rewrite round_shift_scale by lia. rewrite HM2.
    f_equal. f_equal. unfold n. lia. }
  rewrite HR.
  unfold binary_round, shl_align. rewrite fexp_eq. fold d. fold f.
  replace (f - e) with n by done.
  assert (match n with
          | Z.neg d0 => (Pos.iter xO M d0, f)
          | _ => (M, e)
          end = (M, e)) as -> by (destruct n; [done|done|lia]).
  unfold binary_round_aux. rewrite Hshr, Hround, Hre.
  cbn [shr_m].
  destruct (Z.leb_spec e2 (emax - prec)) as [Hle|Hgt].
  - right. exists m, e2. change (emax - prec) with 971 in Hle.
    split_and!; [done|done| |].
    + rewrite <- Hval. unfold val_top. replace 2098 with (53 + 2045) by lia.
      rewrite (Z.pow_add_r 2 53 2045) by lia.
      apply mul_lt_le; [lia|].
      split; [apply pow2_pos; lia|apply pow2_le]. lia.
    + apply bounded_spec. pose proof (digits_small m Hm) as Hds.
      assert (-1074 <= f) as Hf1074 by (unfold f; lia).
      split_and!; [lia|lia|done|].
      assert (2 ^ 52 <= Zpos m → Zpos (digits2_pos m) = 53) as Hd53.
      { intros Hm52. pose proof (digits_large m Hm52). lia. }
      destruct (Z.eq_dec e2 (-1074)) as [?|Hne]; [by left|right].
      apply Hd53. destruct Hcase as [->|?]; [|done].
      apply Hmn. assert (2 ^ 52 <= q) as Hq52; [|clear -Hq52 Hb; lia].
      apply Hqn. clear -Hne Hf1074. lia.
  - left. split; [done|]. rewrite <- Hval.
    change (emax - prec) with 971 in Hgt.
    assert (2 ^ 52 <= Zpos m).
    { apply Hmn. assert (2 ^ 52 <= q) as Hq52; [|clear -Hq52 Hb; lia].
      apply Hqn. clear -He2 Hgt. lia. }
    unfold val_top. replace 2098 with (52 + 2046) by lia.
    rewrite (Z.pow_add_r 2 52 2046) by lia.
    apply Z.mul_le_mono_nonneg; [by apply Z.lt_le_incl, pow2_pos|done|
                                 by apply Z.lt_le_incl, pow2_pos|].
    apply pow2_le. lia.
Qed.
End RoundFloat.

(** *** The sum of two floats *)

Section AddFloat.
Local Open Scope Z_scope.

Lemma shl_align_value (mx : positive) (ex ez : Z) :
  ez <= ex → Zpos (fst (shl_align mx ex ez)) = Zpos mx * 2 ^ (ex - ez).
Proof.
  intros He. unfold shl_align.
  destruct (ez - ex) as [|p|p] eqn:Hd; [|lia|].
  - replace (ex - ez) with 0 by lia. simpl. lia.
  - replace (ex - ez) with (Zpos p) by lia. cbn [fst].
    change (Pos.iter xO mx p) with (shift_pos p mx).
    rewrite shift_pos_correct. rewrite Zpower_pos_nat, Zpower_nat_Z, positive_nat_Z.
    lia.
Qed.

Lemma rsum_canonical s m e :
  bounded prec emax m e = true →
  rsum (sval (S754_finite s m e)) = sval (S754_finite s m e).
Proof.
  intros Hb. pose proof (sval_finite_bounds s m e Hb) as [Hpos Htop].
  apply bounded_spec in Hb as (He & Hd & Hc). cbn [sval] in *.
  pose proof (digits2_pos_bounds m) as [Hl Hu].
  unfold rsum. rewrite (proj2 (Z.leb_gt _ _)) by done.
  rewrite rne_canonical; [lia| |lia|].
  - split; [lia|]. eapply Z.lt_le_trans; [done|]. apply pow2_le. lia.
  - destruct Hc as [->|Hc]; [by left|right]. by rewrite Hc in Hl.
Qed.

(** A float that is neither NaN nor negative. *)
Definition sshape (x : spec_float) : bool :=
  match x with
  | S754_zero _ => true
  | S754_infinity s => negb s
  | S754_finite s _ _ => negb s
  | S754_nan => false
  end.

Lemma sgood_shape x : sgood x = (sshape x && valid_binary x).
Proof. destruct x as [?|[|]| |[|] ? ?]; simpl; by rewrite ?andb_true_r. Qed.

Lemma SFadd_value (x y : spec_float) :
  sgood x = true → sgood y = true →
  sshape (SFadd prec emax x y) = true ∧
  sval (SFadd prec emax x y) = rsum (sval x + sval y).
Proof.
  pose proof top_pos as Htop.
  destruct x as [sx|[|]| |[|] mx ex], y as [sy|[|]| |[|] my ey];
    cbn [sgood negb andb]; try (intros; discriminate); intros Hx Hy.
  - (* 0 + 0 *) by destruct sx, sy.
  - (* 0 + inf *) cbn [SFadd sval sshape negb]. by rewrite rsum_top by lia.
  - (* 0 + y *) cbn [SFadd sshape negb]. split; [done|].
    change (sval (S754_zero sx)) with 0. by rewrite Z.add_0_l, rsum_canonical.
  - (* inf + 0 *) cbn [SFadd sval sshape negb]. by rewrite rsum_top by lia.
  - (* inf + inf *) cbn [SFadd sval sshape negb]. by rewrite rsum_top by lia.
  - (* inf + y *) cbn [SFadd sshape negb]. split; [done|].
    pose proof (sval_finite_bounds false my ey Hy).
    change (sval (S754_infinity false)) with val_top. by rewrite rsum_top by lia.
  - (* x + 0 *) cbn [SFadd sshape negb]. split; [done|].
    change (sval (S754_zero sy)) with 0. by rewrite Z.add_0_r, rsum_canonical.
  - (* x + inf *) cbn [SFadd sshape negb]. split; [done|].
    pose proof (sval_finite_bounds false mx ex Hx).
    change (sval (S754_infinity false)) with val_top. by rewrite rsum_top by lia.
  - (* x + y, both finite *)
    pose proof (sval_finite_bounds false mx ex Hx) as Hvx.
    pose proof (sval_finite_bounds false my ey Hy) as Hvy.
    pose proof Hx as (Hex & Hdx & Hcx)%bounded_spec.
    pose proof Hy as (Hey & Hdy & Hcy)%bounded_spec.
    cbn [SFadd cond_Zopp sval] in *.
    set (ez := Z.min ex ey).
    pose proof (shl_align_value mx ex ez ltac:(lia)) as Ha.
    pose proof (shl_align_value my ey ez ltac:(lia)) as Hb.
    set (a := fst (shl_align mx ex ez)) in *.
    set (b := fst (shl_align my ey ez)) in *.
    change (Zpos a + Zpos b) with (Zpos (a + b)).
    cbn [binary_normalize].
    assert (Zpos (a + b) * 2 ^ (ez + 1074)
            = Zpos mx * 2 ^ (ex + 1074) + Zpos my * 2 ^ (ey + 1074)) as HV.
    { rewrite Pos2Z.inj_add, Ha, Hb, Z.mul_add_distr_r.
      rewrite <- !Z.mul_assoc, <- !Z.pow_add_r by lia.
      f_equal; f_equal; f_equal; lia. }
    destruct (binary_round_value (a + b) ez) as [[-> HR]|(m & e2 & -> & Hval & HR & _)].
    + lia.
    + (* no left shift is needed: the sum has at least the digits of [x] *)
      rewrite fexp_eq.
      assert (Zpos (digits2_pos mx) + ex <= Zpos (digits2_pos (a + b)) + ez);
        [|lia].
      pose proof (log2_digits mx) as Hlx. pose proof (log2_digits (a + b)) as Hlab.
      assert (Z.log2 (Zpos a) = Z.log2 (Zpos mx) + (ex - ez)) as Hla.
      { rewrite Ha, Z.log2_mul_pow2 by lia. lia. }
      assert (Z.log2 (Zpos a) <= Z.log2 (Zpos (a + b))) by (apply Z.log2_le_mono; lia).
      lia.
    + rewrite HV in HR. cbn [sshape sval negb]. split; [done|].
      unfold rsum. rewrite (proj2 (Z.leb_gt _ _)) by lia. lia.
    + rewrite HV in HR, Hval. cbn [sshape sval negb]. split; [done|].
      unfold rsum. rewrite (proj2 (Z.leb_gt _ _)) by lia. lia.
Qed.
End AddFloat.

(** ** Binary64 values that are neither NaN nor negative *)

Section GoodFloats.
Local Open Scope Z_scope.

Definition fgood (a : float) : bool := sgood (Prim2SF a).
Definition fval (a : float) : Z := sval (Prim2SF a).

Lemma float_ltb_val (a b : float) :
  fgood a = true → fgood b = true → (a <? b)%float = (fval a <? fval b).
Proof. intros Ha Hb. rewrite FloatAxioms.ltb_spec. by apply SFltb_sval. Qed.

Lemma float_leb_val (a b : float) :
  fgood a = true → fgood b = true → (a <=? b)%float = (fval a <=? fval b).
Proof. intros Ha Hb. rewrite FloatAxioms.leb_spec. by apply SFleb_sval. Qed.

Lemma float_eqb_val (a b : float) :
  fgood a = true → fgood b = true → (a =? b)%float = (fval a =? fval b).
Proof. intros Ha Hb. rewrite FloatAxioms.eqb_spec. by apply SFeqb_sval. Qed.

Lemma float_add_val (a b : float) :
  fgood a = true → fgood b = true →
  fgood (a + b) = true ∧ fval (a + b) = rsum (fval a + fval b).
Proof.
  intros Ha Hb. unfold fgood, fval. rewrite FloatAxioms.add_spec.
  destruct (SFadd_value _ _ Ha Hb) as [Hs Hv]. split; [|done].
  rewrite sgood_shape. unfold SF64add. rewrite Hs.
  change (SFadd prec emax (Prim2SF a) (Prim2SF b)) with (SF64add (Prim2SF a) (Prim2SF b)).
  rewrite <- FloatAxioms.add_spec. apply Prim2SF_valid.
Qed.

Lemma fval_range (a : float) : fgood a = true → 0 <= fval a <= val_top.
Proof.
  unfold fgood, fval. pose proof top_pos.
  destruct (Prim2SF a) as [?|[|]| |[|] m e]; cbn [sgood negb andb sval]; try done; try lia.
  intros Hb. pose proof (sval_finite_bounds false m e Hb). cbn [sval] in *. lia.
Qed.

Lemma rsum_fval (a : float) : fgood a = true → rsum (fval a) = fval a.
Proof.
  unfold fgood, fval. pose proof top_pos.
  destruct (Prim2SF a) as [?|[|]| |[|] m e]; cbn [sgood negb andb];
    try (intros; discriminate).
  - done.
  - intros _. by apply rsum_top.
  - by apply rsum_canonical.
Qed.

Lemma fgood_zero : fgood 0%float = true.
Proof. reflexivity. Qed.

Lemma fgood_inf : fgood infinity = true.
Proof. reflexivity. Qed.

Lemma fval_zero : fval 0%float = 0.
Proof. reflexivity. Qed.

Lemma fval_inf : fval infinity = val_top.
Proof. reflexivity. Qed.

(** A float above zero is neither NaN nor negative. *)
Lemma float_pos_good (w : float) : (0 <? w)%float = true → fgood w = true.
Proof.
  rewrite FloatAxioms.ltb_spec. unfold fgood. change (Prim2SF 0) with (S754_zero false).
  pose proof (Prim2SF_valid w) as Hv.
  destruct (Prim2SF w) as [?|[|]| |[|] m e]; cbn in *; try done.
Qed.
End GoodFloats.

(** *** Conversion of an integer, and its inverse *)

Section DivFloat.
Local Open Scope Z_scope.

Lemma digits_exact (m : positive) (d : Z) :
  2 ^ (d - 1) <= Zpos m < 2 ^ d → 0 < d → Zpos (digits2_pos m) = d.
Proof.
  intros [Hl Hu] Hd. pose proof (digits2_pos_bounds m) as [Hl' Hu'].
  set (D := Zpos (digits2_pos m)) in *.
  assert (0 < D) by (unfold D; lia).
  destruct (Z.lt_trichotomy D d) as [Hlt|[?|Hgt]]; [|done|].
  - assert (2 ^ D <= 2 ^ (d - 1)) by (apply pow2_le; lia). lia.
  - assert (2 ^ d <= 2 ^ (D - 1)) by (apply pow2_le; lia). lia.
Qed.

(** Without a left shift, [binary_round] is [binary_round_aux]. *)
Lemma binary_round_start (M : positive) (e : Z) :
  e <= fexp prec emax (Zpos (digits2_pos M) + e) →
  binary_round prec emax false M e
  = binary_round_aux prec emax false (Zpos M) e loc_Exact.
Proof.
  intros He. unfold binary_round, shl_align.
  destruct (fexp prec emax (Zpos (digits2_pos M) + e) - e) eqn:Hd; [done|done|lia].
Qed.

(** Conversion of a positive integer: its value is rounded to 53 bits. *)
Lemma int_round_value (M : positive) :
  let R := rne (Zpos M * 2 ^ 1074) in
  (binary_round prec emax false M 0 = S754_infinity false ∧ val_top <= R) ∨
  (∃ m e2, binary_round prec emax false M 0 = S754_finite false m e2 ∧
           Zpos m * 2 ^ (e2 + 1074) = R ∧ R < val_top ∧
           bounded prec emax m e2 = true).
Proof.
  cbv zeta. pose proof (digits2_pos_bounds M) as [Hl Hu].
  set (d := Zpos (digits2_pos M)) in *.
  assert (0 < d) as Hd by (unfold d; lia).
  destruct (Z.le_gt_cases 53 d) as [Hbig|Hsmall].
  - pose proof (binary_round_value M 0) as Hv. cbv zeta in Hv.
    change (0 + 1074) with 1074 in Hv. apply Hv; [lia|].
    rewrite fexp_eq. fold d. lia.
  - (* the integer is shifted left to 53 bits *)
    assert (∃ M', shl_align M 0 (d - 53) = (M', d - 53) ∧
                  Zpos M' = Zpos M * 2 ^ (53 - d)) as (M' & Hshl & HM').
    { pose proof (shl_align_value M 0 (d - 53)) as Hval.
      replace (0 - (d - 53)) with (53 - d) in Hval by lia.
      unfold shl_align in *.
      destruct (d - 53 - 0) as [|p|p] eqn:Hp; [lia|lia|].
      eexists. split; [done|]. apply Hval. lia. }
    assert (Zpos (digits2_pos M') = 53) as HdM'.
    { apply digits_exact; [|lia]. rewrite HM'. split.
      - replace (53 - 1) with ((d - 1) + (53 - d)) by lia.
        rewrite Z.pow_add_r by lia.
        apply Z.mul_le_mono_nonneg_r; [apply Z.lt_le_incl, pow2_pos; lia|done].
      - replace 53 with (d + (53 - d)) at 2 by lia.
        rewrite Z.pow_add_r by lia.
        apply Z.mul_lt_mono_pos_r; [apply pow2_pos; lia|done]. }
    assert (binary_round prec emax false M 0
            = binary_round prec emax false M' (d - 53)) as ->.
    { rewrite (binary_round_start M' (d - 53)).
      - unfold binary_round. rewrite fexp_eq. fold d.
        replace (Z.max (d + 0 - 53) (-1074)) with (d - 53) by lia.
        by rewrite Hshl.
      - rewrite fexp_eq, HdM'. lia. }
    pose proof (binary_round_value M' (d - 53)) as Hv. cbv zeta in Hv.
    replace (Zpos M' * 2 ^ (d - 53 + 1074)) with (Zpos M * 2 ^ 1074) in Hv.
    + apply Hv; [lia|]. rewrite fexp_eq, HdM'. lia.
    + rewrite HM', <- Z.mul_assoc, <- Z.pow_add_r by lia. f_equal. f_equal. lia.
Qed.

(** A finite float that is at least 1. *)
Definition ge_one (x : spec_float) : Prop :=
  ∃ m e, x = S754_finite false m e ∧ bounded prec emax m e = true ∧
         2 ^ 52 <= Zpos m ∧ -52 <= e.

Lemma int_round_ge_one (c : Z) :
  1 <= c < 2 ^ 1024 - 2 ^ 970 → ge_one (binary_normalize prec emax c 0 false).
Proof.
  intros [Hc1 Hc2]. destruct c as [|M|M]; [lia| |lia].
  unfold binary_normalize.
  assert (2 ^ 1074 <= rne (Zpos M * 2 ^ 1074) < val_top) as [HR1 HR2].
  { split.
    - assert (rne (1 * 2 ^ 1074) = 2 ^ 1074) as Hone by (vm_compute; reflexivity).
      rewrite <- Hone at 1.
      apply rne_mono. split; [apply Z.mul_pos_pos; [lia|apply pow2_pos; lia]|].
      apply Z.mul_le_mono_nonneg_r; [apply Z.lt_le_incl, pow2_pos; lia|lia].
    - apply Z.le_lt_trans with (rne ((2 ^ 1024 - 2 ^ 970 - 1) * 2 ^ 1074));
        [|vm_compute; reflexivity].
      apply rne_mono. split.
      + apply Z.mul_pos_pos; [lia|apply pow2_pos; lia].
      + apply Z.mul_le_mono_nonneg_r; [apply Z.lt_le_incl, pow2_pos; lia|lia]. }
  destruct (int_round_value M) as [[_ Htop]|(m & e & -> & Hval & _ & Hb)]; [lia|].
  exists m, e. split; [done|]. split; [done|].
  pose proof Hb as (He & Hd & Hcase)%bounded_spec.
  pose proof (digits2_pos_bounds m) as [Hl Hu].
  set (D := Zpos (digits2_pos m)) in *.
  rewrite <- Hval in HR1.
  assert (Zpos m < 2 ^ 53) as Hm53.
  { eapply Z.lt_le_trans; [done|]. apply pow2_le. lia. }
  (* the value is below [2^(53 + e + 1074)] *)
  assert (-52 <= e) as He52.
  { destruct (Z.le_gt_cases (-52) e) as [?|Hlt]; [done|].
    assert (Zpos m * 2 ^ (e + 1074) < 2 ^ 53 * 2 ^ (e + 1074)) as Hlt'.
    { apply Z.mul_lt_mono_pos_r; [apply pow2_pos; lia|done]. }
    rewrite <- Z.pow_add_r in Hlt' by lia.
    assert (2 ^ (53 + (e + 1074)) <= 2 ^ 1074) by (apply pow2_le; lia). lia. }
  split; [|done]. destruct Hcase as [->|HD]; [lia|].
  rewrite HD in Hl. exact Hl.
Qed.
Lemma round_nearest_even_range (m : Z) (l : location) :
  m <= round_nearest_even m l <= m + 1.
Proof.
  unfold round_nearest_even. destruct l as [|[| |]]; try lia.
  destruct (Z.even m); lia.
Qed.

Lemma shr_record_of_loc_m (m : Z) (l : location) :
  shr_m (shr_record_of_loc m l) = m.
Proof. by destruct l as [|[| |]]. Qed.

Lemma digits_le (m : positive) (k : Z) :
  0 <= k → Zpos m < 2 ^ k → Zpos (digits2_pos m) <= k.
Proof.
  intros Hk Hm. pose proof (digits2_pos_bounds m) as [Hl _].
  destruct (Z.le_gt_cases (Zpos (digits2_pos m)) k) as [?|Hgt]; [done|].
  assert (2 ^ k <= 2 ^ (Zpos (digits2_pos m) - 1)) by (apply pow2_le; lia). lia.
Qed.

(** [1.0 / y] for a finite [y >= 1]: the quotient is a finite float above 0
    and at most 1. *)
Lemma SFdiv_one (m : positive) (e : Z) :
  bounded prec emax m e = true → 2 ^ 52 <= Zpos m → -52 <= e →
  ∃ m' e',
    SFdiv prec emax (S754_finite false 4503599627370496 (-52))
          (S754_finite false m e)
    = S754_finite false m' e' ∧
    0 < Zpos m' * 2 ^ (e' + 1074) <= 2 ^ 1074.
Proof.
  intros Hb Hm He.
  apply bounded_spec in Hb as (Her & Hd & _).
  pose proof (digits_large m Hm) as HD.
  assert (Zpos (digits2_pos m) = 53) as HD53 by lia.
  pose proof (digits2_pos_bounds m) as [_ Hu]. rewrite HD53 in Hu.
  assert (rne (2 ^ 1074) = 2 ^ 1074) as Hone by (vm_compute; reflexivity).
  assert (2 ^ 1074 < val_top) as Hone_top by (vm_compute; reflexivity).
  unfold SFdiv, SFdiv_core_binary. cbn [Zdigits2 xorb].
  change (Zpos (digits2_pos 4503599627370496)) with 53.
  change (Zpos 4503599627370496) with (2 ^ 52).
  rewrite HD53, fexp_eq.
  remember (Z.min (Z.max (53 + -52 - (53 + e) - 53) (-1074)) (-52 - e))
    as e1 eqn:He1.
  remember (-52 - e - e1) as s eqn:Hs.
  assert (51 <= s <= 53) as Hs' by lia.
  assert (-1074 <= e1 <= -53) as He1' by lia.
  assert (2 ^ s * 2 ^ (e1 + 1074) <= 2 ^ 1074) as Hscale.
  { rewrite <- Z.pow_add_r by lia. apply pow2_le. lia. }
  assert (0 < 2 ^ (e1 + 1074)) as Hpe by (apply pow2_pos; lia).
  destruct s as [|p|p]; [lia| |lia].
  rewrite Z.shiftl_mul_pow2 by lia.
  assert (2 ^ 51 <= 2 ^ Zpos p <= 2 ^ 53) as HP.
  { split; apply pow2_le; lia. }
  set (P := 2 ^ Zpos p) in *.
  pose proof (Z_div_mod (2 ^ 52 * P) (Zpos m) ltac:(lia)) as Hdiv.
  destruct (Z.div_eucl (2 ^ 52 * P) (Zpos m)) as [q r].
  destruct Hdiv as [Hqr Hr].
  assert (0 < q <= P ∧ (q = P → r = 0)) as (Hq & HqP).
  { assert (2 ^ 52 = 4503599627370496) as E52 by reflexivity.
    assert (2 ^ 53 = 9007199254740992) as E53 by reflexivity.
    assert (2 ^ 51 = 2251799813685248) as E51 by reflexivity.
    rewrite E52, E53, E51 in *. clear -Hqr Hr Hm Hu HP. nia. }
  destruct q as [|Q|Q]; [lia| |lia].
  destruct (Z.eq_dec (Zpos Q) P) as [HQP|HQP].
  - (* [y] is a power of two: the quotient is exact *)
    rewrite (HqP HQP).
    assert (new_location (Zpos m) 0 = loc_Exact) as ->.
    { unfold new_location, new_location_even, new_location_odd.
      by destruct (Z.even (Zpos m)). }
    assert (Zpos (digits2_pos Q) = Zpos p + 1) as HdQ.
    { apply digits_exact; [|lia]. rewrite HQP. unfold P.
      replace (Zpos p + 1 - 1) with (Zpos p) by lia. split; [lia|].
      apply pow2_lt. lia. }
    rewrite <- binary_round_start by (rewrite fexp_eq, HdQ; lia).
    assert (rne (Zpos Q * 2 ^ (e1 + 1074)) <= 2 ^ 1074) as HR.
    { rewrite <- Hone. apply rne_mono. rewrite HQP. split; [|done].
      apply Z.mul_pos_pos; [lia|done]. }
    assert (0 < rne (Zpos Q * 2 ^ (e1 + 1074))) as HR0.
    { apply rne_pos. apply Z.mul_pos_pos; [lia|done]. }
    destruct (binary_round_value Q e1)
      as [[_ Htop]|(m' & e2 & -> & Hval & _ & _)]; [lia|..].
    + rewrite fexp_eq, HdQ. lia.
    + cbv zeta in Htop. lia.
    + exists m', e2. split; [done|]. rewrite Hval. lia.
  - assert (Zpos Q < P) as HQlt by lia.
    pose proof (digits_le Q (Zpos p) ltac:(lia) HQlt) as HdQ.
    unfold binary_round_aux. unfold shr_fexp at 1. cbn [Zdigits2].
    rewrite fexp_eq, shr_nonpos by lia.
    rewrite shr_record_of_loc_m.
    pose proof (round_nearest_even_range (Zpos Q)
                  (loc_of_shr_record
                     (shr_record_of_loc (Zpos Q) (new_location (Zpos m) r))))
      as Hrange.
    destruct (round_nearest_even _ _) as [|m2|m2]; [lia| |lia].
    destruct (renormalize m2 e1) as (m' & e2 & Hre & Hval & _ & He2 & _);
      [lia|lia|].
    rewrite Hre. cbn [shr_m].
    change (emax - prec) with 971.
    assert ((e2 <=? 971) = true) as -> by (apply Z.leb_le; lia).
    exists m', e2. split; [done|]. rewrite Hval. split.
    + apply Z.mul_pos_pos; [lia|done].
    + apply Z.le_trans with (P * 2 ^ (e1 + 1074)); [|done].
      apply Z.mul_le_mono_nonneg_r; lia.
Qed.
End DivFloat.

(** ** The weight of a link: [1.0 / float(speed)] *)

Section LinkWeight.
Local Open Scope Z_scope.

Lemma float_inverse (c : Z) :
  1 <= c < 2 ^ 1024 - 2 ^ 970 →
  let w := (1 / SF2Prim (binary_normalize prec emax c 0 false))%float in
  (0 <? w)%float = true ∧ (w <=? 1)%float = true ∧
  (w <? infinity)%float = true.
Proof.
  intros Hc. cbv zeta.
  destruct (int_round_ge_one c Hc) as (m & e & Hy & Hb & Hm & He).
  set (y := SF2Prim (binary_normalize prec emax c 0 false)).
  assert (Prim2SF y = S754_finite false m e) as HPy.
  { unfold y. rewrite Hy. by apply Prim2SF_SF2Prim. }
  destruct (SFdiv_one m e Hb Hm He) as (m' & e' & Hdiv & Hpos & Hle).
  assert (Prim2SF (1 / y) = S754_finite false m' e') as HPw.
  { rewrite FloatAxioms.div_spec, HPy. exact Hdiv. }
  assert (fgood (1 / y) = true) as Hg.
  { unfold fgood. rewrite sgood_shape, Prim2SF_valid, HPw. done. }
  assert (fval (1 / y) = Zpos m' * 2 ^ (e' + 1074)) as Hv.
  { unfold fval. by rewrite HPw. }
  assert (fval 1%float = 2 ^ 1074) as Hv1 by (vm_compute; reflexivity).
  assert (fgood 1%float = true) as Hg1 by reflexivity.
  assert (2 ^ 1074 < val_top) as Hone_top by (vm_compute; reflexivity).
  rewrite !float_ltb_val, float_leb_val by (done || apply fgood_zero || apply fgood_inf).
  rewrite fval_zero, fval_inf, Hv, Hv1.
  rewrite !Z.ltb_lt, Z.leb_le. lia.
Qed.
End LinkWeight.

(** ** Binary64 on the values of a run

    A run of [dijkstra_from_source] on positive weights only meets floats
    that are neither NaN nor negative.  [good_arith] is binary64 with every
    other operand read as 0: it obeys [ArithLaws] on all floats, and it
    computes what [float_arith] computes on the floats of such a run. *)

Definition nrm (a : float) : float := if fgood a then a else 0%float.

Definition good_arith : Arith float := {|
  w_zero := 0%float;
  w_one := 1%float;
  w_inf := infinity;
  w_add := λ a b, (nrm a + nrm b)%float;
  w_div := PrimFloat.div;
  w_ltb := λ a b, (nrm a <? nrm b)%float;
  w_eqb := λ a b, (nrm a =? nrm b)%float;
  w_of_int := float_of_Z
|}.

Section GoodArith.

Lemma nrm_good (a : float) : fgood (nrm a) = true.
Proof. unfold nrm. destruct (fgood a) eqn:Ha; [done|apply fgood_zero]. Qed.

Lemma nrm_id (a : float) : fgood a = true → nrm a = a.
Proof. unfold nrm. by intros ->. Qed.

Lemma good_ltb (a b : float) :
  @w_ltb _ good_arith a b = (fval (nrm a) <? fval (nrm b))%Z.
Proof. apply float_ltb_val; apply nrm_good. Qed.

Lemma good_le (a b : float) :
  @w_le _ good_arith a b ↔ (fval (nrm a) <= fval (nrm b))%Z.
Proof. unfold w_le. rewrite good_ltb. apply Z.ltb_ge. Qed.

Lemma good_add (a b : float) :
  fval (nrm (@w_add _ good_arith a b)) = rsum (fval (nrm a) + fval (nrm b)).
Proof.
  destruct (float_add_val (nrm a) (nrm b)) as [Hg Hv]; try apply nrm_good.
  cbn [w_add good_arith]. by rewrite nrm_id.
Qed.

Lemma binary64_laws : @ArithLaws float good_arith.
Proof.
  split.
  - intros a. rewrite good_ltb. apply Z.ltb_irrefl.
  - intros a b c. rewrite !good_ltb, !Z.ltb_lt. lia.
  - intros a b c. rewrite !good_le. lia.
  - intros a b w. rewrite !good_le, !good_add. intros Hab.
    apply rsum_mono. lia.
  - intros a w. rewrite !good_le, good_add.
    cbn [w_zero good_arith]. rewrite (nrm_id 0) by apply fgood_zero.
    rewrite fval_zero. intros Hw.
    rewrite <- (rsum_fval (nrm a)) at 1 by apply nrm_good.
    apply rsum_mono. lia.
  - intros a. rewrite good_le. cbn [w_inf good_arith].
    rewrite (nrm_id infinity) by apply fgood_inf. rewrite fval_inf.
    apply fval_range, nrm_good.
  - intros a b. cbn [w_eqb good_arith].
    rewrite float_eqb_val by apply nrm_good. intros Heq%Z.eqb_eq.
    rewrite !good_ltb, !Z.ltb_ge. lia.
Qed.

(** [a <= b] as the algorithms test it is [<=] of binary64 on such values. *)
Lemma float_le_leb (a b : float) :
  fgood a = true → fgood b = true → w_le a b → (a <=? b)%float = true.
Proof.
  intros Ha Hb. unfold w_le. cbn [w_ltb float_arith].
  rewrite float_ltb_val, float_leb_val by done.
  rewrite Z.ltb_ge, Z.leb_le. done.
Qed.

Lemma float_inf_least (d : float) :
  fgood d = true → (infinity <=? d)%float = true → d = infinity.
Proof.
  intros Hd. rewrite float_leb_val by (done || apply fgood_inf).
  rewrite fval_inf, Z.leb_le. revert Hd. unfold fgood, fval.
  destruct (Prim2SF d) as [?|[|]| |[|] m e] eqn:Hp;
    cbn [sgood negb andb sval]; try (intros; discriminate).
  - pose proof top_pos. lia.
  - intros _ _. by rewrite <- (SF2Prim_Prim2SF d), Hp.
  - intros Hb. pose proof (sval_finite_bounds false m e Hb) as Hlt.
    cbn [sval] in Hlt. lia.
Qed.
End GoodArith.

(** ** The run in binary64 *)

Section RunBinary64.
Variable G : Graph float.
Hypothesis Hwf : wf_graph G.
Hypothesis Hpos : positive_weights G.

Definition good_item (x : float * string) : Prop := fgood x.1 = true.

Definition good_state (s : @dijkstra_state float) : Prop :=
  map_Forall (λ _ d, fgood d = true) s.1 ∧ Forall good_item s.2.

Lemma weight_good (data : EdgeData float) :
  data ∈ g_data G → fgood (default 1%float (weight data)) = true.
Proof. intros [Hlt _]%Hpos. by apply float_pos_good. Qed.

Lemma wedge_good u v w : wedge G u v w → fgood w = true.
Proof. intros (data & Hd & ->)%wedge_data. by apply weight_good. Qed.

Lemma good_positive : @positive_weights float good_arith G.
Proof.
  intros data Hd. pose proof (weight_good data Hd) as Hg.
  destruct (Hpos data Hd) as [Hlt Hfin].
  cbn [w_ltb w_zero w_one w_inf good_arith].
  rewrite (nrm_id 0), (nrm_id infinity), nrm_id
    by (done || apply fgood_zero || apply fgood_inf).
  done.
Qed.

Lemma wwalk_good u v d : wwalk G u v d → fgood d = true.
Proof.
  induction 1 as [|v x d w Hw IH He]; [apply fgood_zero|].
  apply float_add_val; [done|by eapply wedge_good].
Qed.

Lemma wwalk_agree u v d : @wwalk float good_arith G u v d ↔ wwalk G u v d.
Proof.
  split.
  - induction 1 as [Hu|v x d w Hw IH He]; [exact (wwalk_start G u Hu)|].
    cbn [w_add good_arith].
    rewrite (nrm_id d) by (by eapply wwalk_good).
    rewrite (nrm_id w) by (by apply (wedge_good v x)).
    exact (@wwalk_snoc float float_arith G u v x d w IH He).
  - induction 1 as [Hu|v x d w Hw IH He];
      [exact (@wwalk_start float good_arith G u Hu)|].
    pose proof (@wwalk_snoc float good_arith G u v x d w IH He) as Hs.
    cbn [w_add good_arith] in Hs.
    rewrite (nrm_id d) in Hs by (by eapply wwalk_good).
    rewrite (nrm_id w) in Hs by (by apply (wedge_good v x)).
    done.
Qed.

Lemma tuple_lt_agree (a b : float * string) :
  good_item a → good_item b →
  @tuple_lt float good_arith a b = tuple_lt a b.
Proof.
  unfold good_item, tuple_lt. intros Ha Hb.
  cbn [w_eqb w_ltb good_arith float_arith]. by rewrite !nrm_id.
Qed.

Lemma pop_min_agree (x : float * string) (pq : list (float * string)) :
  good_item x → Forall good_item pq →
  @pop_min float good_arith x pq = pop_min x pq ∧
  good_item (pop_min x pq).1 ∧ Forall good_item (pop_min x pq).2.
Proof.
  revert x. induction pq as [|y pq IH]; intros x Hx Hpq; simpl; [done|].
  apply Forall_cons in Hpq as [Hy Hpq].
  destruct (IH y Hy Hpq) as (-> & Hm & Hrest).
  destruct (pop_min y pq) as [m rest]. simpl in *.
  rewrite tuple_lt_agree by done.
  destruct (tuple_lt m x); simpl; split_and!; auto.
Qed.

Lemma relax_agree (cur : float) (u : string) s (v : string) :
  fgood cur = true → good_state s →
  @relax float good_arith G cur u s v = relax G cur u s v ∧
  ∀ s', relax G cur u s v = Ok s' → good_state s'.
Proof.
  intros Hcur [Hdist Hpq]. unfold relax.
  destruct (edge_data G u v) as [data| |] eqn:Hdata; simpl; [|done..].
  assert (fgood (default 1%float (weight data)) = true) as Hw.
  { eapply (wedge_good u v). by exists data. }
  destruct (s.1 !! v) as [dv|] eqn:Hdv; [|done].
  pose proof (Hdist _ _ Hdv) as Hgv. simpl in Hgv.
  cbn [w_add w_ltb w_one good_arith float_arith].
  destruct (float_add_val cur _ Hcur Hw) as [Hnd _].
  rewrite (nrm_id cur), (nrm_id (default 1%float (weight data))) by done.
  rewrite (nrm_id (cur + _)), (nrm_id dv) by done.
  split; [done|].
  destruct (_ <? dv)%float; intros s' [= <-]; [|done].
  split; simpl.
  - by apply map_Forall_insert_2.
  - by apply Forall_cons.
Qed.

Lemma relax_all_agree (cur : float) (u : string) (nbs : list string) s :
  fgood cur = true → good_state s →
  for_each nbs (@relax float good_arith G cur u) s
  = for_each nbs (relax G cur u) s ∧
  ∀ s', for_each nbs (relax G cur u) s = Ok s' → good_state s'.
Proof.
  intros Hcur. revert s. induction nbs as [|v nbs IH]; intros s Hs; simpl.
  - split; [done|]. by intros s' [= <-].
  - destruct (relax_agree cur u s v Hcur Hs) as [-> Hstep].
    destruct (relax G cur u s v) as [s1| |]; simpl; [|done..].
    apply IH. by apply Hstep.
Qed.

Lemma dijkstra_body_agree s :
  good_state s →
  @dijkstra_body float good_arith G s = dijkstra_body G s ∧
  ∀ c, dijkstra_body G s = Ok c →
       match c with Continue s' | Break s' => good_state s' end.
Proof.
  intros [Hdist Hpq]. unfold dijkstra_body, heappop.
  destruct s as [dist [|x pq]]; simpl in *; [done|].
  apply Forall_cons in Hpq as [Hx Hpq].
  destruct (pop_min_agree x pq Hx Hpq) as (-> & Hm & Hrest).
  destruct (pop_min x pq) as [[cur u] rest]. simpl in *.
  unfold good_item in Hm. simpl in Hm.
  destruct (dist !! u) as [du|] eqn:Hdu; [|done].
  pose proof (Hdist _ _ Hdu) as Hgu. simpl in Hgu.
  cbn [w_ltb good_arith float_arith]. rewrite (nrm_id du), (nrm_id cur) by done.
  destruct (du <? cur)%float.
  - split; [done|]. by intros c [= <-].
  - destruct (neighbors G u) as [nbs| |]; simpl; [|done..].
    destruct (relax_all_agree cur u nbs (dist, rest) Hm) as [-> Hall]; [done|].
    split; [done|].
    destruct (for_each nbs (relax G cur u) (dist, rest)) as [s'| |]; simpl;
      [|done..].
    intros c [= <-]. by apply Hall.
Qed.

Lemma dijkstra_loop_agree fuel s :
  good_state s →
  while fuel dijkstra_cond (@dijkstra_body float good_arith G) s
  = while fuel dijkstra_cond (dijkstra_body G) s.
Proof.
  revert s. induction fuel as [|fuel IH]; intros s Hs; simpl; [done|].
  destruct (dijkstra_cond s); [|done].
  destruct (dijkstra_body_agree s Hs) as [-> Hstep].
  destruct (dijkstra_body G s) as [[s'|s']| |]; [|done..].
  apply IH. by apply (Hstep (Continue s')).
Qed.

Lemma dijkstra_agree fuel start :
  @dijkstra_from_source float good_arith fuel G start
  = dijkstra_from_source fuel G start.
Proof.
  unfold dijkstra_from_source. cbn [w_inf w_zero good_arith float_arith].
  rewrite dijkstra_loop_agree; [done|].
  split; simpl.
  - apply map_Forall_insert_2; [apply fgood_zero|].
    intros v d Hv.
    pose proof (@dist_init_lookup float float_arith (nodes G) v) as Hl.
    cbn [w_inf float_arith] in Hl. rewrite Hl in Hv.
    case_decide; [|done]. injection Hv as <-. apply fgood_inf.
  - apply Forall_singleton. apply fgood_zero.
Qed.

(** What [dijkstra_from_source] returns in binary64. *)
Record shortest_binary64 (start : string) (dist : gmap string float)
    : Prop := {
  sb_dom : ∀ v, is_Some (dist !! v) ↔ v ∈ nodes G;
  sb_start : dist !! start = Some 0%float;
  sb_real : ∀ v dv, dist !! v = Some dv →
              dv = infinity ∨ wwalk G start v dv;
  sb_least : ∀ v d, wwalk G start v d →
               ∃ dv, dist !! v = Some dv ∧ (dv <=? d)%float = true;
  sb_relaxed : ∀ u v w du, wedge G u v w → dist !! u = Some du →
                 ∃ dv, dist !! v = Some dv ∧ (dv <=? du + w)%float = true
}.

Lemma dijkstra_loop_binary64 (start : string) (fuel : nat) :
  start ∈ nodes G → dijkstra_bound G < fuel →
  ∃ dist, dijkstra_from_source fuel G start = Ok dist ∧
          shortest_binary64 start dist.
Proof.
  intros Hs Hf.
  destruct (@dijkstra_loop float good_arith binary64_laws G Hwf good_positive
              start Hs fuel Hf) as (dist & Hd & Hfin).
  rewrite dijkstra_agree in Hd. exists dist. split; [done|].
  destruct Hfin as [Hdom Hst Hreal Hleast].
  assert (∀ v dv, dist !! v = Some dv →
            dv = infinity ∨ wwalk G start v dv) as Hreal'.
  { intros v dv Hdv. destruct (Hreal v dv Hdv) as [->|Hw]; [by left|].
    right. by apply wwalk_agree. }
  assert (∀ v dv, dist !! v = Some dv → fgood dv = true) as Hgood.
  { intros v dv Hdv. destruct (Hreal' v dv Hdv) as [->|Hw];
      [apply fgood_inf|by eapply wwalk_good]. }
  assert (∀ v d, wwalk G start v d →
            ∃ dv, dist !! v = Some dv ∧ (dv <=? d)%float = true) as Hleast'.
  { intros v d Hw. pose proof (wwalk_good _ _ _ Hw) as Hgd.
    apply wwalk_agree in Hw as Hw'.
    destruct (Hleast v d Hw') as (dv & Hdv & Hle).
    exists dv. split; [done|]. pose proof (Hgood v dv Hdv) as Hgv.
    apply float_le_leb; [done..|].
    unfold w_le in *. cbn [w_ltb good_arith float_arith] in *.
    by rewrite (nrm_id d), (nrm_id dv) in Hle. }
  split; [done|done|done|done|].
  intros u v w du He Hu.
  destruct (Hreal' u du Hu) as [->|Hw].
  - assert (v ∈ nodes G) as [dv Hv]%Hdom.
    { eapply wf_closed; [done|]. by eapply wedge_edge. }
    exists dv. split; [done|].
    pose proof (wedge_good u v w He) as Hgw.
    destruct (float_add_val infinity w fgood_inf Hgw) as [Hg Hval].
    rewrite float_leb_val by eauto. apply Z.leb_le.
    rewrite Hval, fval_inf, rsum_top.
    + apply fval_range. eauto.
    + pose proof (fval_range w Hgw). lia.
  - apply Hleast'. by econstructor.
Qed.
End RunBinary64.

(** The weight of the walk [u :: p], added to [d] edge by edge from [u] on. *)
Fixpoint walk_weight {W} `{Arith W} (G : Graph W) (d : W) (u : string)
    (p : list string) : result W :=
  match p with
  | [] => Ok d
  | v :: p' =>
      data ←r edge_data G u v;
      walk_weight G (w_add d (default w_one (weight data))) v p'
  end.

(** Every entry [table[a][b]] is the weight of the path BFS finds from [a]
    to [b], summed from [a] on. *)
Definition distances_follow_paths {W} `{Arith W} (fuel : nat) (G : Graph W)
    : bool :=
  match all_pairs_shortest_distances fuel G with
  | Ok t =>
      forallb (λ a,
        forallb (λ b,
          match bfs_path fuel G a b, table_get t a b with
          | Ok (x :: p, _), Some d =>
              match walk_weight G w_zero x p with
              | Ok d' => w_eqb d d'
              | _ => false
              end
          | _, _ => false
          end) (nodes G)) (nodes G)
  | _ => false
  end.

(** In binary64, on the reference topology (a tree: the path between two
    nodes is unique), Dijkstra's loop ends for every source and every
    distance is the rounded sum along the path, taken from the source on. *)
Lemma reference_distances_binary64 :
  distances_follow_paths 40 float_topology = true.
Proof. vm_compute. reflexivity. Qed.

(** ** [add_edge_weights] *)

Section EdgeWeights.
Context {W : Type} `{Arith W}.
Implicit Types G : Graph W.

(** The speed the weight is derived from: [max(int(speed_mbps), 1)]. *)
Definition clamped_speed (data : EdgeData W) : Z :=
  Z.max (default 1%Z (speed_mbps data)) 1.

Lemma set_weight_Ok data s :
  w_of_int (clamped_speed data) = Some s →
  set_weight data
  = Ok (mkEdgeData (kind data) (speed_mbps data) (Some (w_div w_one s))).
Proof. unfold set_weight, clamped_speed. by intros ->. Qed.

Lemma set_weight_idem data data' :
  set_weight data = Ok data' → set_weight data' = Ok data'.
Proof.
  unfold set_weight.
  destruct (w_of_int (Z.max (default 1%Z (speed_mbps data)) 1)) as [s|] eqn:Hs;
    [|done].
  intros [= <-]. simpl. by rewrite Hs.
Qed.

(** The loop of [add_edge_weights] over any list of edges whose attribute
    dictionaries exist: it does not raise, keeps nodes and adjacency, and
    leaves in every visited dictionary the weight [set_weight] derives. *)
Lemma add_edge_weights_loop (es : list (string * string * nat)) :
  ∀ G,
    (∀ e, e ∈ es → e.2 < length (g_data G)) →
    (∀ data, data ∈ g_data G → ∃ data', set_weight data = Ok data') →
    ∃ G',
      for_each es
        (λ G '(u, v, r),
           match g_data G !! r with
           | None => Raise (KeyError v)
           | Some data =>
               data' ←r set_weight data;
               Ok (mkGraph (g_node G) (g_adj G) (<[r := data']> (g_data G)))
           end) G = Ok G' ∧
      g_node G' = g_node G ∧ g_adj G' = g_adj G ∧
      ∀ r data, g_data G !! r = Some data →
        ∃ data', set_weight data = Ok data' ∧
                 g_data G' !! r = Some (if bool_decide (r ∈ es.*2) then data' else data).
Proof.
  induction es as [|[[u v] r] es IH]; intros G Hrefs Hok; cbn [for_each].
  - exists G. split_and!; [done..|]. intros r data Hr.
    destruct (Hok data) as [data' Hd]; [by eapply list_elem_of_lookup_2|].
    exists data'. split; [done|]. rewrite bool_decide_eq_false_2; [done|].
    apply not_elem_of_nil.
  - assert (r < length (g_data G)) as Hr by (apply (Hrefs (u, v, r)); left).
    apply lookup_lt_is_Some in Hr as [data Hdata]. rewrite Hdata.
    destruct (Hok data) as [data' Hd]; [by eapply list_elem_of_lookup_2|].
    rewrite Hd. cbn [rbind].
    destruct (IH (mkGraph (g_node G) (g_adj G) (<[r := data']> (g_data G))))
      as (G' & Hfor & Hn & Ha & Hdat); cbn [g_data g_node g_adj].
    + intros e He. rewrite length_insert. apply Hrefs. by right.
    + intros d [i Hi]%list_elem_of_lookup.
      destruct (decide (i = r)) as [->|Hne].
      * rewrite list_lookup_insert_eq in Hi by (by eapply lookup_lt_Some).
        simplify_eq. exists d. by eapply set_weight_idem.
      * rewrite list_lookup_insert_ne in Hi by done.
        apply Hok. by eapply list_elem_of_lookup_2.
    + exists G'. split_and!; [done..|]. intros i d Hi.
      destruct (Hok d) as [d' Hd']; [by eapply list_elem_of_lookup_2|].
      exists d'. split; [done|].
      destruct (decide (i = r)) as [->|Hne].
      * assert (d = data) as -> by congruence.
        assert (d' = data') as -> by congruence.
        rewrite bool_decide_eq_true_2 by left.
        destruct (Hdat r data') as (d2 & Hd2 & ->).
        { simpl. apply list_lookup_insert_eq. by eapply lookup_lt_Some. }
        rewrite (set_weight_idem _ _ Hd) in Hd2. simplify_eq.
        by destruct (bool_decide _).
      * destruct (Hdat i d) as (d2 & Hd2 & ->).
        { simpl. by rewrite list_lookup_insert_ne. }
        assert (d2 = d') as -> by congruence.
        f_equal. rewrite fmap_cons. simpl.
        destruct (decide (i ∈ es.*2)) as [Hin|Hin].
        -- rewrite !bool_decide_eq_true_2; [done|by right|done].
        -- rewrite !bool_decide_eq_false_2; [done| |done].
           by intros [?|?]%elem_of_cons.
Qed.

(** Every edge of [G.edges] has its attribute dictionary in the store. *)
Definition edges_valid G : Prop :=
  ∀ e, e ∈ edges G → e.2 < length (g_data G).

Definition edges_validb G : bool :=
  forallb (λ e : string * string * nat, bool_decide (e.2 < length (g_data G)))
          (edges G).

Lemma edges_validb_sound G : edges_validb G = true → edges_valid G.
Proof.
  unfold edges_validb. rewrite forallb_forall.
  intros Hall e He%list_elem_of_In%Hall. by apply bool_decide_eq_true in He.
Qed.
End EdgeWeights.

(** Two links whose speed is not positive. *)
Definition bad_links : Graph float :=
  add_edges_from Nx.empty
    [("A", "B", link "wifi" 0); ("B", "C", link "ethernet" (-100))].

(** * The claims about task_02_graph.py *)

(** C1. If [goal] is reachable from [start], [bfs_path] returns a walk from
    [start] to [goal], and no walk from [start] to [goal] has fewer edges. *)
Theorem bfs_path_shortest {W} (G : Graph W) (start goal : string) (fuel : nat) :
  wf_graph G → start ∈ nodes G → goal ∈ nodes G → reachable G start goal →
  length (nodes G) < fuel →
  ∃ path order,
    bfs_path fuel G start goal = Ok (path, order) ∧
    walk G start goal path ∧
    ∀ p, walk G start goal p → edge_count path ≤ edge_count p.
Proof.
  intros Hwf Hs _ Hr Hf.
  destruct (bfs_loop G Hwf start goal fuel Hs Hf) as (s & Hloop & Hpost).
  destruct s as [[q parent] order].
  unfold bfs_path. rewrite Hloop. simpl.
  destruct Hpost as [(dep & Hq & Hi & _)|(dep & visit & Ho & Hi & Hl)]; simpl in *.
  - (* the queue cannot run empty before a reachable goal is dequeued *)
    exfalso. destruct Hr as [p Hp].
    pose proof (exhausted_complete G start goal dep _ goal p Hi Hq Hp) as Hg.
    apply (si_keys _ _ _ _ _ Hi) in Hg. simpl in Hg.
    rewrite Hq, app_nil_r in Hg. by apply (si_goal _ _ _ _ _ Hi).
  - destruct (reconstruct_found G start goal dep _ fuel goal Hi Hs Hf)
      as (path & Hp & Hw & Hlen).
    { apply (si_keys _ _ _ _ _ Hi). simpl. rewrite elem_of_app, elem_of_cons. auto. }
    simpl in Hp. rewrite Hp. simpl.
    exists path, order. split_and!; [done|done|].
    intros p Hwp. unfold edge_count. rewrite Hlen.
    destruct (bfs_depth_minimal G start goal dep q parent visit Hi Hl goal p Hwp)
      as [[_ ?]|?]; lia.
Qed.

Lemma bfs_path_shortest_witness :
  ∃ path order,
    bfs_path 18 (@build_network_topology unit) "ISP" "Camera_1" = Ok (path, order) ∧
    walk (@build_network_topology unit) "ISP" "Camera_1" path ∧
    ∀ p, walk (@build_network_topology unit) "ISP" "Camera_1" p →
         edge_count path ≤ edge_count p.
Proof.
  apply (bfs_path_shortest (@build_network_topology unit) "ISP" "Camera_1" 18).
  - apply wf_graphb_sound. vm_compute. reflexivity.
  - by_compute.
  - by_compute.
  - exists ["ISP"; "Router"; "Switch"; "AP_2"; "IoT_Hub"; "Camera_1"].
    apply (is_walk_sound (@build_network_topology unit) "ISP" "ISP" ["ISP"]
             ["Router"; "Switch"; "AP_2"; "IoT_Hub"; "Camera_1"]).
    + constructor. by_compute.
    + vm_compute. reflexivity.
  - vm_compute. lia.
Defined.

(** The path the specification names for the reference topology. *)
Definition isp_to_camera_1 : list string :=
  ["ISP"; "Router"; "Switch"; "AP_2"; "IoT_Hub"; "Camera_1"].

(** C4. On the reference topology (17 nodes, 16 edges) BFS from [ISP] to
    [Camera_1] returns ISP, Router, Switch, AP_2, IoT_Hub, Camera_1, which has
    5 edges, and DFS returns the same path. *)
Theorem reference_topology_paths {W} (fuel : nat) :
  18 ≤ fuel →
  number_of_nodes (@build_network_topology W) = 17 ∧
  number_of_edges (@build_network_topology W) = 16 ∧
  (∃ order, bfs_path fuel (@build_network_topology W) "ISP" "Camera_1"
            = Ok (isp_to_camera_1, order)) ∧
  (∃ order, dfs_path fuel (@build_network_topology W) "ISP" "Camera_1"
            = Ok (isp_to_camera_1, order)) ∧
  edge_count isp_to_camera_1 = 5.
Proof.
  intros Hf. split_and!.
  - vm_compute. reflexivity.
  - vm_compute. reflexivity.
  - rewrite (bfs_path_mono _ _ _ 18 fuel); [|by vm_compute|done].
    eexists. vm_compute. reflexivity.
  - rewrite (dfs_path_mono _ _ _ 18 fuel); [|by vm_compute|done].
    eexists. vm_compute. reflexivity.
  - reflexivity.
Qed.

Lemma reference_topology_paths_witness :
  number_of_nodes (@build_network_topology unit) = 17 ∧
  number_of_edges (@build_network_topology unit) = 16 ∧
  (∃ order, bfs_path 18 (@build_network_topology unit) "ISP" "Camera_1"
            = Ok (isp_to_camera_1, order)) ∧
  (∃ order, dfs_path 18 (@build_network_topology unit) "ISP" "Camera_1"
            = Ok (isp_to_camera_1, order)) ∧
  edge_count isp_to_camera_1 = 5.
Proof. apply (@reference_topology_paths unit 18). lia. Defined.

(** C6, as the specification states it, fails: with [start] present and
    [goal] absent from the graph both searches return normally, with the
    empty path. *)
Lemma absent_goal_is_no_error :
  ("Tablet" ∉ nodes (@build_network_topology unit)) ∧
  (∃ order, bfs_path 18 (@build_network_topology unit) "ISP" "Tablet"
            = Ok ([], order)) ∧
  (∃ order, dfs_path 18 (@build_network_topology unit) "ISP" "Tablet"
            = Ok ([], order)).
Proof.
  split_and!.
  - by_compute.
  - eexists. vm_compute. reflexivity.
  - eexists. vm_compute. reflexivity.
Qed.

(** C6, amended.  The searches never test membership themselves.  An absent
    [start] (different from [goal]) makes [G.neighbors] raise; a [goal] that
    cannot be reached from a present [start], because it is absent or lies in
    another component, gives the empty path and no error. *)
Theorem path_query_absent_or_unreachable {W} (G : Graph W)
    (start goal : string) (fuel : nat) :
  wf_graph G →
  (start ∉ nodes G → start ≠ goal → 0 < fuel →
     bfs_path fuel G start goal = Raise (NetworkXError start) ∧
     dfs_path fuel G start goal = Raise (NetworkXError start)) ∧
  (start ∈ nodes G → ¬ reachable G start goal → length (nodes G) < fuel →
     (∃ order, bfs_path fuel G start goal = Ok ([], order)) ∧
     (∃ order, dfs_path fuel G start goal = Ok ([], order))) ∧
  (goal ∉ nodes G → ¬ reachable G start goal).
Proof.
  intros Hwf. split_and!.
  - intros Hs Hne Hf. destruct fuel as [|fuel]; [lia|].
    unfold bfs_path, dfs_path. simpl.
    unfold bfs_body, dfs_body, neighbors_sorted.
    rewrite !decide_False by done.
    rewrite (neighbors_absent G start Hwf Hs). done.
  - intros Hs Hnr Hf. split.
    + destruct (bfs_loop G Hwf start goal fuel Hs Hf) as (s & Hloop & Hpost).
      destruct (search_post_path G start goal _ s fuel Hpost Hs Hf)
        as (path & Hp & Hnone & _).
      unfold bfs_path. rewrite Hloop. simpl. rewrite Hp. simpl.
      rewrite (Hnone Hnr). eauto.
    + destruct (dfs_loop G Hwf start goal fuel Hs Hf) as (s & Hloop & Hpost).
      destruct (search_post_path G start goal _ s fuel Hpost Hs Hf)
        as (path & Hp & Hnone & _).
      unfold dfs_path. rewrite Hloop. simpl. rewrite Hp. simpl.
      rewrite (Hnone Hnr). eauto.
  - by apply absent_unreachable.
Qed.

Lemma two_islands_wf : wf_graph two_islands.
Proof. apply wf_graphb_sound. vm_compute. reflexivity. Qed.

(** In [two_islands]: a query from the absent node [Z] raises, and [C],
    present in the graph, is not reachable from [A]. *)
Lemma path_query_absent_or_unreachable_witness :
  (bfs_path 4 two_islands "Z" "A" = Raise (NetworkXError "Z") ∧
   dfs_path 4 two_islands "Z" "A" = Raise (NetworkXError "Z")) ∧
  ((∃ order, bfs_path 4 two_islands "A" "C" = Ok ([], order)) ∧
   (∃ order, dfs_path 4 two_islands "A" "C" = Ok ([], order))) ∧
  ((∃ order, bfs_path 4 two_islands "A" "Z" = Ok ([], order)) ∧
   (∃ order, dfs_path 4 two_islands "A" "Z" = Ok ([], order))).
Proof.
  destruct (path_query_absent_or_unreachable two_islands "Z" "A" 4 two_islands_wf)
    as (Habsent & _ & _).
  destruct (path_query_absent_or_unreachable two_islands "A" "C" 4 two_islands_wf)
    as (_ & Hunreach & _).
  destruct (path_query_absent_or_unreachable two_islands "A" "Z" 4 two_islands_wf)
    as (_ & Hunreach' & Hnogoal).
  split; [|split].
  - apply Habsent; [by_compute|done|lia].
  - apply Hunreach; [by_compute| |vm_compute; lia].
    intros Hr.
    apply (closed_under_edges_reachable two_islands ["A"; "B"]) in Hr.
    + revert Hr. by_compute.
    + vm_compute. reflexivity.
    + by_compute.
  - apply Hunreach'; [by_compute| |vm_compute; lia].
    apply Hnogoal. by_compute.
Defined.

(** C7. [reconstruct_path] returns the empty path when [goal] has no entry
    in [parent], and also when the parent links followed back from [goal] end
    at a node other than [start]; whatever it returns is empty or is the
    whole chain from [start] to [goal]. *)
Theorem reconstruct_path_never_partial
    (parent : gmap string (option string)) (start goal : string) :
  (parent !! goal = None →
     ∀ fuel, reconstruct_path fuel parent start goal = Ok []) ∧
  (∀ l, back parent goal l → last l ≠ Some start →
     ∀ fuel, length l < fuel → reconstruct_path fuel parent start goal = Ok []) ∧
  (∀ fuel path, reconstruct_path fuel parent start goal = Ok path →
     path = [] ∨
     (head path = Some start ∧ last path = Some goal ∧
      back parent goal (reverse path))).
Proof.
  split_and!.
  - intros Hg fuel. by apply reconstruct_absent.
  - intros l Hb Hl fuel Hf. rewrite (reconstruct_back _ _ _ l) by done.
    unfold checked_path. rewrite <- head_reverse in Hl.
    destruct (reverse l) as [|first l']; [done|].
    case_decide; [|done]. simpl in Hl. congruence.
  - intros fuel path. unfold reconstruct_path.
    destruct (parent !! goal) as [pg|] eqn:Hg; [|intros [= <-]; by left].
    destruct (while fuel _ _ _) as [[cur acc]| |] eqn:Hloop; simpl; [|done..].
    assert (∀ f c a, while f reconstruct_cond (reconstruct_body parent) (c, a)
                     = Ok (cur, acc) →
              cur = None ∧ ∃ l, acc = a ++ l ∧
                (∀ x, c = Some x → back parent x l) ∧ (c = None → l = []))
      as Hgen.
    { clear. induction f as [|f IH]; intros c a; simpl; [done|].
      destruct c as [x|]; simpl.
      - unfold reconstruct_body at 1. simpl.
        destruct (parent !! x) as [p|] eqn:Hx; [|done].
        intros (-> & l & -> & Hl & Hnil)%IH. split; [done|].
        exists (x :: l). split_and!; [by rewrite <- app_assoc| |done].
        intros ? [= <-]. destruct p as [y|].
        + eapply back_step; [done|]. by apply Hl.
        + rewrite Hnil by done. by apply back_root.
      - intros [= <- <-]. split; [done|]. exists []. by rewrite app_nil_r. }
    apply Hgen in Hloop as (-> & l & -> & Hl & _). simpl.
    specialize (Hl goal eq_refl).
    destruct (reverse l) as [|first l'] eqn:Hrev; [intros [= <-]; by left|].
    case_decide as Hfirst; intros [= <-]; [right|by left].
    split_and!.
    + by rewrite Hfirst.
    + rewrite <- Hrev, last_reverse. by apply (back_head parent).
    + by rewrite <- Hrev, reverse_involutive.
Qed.

(** A parent map whose chain from [B] ends at [X], not at the start [A]. *)
Definition stray_parent : gmap string (option string) :=
  <["B" := Some "X"]> {["X" := None]}.

Lemma reconstruct_path_never_partial_witness :
  reconstruct_path 5 stray_parent "A" "C" = Ok [] ∧
  reconstruct_path 5 stray_parent "A" "B" = Ok [] ∧
  (["X"; "B"] = [] ∨
   (head ["X"; "B"] = Some "X" ∧ last ["X"; "B"] = Some "B" ∧
    back stray_parent "B" (reverse ["X"; "B"]))).
Proof.
  assert (back stray_parent "B" ["B"; "X"]) as Hb.
  { eapply back_step; [|apply back_root]; vm_compute; reflexivity. }
  split_and!.
  - apply (reconstruct_path_never_partial stray_parent "A" "C").
    vm_compute. reflexivity.
  - apply (reconstruct_path_never_partial stray_parent "A" "B") with ["B"; "X"].
    + exact Hb.
    + vm_compute. congruence.
    + vm_compute. lia.
  - apply (reconstruct_path_never_partial stray_parent "X" "B") with 5.
    vm_compute. reflexivity.
Defined.

(** C8. A query with [start = goal] returns the one-node path, of edge
    count 0, from BFS and from DFS (whether or not the node is in the graph). *)
Theorem same_node_path {W} (G : Graph W) (start : string) (fuel : nat) :
  2 ≤ fuel →
  bfs_path fuel G start start = Ok ([start], [start]) ∧
  dfs_path fuel G start start = Ok ([start], [start]) ∧
  edge_count [start] = 0.
Proof.
  intros Hf.
  assert (reconstruct_path fuel {[start := None]} start start = Ok [start]) as Hrec.
  { rewrite (reconstruct_back _ _ _ [start]).
    - unfold checked_path. change (reverse [start]) with [start].
      cbv beta iota. by rewrite decide_True.
    - apply back_root, lookup_singleton_eq.
    - simpl. lia. }
  destruct fuel as [|fuel]; [lia|].
  unfold bfs_path, dfs_path.
  rewrite !(while_break (S:=search_state) _ _ _ ([], {[start := None]}, [start])).
  - simpl. rewrite Hrec. done.
  - done.
  - unfold dfs_body. by rewrite decide_True.
  - done.
  - unfold bfs_body. by rewrite decide_True.
Qed.

Lemma same_node_path_witness :
  bfs_path 2 two_islands "A" "A" = Ok (["A"], ["A"]) ∧
  dfs_path 2 two_islands "A" "A" = Ok (["A"], ["A"]) ∧
  edge_count ["A"] = 0.
Proof. apply (same_node_path two_islands "A" 2). lia. Defined.

(** C10. For a start node of the graph both searches terminate (any bound
    above the number of nodes is enough), and the visit order they return
    begins with [start] and lists no node twice. *)
Theorem visit_order_nodup {W} (G : Graph W) (start goal : string) (fuel : nat) :
  wf_graph G → start ∈ nodes G → length (nodes G) < fuel →
  (∃ path order, bfs_path fuel G start goal = Ok (path, order) ∧
                 head order = Some start ∧ NoDup order) ∧
  (∃ path order, dfs_path fuel G start goal = Ok (path, order) ∧
                 head order = Some start ∧ NoDup order).
Proof.
  intros Hwf Hs Hf. split.
  - destruct (bfs_loop G Hwf start goal fuel Hs Hf) as (s & Hloop & Hpost).
    destruct (search_post_path G start goal _ s fuel Hpost Hs Hf) as (path & Hp & _).
    destruct (search_post_order G start goal _ s Hpost) as [Hh Hn].
    unfold bfs_path. rewrite Hloop. simpl. rewrite Hp. simpl. eauto.
  - destruct (dfs_loop G Hwf start goal fuel Hs Hf) as (s & Hloop & Hpost).
    destruct (search_post_path G start goal _ s fuel Hpost Hs Hf) as (path & Hp & _).
    destruct (search_post_order G start goal _ s Hpost) as [Hh Hn].
    unfold dfs_path. rewrite Hloop. simpl. rewrite Hp. simpl. eauto.
Qed.

Lemma visit_order_nodup_witness :
  (∃ path order,
     bfs_path 18 (@build_network_topology unit) "ISP" "Camera_1" = Ok (path, order) ∧
     head order = Some "ISP" ∧ NoDup order) ∧
  (∃ path order,
     dfs_path 18 (@build_network_topology unit) "ISP" "Camera_1" = Ok (path, order) ∧
     head order = Some "ISP" ∧ NoDup order).
Proof.
  apply (visit_order_nodup (@build_network_topology unit) "ISP" "Camera_1" 18).
  - apply wf_graphb_sound. vm_compute. reflexivity.
  - by_compute.
  - vm_compute. lia.
Defined.

(** * The claims about task_03_graph.py and task_01_graph.py *)

(** A chain of two links whose weights are both [2^1023], the largest power
    of two in binary64: their sum overflows. *)
Definition overflow_links : Graph float :=
  add_edges_from Nx.empty
    [("A", "B", mkEdgeData None None (Some 0x1p1023%float));
     ("B", "C", mkEdgeData None None (Some 0x1p1023%float))].

(** C2, as the specification states it, fails: on [overflow_links] the
    weights are positive and finite and C is reachable from A (through B),
    yet its distance is [+inf], because [2^1023 + 2^1023] overflows. *)
Lemma reachable_node_at_infinity :
  wf_graph overflow_links ∧
  positive_weights overflow_links ∧
  reachable overflow_links "A" "C" ∧
  (dist ←r dijkstra_from_source 8 overflow_links "A";
   Ok (dist !! "A", dist !! "B", dist !! "C"))
  = Ok (Some 0%float, Some 0x1p1023%float, Some infinity).
Proof.
  split_and!.
  - apply wf_graphb_sound. vm_compute. reflexivity.
  - apply positive_weightsb_sound. vm_compute. reflexivity.
  - exists ["A"; "B"; "C"].
    apply (is_walk_sound overflow_links "A" "A" ["A"] ["B"; "C"]).
    + constructor. by_compute.
    + vm_compute. reflexivity.
  - vm_compute. reflexivity.
Qed.

(** C2, amended.  In binary64, on a graph with positive finite weights,
    [dijkstra_from_source] returns a map that gives 0 to [start] and gives
    every node the least weight of a walk from [start] to it, the weight of
    a walk being the rounded sum of its edge weights taken from [start] on.
    A node has the distance [+inf] exactly when no walk to it has a finite
    weight: when it is not reachable, or when every walk to it overflows. *)
Theorem dijkstra_shortest_distances (G : Graph float) (start : string)
    (fuel : nat) :
  wf_graph G → positive_weights G → start ∈ nodes G →
  dijkstra_bound G < fuel →
  ∃ dist,
    dijkstra_from_source fuel G start = Ok dist ∧
    dist !! start = Some 0%float ∧
    ∀ v, v ∈ nodes G →
      ∃ dv, dist !! v = Some dv ∧
        (dv = infinity ∨ wwalk G start v dv) ∧
        (∀ d, wwalk G start v d → (dv <=? d)%float = true) ∧
        (dv = infinity ↔ ∀ d, wwalk G start v d → d = infinity) ∧
        (¬ reachable G start v → dv = infinity).
Proof.
  intros Hwf Hpos Hs Hf.
  destruct (dijkstra_loop_binary64 G Hwf Hpos start fuel Hs Hf)
    as (dist & Hd & [Hdom Hst Hreal Hleast _]).
  exists dist. split_and!; [done|done|].
  intros v [dv Hdv]%Hdom. exists dv. split; [done|].
  assert (∀ d, wwalk G start v d → (dv <=? d)%float = true) as Hle.
  { intros d Hw. destruct (Hleast v d Hw) as (dv' & Hdv' & Hle). congruence. }
  split_and!; [by apply Hreal|done|split|].
  - intros -> d Hw. apply float_inf_least; [by eapply wwalk_good|by apply Hle].
  - intros Hall. destruct (Hreal v dv Hdv) as [->|Hw]; [done|by apply Hall].
  - intros Hnr. destruct (Hreal v dv Hdv) as [->|Hw]; [done|].
    exfalso. apply Hnr. by eapply wwalk_reachable.
Qed.

Lemma dijkstra_shortest_distances_witness :
  ∃ dist,
    dijkstra_from_source 40 float_topology "ISP" = Ok dist ∧
    dist !! "ISP" = Some 0%float ∧
    ∀ v, v ∈ nodes float_topology →
      ∃ dv, dist !! v = Some dv ∧
        (dv = infinity ∨ wwalk float_topology "ISP" v dv) ∧
        (∀ d, wwalk float_topology "ISP" v d → (dv <=? d)%float = true) ∧
        (dv = infinity ↔ ∀ d, wwalk float_topology "ISP" v d → d = infinity) ∧
        (¬ reachable float_topology "ISP" v → dv = infinity).
Proof.
  apply (dijkstra_shortest_distances float_topology "ISP" 40).
  - exact float_topology_wf.
  - exact float_topology_positive.
  - by_compute.
  - vm_compute. lia.
Defined.

(** C3, as the specification states it, fails on the reference topology
    itself: in binary64 the distance from Router to Phone_1 is
    [(0.001 + 0.001) + 1/300] and the distance back is
    [(1/300 + 0.001) + 0.001], and the two sums round differently
    (0.005333333333333334 and 0.005333333333333333). *)
Lemma all_pairs_asymmetric_in_binary64 :
  (t ←r all_pairs_shortest_distances 40 float_topology;
   Ok (table_get t "Router" "Phone_1", table_get t "Phone_1" "Router"))
  = Ok (Some 0x1.5d867c3ece2a6p-8%float, Some 0x1.5d867c3ece2a5p-8%float) ∧
  w_eqb 0x1.5d867c3ece2a6p-8%float 0x1.5d867c3ece2a5p-8%float = false.
Proof. split; vm_compute; reflexivity. Qed.

(** C3, amended.  In binary64, on a graph with positive finite weights, the
    diagonal of the all-pairs table is all zeros, and the entry for [(a, b)]
    is the least weight of a walk from [a] to [b] summed from [a] on, or
    [+inf].  (The entry for [(b, a)] sums the same weights from [b] on, and
    need not be equal.) *)
Theorem all_pairs_diagonal_and_least (G : Graph float) (fuel : nat) :
  wf_graph G → positive_weights G → dijkstra_bound G < fuel →
  ∃ t,
    all_pairs_shortest_distances fuel G = Ok t ∧
    (∀ a, a ∈ nodes G → table_get t a a = Some 0%float) ∧
    (∀ a b, a ∈ nodes G → b ∈ nodes G →
       ∃ d, table_get t a b = Some d ∧
            (d = infinity ∨ wwalk G a b d) ∧
            ∀ d', wwalk G a b d' → (d <=? d')%float = true).
Proof.
  intros Hwf Hpos Hf.
  destruct (all_pairs_loop G fuel (nodes G)) with (t0 := ∅ : gmap string (gmap string float))
    as (t & Ht & Hrows & _).
  { intros a Ha.
    destruct (dijkstra_loop_binary64 G Hwf Hpos a fuel Ha Hf) as (dist & ? & _).
    eauto. }
  exists t. split; [done|].
  assert (∀ a b, a ∈ nodes G → b ∈ nodes G →
            ∃ dist dv, table_get t a b = Some dv ∧ dist !! b = Some dv ∧
                       shortest_binary64 G a dist) as Hget.
  { intros a b Ha Hb. destruct (Hrows a Ha) as (dist & Hta & Hdist).
    destruct (dijkstra_loop_binary64 G Hwf Hpos a fuel Ha Hf)
      as (dist' & Hd' & Hfinal).
    assert (dist' = dist) as -> by congruence.
    destruct (proj2 (sb_dom _ _ _ Hfinal b) Hb) as [dv Hdv].
    exists dist, dv. unfold table_get. rewrite Hta. simpl. done. }
  split.
  - intros a Ha. destruct (Hget a a Ha Ha) as (dist & dv & -> & Hdv & Hfinal).
    rewrite (sb_start _ _ _ Hfinal) in Hdv. done.
  - intros a b Ha Hb.
    destruct (Hget a b Ha Hb) as (dist & d & Hab & Hd & Hfinal).
    exists d. split_and!; [done|by eapply sb_real|].
    intros d' Hw. destruct (sb_least _ _ _ Hfinal _ _ Hw) as (d0 & Hd0 & Hle).
    congruence.
Qed.

Lemma all_pairs_diagonal_and_least_witness :
  ∃ t,
    all_pairs_shortest_distances 40 float_topology = Ok t ∧
    (∀ a, a ∈ nodes float_topology → table_get t a a = Some 0%float) ∧
    (∀ a b, a ∈ nodes float_topology → b ∈ nodes float_topology →
       ∃ d, table_get t a b = Some d ∧
            (d = infinity ∨ wwalk float_topology a b d) ∧
            ∀ d', wwalk float_topology a b d' → (d <=? d')%float = true).
Proof.
  apply (all_pairs_diagonal_and_least float_topology 40).
  - exact float_topology_wf.
  - exact float_topology_positive.
  - vm_compute. lia.
Defined.

(** C5, as the specification states it, fails: a link of speed 0 or -100 is
    not rejected; [add_edge_weights] returns normally and gives it the
    weight 1.0. *)
Lemma nonpositive_speed_is_not_rejected :
  (G ←r add_edge_weights bad_links; Ok (weight <$> g_data G))
  = Ok [Some 1%float; Some 1%float].
Proof. vm_compute. reflexivity. Qed.

(** C5, amended.  [add_edge_weights] does not fail on a speed that is not
    positive: [max(speed, 1)] clamps it to 1 and the edge gets the weight
    [1.0 / 1 = 1.0].  (The call returns when no speed of the graph is too
    large for a float, that is when every speed is below [2^1024 - 2^970].) *)
Theorem add_edge_weights_clamps (G : Graph float) :
  edges_valid G →
  (∀ data, data ∈ g_data G → (clamped_speed data < 2 ^ 1024 - 2 ^ 970)%Z) →
  ∃ G',
    add_edge_weights G = Ok G' ∧
    ∀ e data speed,
      e ∈ edges G → g_data G !! e.2 = Some data →
      speed_mbps data = Some speed → (speed ≤ 0)%Z →
      ∃ data', g_data G' !! e.2 = Some data' ∧ weight data' = Some 1%float.
Proof.
  intros Hvalid Hsmall.
  assert (∀ data, data ∈ g_data G →
            ∃ s, float_of_Z (clamped_speed data) = Some s) as Hconv.
  { intros data Hd%Hsmall. unfold float_of_Z.
    assert (0 < clamped_speed data)%Z by (unfold clamped_speed; lia).
    rewrite Z.abs_eq by lia.
    destruct (Z.ltb_spec (clamped_speed data) (2 ^ 1024 - 2 ^ 970));
      [eauto|lia]. }
  destruct (add_edge_weights_loop (edges G) G Hvalid) as (G' & Hfor & _ & _ & Hdat).
  { intros data [s Hs]%Hconv. eexists. by apply (set_weight_Ok data s). }
  exists G'. split; [done|].
  intros e data speed He Hdata Hspeed Hle.
  destruct (Hdat _ _ Hdata) as (data' & Hset & Hlook).
  rewrite bool_decide_eq_true_2 in Hlook.
  - exists data'. split; [done|].
    assert (clamped_speed data = 1%Z) as Hone.
    { unfold clamped_speed. rewrite Hspeed. simpl. lia. }
    rewrite (set_weight_Ok data 1%float) in Hset.
    + by injection Hset as <-.
    + rewrite Hone. vm_compute. reflexivity.
  - apply list_elem_of_fmap. by exists e.
Qed.

Lemma add_edge_weights_clamps_witness :
  ∃ G',
    add_edge_weights bad_links = Ok G' ∧
    ∀ e data speed,
      e ∈ edges bad_links → g_data bad_links !! e.2 = Some data →
      speed_mbps data = Some speed → (speed ≤ 0)%Z →
      ∃ data', g_data G' !! e.2 = Some data' ∧ weight data' = Some 1%float.
Proof.
  apply (add_edge_weights_clamps bad_links).
  - apply edges_validb_sound. vm_compute. reflexivity.
  - intros data Hd. revert data Hd. apply Forall_forall.
    repeat constructor.
Defined.

(** C9, as the specification states it, fails: the script has no
    EmptyGraph error and no test for an empty graph.  On the graph without
    nodes [analyze_graph] fails in the division [sum(...) / n], with
    Python's ZeroDivisionError. *)
Lemma empty_graph_zero_division :
  number_of_nodes (Nx.empty (W:=float)) = 0 ∧
  analyze_graph (Nx.empty (W:=float)) = Raise ZeroDivisionError.
Proof. split; reflexivity. Qed.

(** C9, amended.  [analyze_graph] on a graph without nodes fails, with the
    ZeroDivisionError of [sum(...) / n]; on any other graph the average
    degree it reports is the sum of the degrees divided by the number of
    nodes. *)
Theorem average_degree_spec {W} `{Arith W} (G : Graph W) :
  (number_of_nodes G = 0 → analyze_graph G = Raise ZeroDivisionError) ∧
  (∀ x y,
     number_of_nodes G ≠ 0 → wf_graph G →
     w_of_int (Z.of_nat (sum_list (degree G).*2)) = Some x →
     w_of_int (Z.of_nat (number_of_nodes G)) = Some y →
     ∃ s, analyze_graph G = Ok s ∧ s_avg_degree s = w_div x y).
Proof.
  split.
  - intros Hn. unfold analyze_graph, true_div. by rewrite Hn.
  - intros x y Hn Hwf Hx Hy. unfold analyze_graph, true_div.
    rewrite decide_False by lia. rewrite Hx, Hy. simpl.
    assert ((degree G).*2 ≠ []) as Hdeg.
    { unfold degree, number_of_nodes in *.
      pose proof (f_equal length (wf_keys G Hwf)) as Hlen.
      unfold dict_keys in Hlen. rewrite !length_fmap in Hlen.
      destruct (g_adj G); simpl in *; [lia|done]. }
    destruct ((degree G).*2) as [|d ds]; [done|]. simpl. eauto.
Qed.

Lemma average_degree_spec_witness :
  analyze_graph (Nx.empty (W:=float)) = Raise ZeroDivisionError ∧
  (∃ s, analyze_graph float_topology = Ok s ∧
        s_avg_degree s = w_div 32%float 17%float).
Proof.
  split.
  - apply (average_degree_spec (Nx.empty (W:=float))). reflexivity.
  - apply (average_degree_spec float_topology).
    + vm_compute. lia.
    + apply wf_graphb_sound. vm_compute. reflexivity.
    + vm_compute. reflexivity.
    + vm_compute. reflexivity.
Defined.

(** * Further properties of the path searches *)

Section SearchMore.
Context {W : Type}.
Variable G : Graph W.
Hypothesis Hwf : wf_graph G.
Variables start goal : string.
Implicit Types parent : gmap string (option string).
Implicit Types dep : string → nat.

(** Every parent link points to a node that was already expanded. *)
Definition parents_visited (s : search_state) : Prop :=
  ∀ x y, s.1.2 !! x = Some (Some y) → y ∈ s.2.

Lemma parents_visited_step v fr parent visit fr' parent' :
  parents_visited (v :: fr, parent, visit) →
  (∀ x y, parent' !! x = Some (Some y) → y = v ∨ parent !! x = Some (Some y)) →
  parents_visited (fr', parent', visit ++ [v]).
Proof.
  intros Hpv Hpar x y. simpl. intros [->|Hxy%Hpv]%Hpar; apply elem_of_app.
  - right. by left.
  - by left.
Qed.

(** The invariant does not depend on which node is the goal, as long as
    that node was not expanded. *)
Lemma search_inv_regoal dep s g :
  search_inv G start goal dep s → g ∉ s.2 → search_inv G start g dep s.
Proof. intros [? ? ? ? ? ? ? ?] Hg. by split. Qed.

(** Depth along a chain of parent links falls by one per link. *)
Lemma back_dep parent dep x l :
  tree_inv G start parent dep → back parent x l →
  ∀ i y, l !! i = Some y → dep y + i = dep x.
Proof.
  intros Ht. induction 1 as [x Hx|x x' l Hx Hb IH]; intros i y Hi.
  - destruct i; simpl in Hi; [|done]. simplify_eq. lia.
  - destruct i as [|i]; simpl in Hi; [simplify_eq; lia|].
    apply IH in Hi. apply (tree_link _ _ _ _ Ht) in Hx as (_ & _ & Hd). lia.
Qed.

Lemma back_nodup parent dep x l :
  tree_inv G start parent dep → back parent x l → NoDup l.
Proof.
  intros Ht Hb. apply NoDup_alt. intros i j y Hi Hj.
  pose proof (back_dep _ _ _ _ Ht Hb i y Hi).
  pose proof (back_dep _ _ _ _ Ht Hb j y Hj). lia.
Qed.

Lemma back_visited parent x l visit fr :
  parents_visited (fr, parent, visit) → back parent x l →
  ∀ y, y ∈ l → y = x ∨ y ∈ visit.
Proof.
  intros Hpv. induction 1 as [x Hx|x x' l Hx Hb IH]; intros y Hy.
  - apply list_elem_of_singleton in Hy. by left.
  - apply elem_of_cons in Hy as [->|Hy]; [by left|]. right.
    destruct (IH y Hy) as [->|?]; [|done]. by apply (Hpv x).
Qed.

(** [reconstruct_path] on a discovered node returns the reversed chain of
    its parent links. *)
Lemma reconstruct_chain dep s fuel x :
  search_inv G start goal dep s → start ∈ nodes G → length (nodes G) < fuel →
  is_Some (s.1.2 !! x) →
  ∃ l, back s.1.2 x l ∧ length l = S (dep x) ∧
       walk G start x (reverse l) ∧
       reconstruct_path fuel s.1.2 start x = Ok (reverse l).
Proof.
  intros Hi Hs Hf Hx.
  destruct (tree_back G start _ _ (si_tree _ _ _ _ _ Hi) Hs (dep x) x eq_refl Hx)
    as (l & Hb & Hl & Hw).
  assert (dep x < length (nodes G)) as Hd.
  { eapply Nat.lt_le_trans; [|by eapply search_inv_length].
    apply (si_dep _ _ _ _ _ Hi), (si_keys _ _ _ _ _ Hi), Hx. }
  exists l. split_and!; [done..|].
  rewrite (reconstruct_back _ start x l) by (done || lia).
  unfold checked_path. apply walk_head in Hw.
  destruct (reverse l) as [|first l']; [done|].
  simpl in Hw. simplify_eq. by rewrite decide_True.
Qed.

(** BFS: nodes are expanded in order of depth, and the depth of an expanded
    node is its distance from [start]. *)
Definition bfs_order_inv dep (s : search_state) : Prop :=
  (∀ i j x y, i ≤ j → s.2 !! i = Some x → s.2 !! j = Some y → dep x ≤ dep y) ∧
  (∀ x p, x ∈ s.2 → walk G start x p → dep x ≤ length p - 1).

Lemma bfs_levels_visited dep v q parent visit x :
  bfs_levels G dep (v :: q, parent, visit) → x ∈ visit → dep x ≤ dep v.
Proof.
  intros (n & A & B & Hq & HA & HB & Hvis & _) Hx. simpl in *.
  apply Hvis in Hx.
  apply queue_split in Hq as [[-> ->]|(A' & -> & ->)].
  - rewrite (HB v); [lia|left].
  - rewrite (HA v); [lia|left].
Qed.

(** Taking the head [v] of the queue keeps [bfs_order_inv]. *)
Lemma bfs_order_push dep v q parent visit :
  search_inv G start goal dep (v :: q, parent, visit) →
  bfs_levels G dep (v :: q, parent, visit) →
  bfs_order_inv dep (v :: q, parent, visit) →
  bfs_order_inv dep (q, parent, visit ++ [v]).
Proof.
  intros Hi Hl [Hsorted Hmin]. simpl in *.
  assert (v ∉ visit) as Hv.
  { pose proof (si_nodup _ _ _ _ _ Hi) as Hnd. simpl in Hnd.
    apply NoDup_app in Hnd as (_ & Hdis & _). intros Hin.
    apply (Hdis v Hin). left. }
  split; simpl.
  - intros i j x y Hij Hx Hy.
    destruct (decide (j < length visit)) as [Hj|Hj].
    + rewrite lookup_app_l in Hx by lia. rewrite lookup_app_l in Hy by lia. eauto.
    + rewrite lookup_app_r in Hy by lia.
      destruct (j - length visit) as [|?] eqn:Hjl; simpl in Hy; [|done].
      simplify_eq.
      destruct (decide (i < length visit)) as [Hi'|Hi'].
      * rewrite lookup_app_l in Hx by lia.
        eapply bfs_levels_visited; [done|]. by eapply list_elem_of_lookup_2.
      * rewrite lookup_app_r in Hx by lia.
        destruct (i - length visit) as [|?]; simpl in Hx; [|done]. by simplify_eq.
  - intros x p Hx Hw. apply elem_of_app in Hx as [Hx|Hx]; [eauto|].
    apply list_elem_of_singleton in Hx. subst x.
    pose proof (search_inv_regoal dep _ v Hi Hv) as Hi'.
    destruct (bfs_depth_minimal G start v dep q parent visit Hi' Hl v p Hw)
      as [[_ ?]|?]; done.
Qed.

Lemma bfs_order_after dep v fr parent visit new fr' parent' :
  search_inv G start goal dep (v :: fr, parent, visit) →
  (∀ x, x ∈ new ↔ edge G v x ∧ parent !! x = None) →
  bfs_order_inv dep (fr, parent, visit ++ [v]) →
  bfs_order_inv (dep_after dep v new) (fr', parent', visit ++ [v]).
Proof.
  intros Hi Hnew [Hsorted Hmin]. simpl in *.
  assert (∀ x, x ∈ visit ++ [v] → dep_after dep v new x = dep x) as Hsame.
  { intros x Hx. unfold dep_after. rewrite decide_False; [done|].
    intros [_ Hn]%Hnew.
    assert (is_Some (parent !! x)) as [? ?]; [|congruence].
    apply (si_keys _ _ _ _ _ Hi). simpl.
    rewrite elem_of_app, elem_of_cons.
    apply elem_of_app in Hx as [? | ->%list_elem_of_singleton]; auto. }
  split; simpl.
  - intros i j x y Hij Hx Hy.
    rewrite !Hsame by (by eapply list_elem_of_lookup_2). eauto.
  - intros x p Hx Hw. rewrite Hsame by done. eauto.
Qed.

Lemma bfs_loop_layers fuel :
  start ∈ nodes G → length (nodes G) < fuel →
  ∃ s, while fuel search_cond (bfs_body G goal) ([start], {[start := None]}, [])
       = Ok s ∧
       search_post G start goal
         (λ dep s, bfs_levels G dep s ∧ parents_visited s ∧ bfs_order_inv dep s) s.
Proof.
  intros Hs Hf.
  apply (while_rule
           (λ s, ∃ dep, search_inv G start goal dep s ∧ bfs_levels G dep s ∧
                        parents_visited s ∧ bfs_order_inv dep s)
           _ (search_mu G)).
  - intros s (dep & Hi & Hl) Hc%search_cond_false. left. eauto.
  - intros s (dep & Hi & Hl & Hpv & Ho) (v & fr & Hc)%search_cond_true.
    destruct s as [[fr0 parent] visit]. simpl in Hc. simplify_eq.
    destruct (decide (v = goal)) as [->|Hne].
    + right. eexists. split.
      * unfold bfs_body. rewrite decide_True by done. done.
      * right. exists dep, visit. done.
    + left. destruct (bfs_body_continue G Hwf start goal _ _ _ _ _ Hi Hne)
        as (new & parent' & Hb & Hnd & Hnew & Hpar).
      eexists. split; [done|]. split.
      * eexists. split_and!.
        -- by eapply search_step.
        -- by eapply bfs_levels_step.
        -- eapply parents_visited_step; [exact Hpv|].
           intros x y. rewrite Hpar. case_decide; naive_solver.
        -- eapply bfs_order_after; [done..|]. by eapply bfs_order_push.
      * by eapply search_mu_step.
  - eexists. split; [by apply search_inv_init|]. split_and!.
    + exists 0, [start], []. simpl. split_and!; try done.
      * intros x Hx. by inversion Hx.
      * intros u w Hu. by inversion Hu.
    + intros x y. simpl. intros Hx%lookup_singleton_Some. naive_solver.
    + split; simpl; [intros i j x y _ Hx; done|intros x p Hx; by inversion Hx].
  - unfold search_mu. simpl. lia.
Qed.

Lemma dfs_loop_parents fuel :
  start ∈ nodes G → length (nodes G) < fuel →
  ∃ s, while fuel search_cond (dfs_body G goal) ([start], {[start := None]}, [])
       = Ok s ∧ search_post G start goal (λ _ s, parents_visited s) s.
Proof.
  intros Hs Hf.
  apply (while_rule
           (λ s, ∃ dep, search_inv G start goal dep s ∧ parents_visited s)
           _ (search_mu G)).
  - intros s (dep & Hi & Hpv) Hc%search_cond_false. left. eauto.
  - intros s (dep & Hi & Hpv) (v & fr & Hc)%search_cond_true.
    destruct s as [[fr0 parent] visit]. simpl in Hc. simplify_eq.
    destruct (decide (v = goal)) as [->|Hne].
    + right. eexists. split.
      * unfold dfs_body. rewrite decide_True by done. done.
      * right. exists dep, visit. done.
    + left. destruct (dfs_body_continue G Hwf start goal _ _ _ _ _ Hi Hne)
        as (new & parent' & Hb & Hnd & Hnew & Hpar).
      eexists. split; [done|]. split.
      * eexists. split.
        -- eapply search_step; [done..|].
           by rewrite reverse_Permutation, (comm (++)).
        -- eapply parents_visited_step; [exact Hpv|].
           intros x y. rewrite Hpar. case_decide; naive_solver.
      * by eapply search_mu_step.
  - eexists. split; [by apply search_inv_init|].
    intros x y. simpl. intros Hx%lookup_singleton_Some. naive_solver.
  - unfold search_mu. simpl. lia.
Qed.
(** What either search returns, given how its loop ended. *)
Lemma search_post_outcome X s fuel :
  search_post G start goal X s →
  (∀ dep s', X dep s' → parents_visited s') →
  start ∈ nodes G → length (nodes G) < fuel →
  ∃ path, reconstruct_path fuel s.1.2 start goal = Ok path ∧
    (reachable G start goal → walk G start goal path ∧ last s.2 = Some goal) ∧
    (¬ reachable G start goal →
       path = [] ∧ ∀ x, x ∈ s.2 ↔ reachable G start x) ∧
    (path = [] ∨ walk G start goal path) ∧
    NoDup path ∧
    (∀ x, x ∈ path → x ∈ s.2) ∧
    (∀ x, x ∈ s.2 → reachable G start x).
Proof.
  intros Hpost HX Hs Hf.
  destruct Hpost as [(dep & Hfr & Hi & HXs)|(dep & visit & Hv & Hi & HXs)].
  - assert (∀ x, x ∈ s.2 ↔ is_Some (s.1.2 !! x)) as Hkeys.
    { intros x. rewrite (si_keys _ _ _ _ _ Hi), Hfr, app_nil_r. done. }
    assert (∀ x, x ∈ s.2 ↔ reachable G start x) as Hreach.
    { intros x. split.
      - intros Hx%Hkeys.
        destruct (tree_back G start _ _ (si_tree _ _ _ _ _ Hi) Hs _ x eq_refl Hx)
          as (l & _ & _ & Hw). by eexists.
      - intros [p Hp]. apply Hkeys. by eapply exhausted_complete. }
    assert (¬ reachable G start goal) as Hnr.
    { intros Hr%Hreach. by apply (si_goal _ _ _ _ _ Hi). }
    exists []. split_and!.
    + apply reconstruct_absent.
      destruct (s.1.2 !! goal) eqn:Hg; [|done].
      exfalso. apply (si_goal _ _ _ _ _ Hi), Hkeys. rewrite Hg. eauto.
    + done.
    + done.
    + by left.
    + constructor.
    + intros x Hx. by inversion Hx.
    + intros x. apply Hreach.
  - assert (is_Some (s.1.2 !! goal)) as Hg.
    { apply (si_keys _ _ _ _ _ Hi). simpl. rewrite elem_of_app, elem_of_cons. auto. }
    destruct (reconstruct_chain dep _ fuel goal Hi Hs Hf Hg)
      as (l & Hb & Hl & Hw & Hp). simpl in *.
    exists (reverse l). split_and!.
    + done.
    + intros _. split; [done|]. rewrite Hv. apply last_snoc.
    + intros Hnr. destruct Hnr. by eexists.
    + by right.
    + rewrite reverse_Permutation. eapply back_nodup; [|done].
      apply (si_tree _ _ _ _ _ Hi).
    + intros x Hx. rewrite elem_of_reverse in Hx.
      rewrite Hv, elem_of_app, list_elem_of_singleton.
      destruct (back_visited _ _ _ _ _ (HX _ _ HXs) Hb x Hx); auto.
    + intros x Hx.
      assert (is_Some (s.1.2 !! x)) as Hk.
      { apply (si_keys _ _ _ _ _ Hi). simpl. rewrite Hv in Hx.
        rewrite elem_of_app, elem_of_cons.
        apply elem_of_app in Hx as [? | ->%list_elem_of_singleton]; auto. }
      destruct (tree_back G start _ _ (si_tree _ _ _ _ _ Hi) Hs _ x eq_refl Hk)
        as (l' & _ & _ & Hw'). by eexists.
Qed.

(** BFS: the depth of every expanded node is its distance from [start], and
    depths do not decrease along the visit order. *)
Lemma bfs_post_layers s :
  search_post G start goal
    (λ dep s, bfs_levels G dep s ∧ parents_visited s ∧ bfs_order_inv dep s) s →
  start ∈ nodes G →
  ∃ dist : string → nat,
    (∀ x, x ∈ s.2 →
       (∃ p, walk G start x p ∧ edge_count p = dist x) ∧
       (∀ p, walk G start x p → dist x ≤ edge_count p)) ∧
    (∀ i j x y, i ≤ j → s.2 !! i = Some x → s.2 !! j = Some y → dist x ≤ dist y).
Proof.
  intros Hpost Hs.
  assert (∃ dep s', search_inv G start goal dep s' ∧ bfs_order_inv dep (s'.1.1, s'.1.2, s.2) ∧
            ∀ x, x ∈ s.2 → is_Some (s'.1.2 !! x)) as (dep & s' & Hi & [Hsorted Hmin] & Hk).
  { destruct Hpost as [(dep & Hfr & Hi & Hl & _ & Ho)|(dep & visit & Hv & Hi & Hl & _ & Ho)].
    - exists dep, s. split_and!; [done|by destruct s as [[??]?]|].
      intros x Hx. apply (si_keys _ _ _ _ _ Hi), elem_of_app. by left.
    - exists dep, (goal :: s.1.1, s.1.2, visit). split_and!; [done| |].
      + simpl. rewrite Hv.
        pose proof (bfs_order_push dep goal _ _ _ Hi Hl Ho) as Hpush.
        destruct Hpush as [H1 H2]. by split.
      + intros x Hx. apply (si_keys _ _ _ _ _ Hi). simpl. rewrite Hv in Hx.
        rewrite elem_of_app, elem_of_cons.
        apply elem_of_app in Hx as [? | ->%list_elem_of_singleton]; auto. }
  simpl in *. exists dep. split; [|done].
  intros x Hx. split; [|by intros p Hp; apply Hmin].
  destruct (tree_back G start _ _ (si_tree _ _ _ _ _ Hi) Hs _ x eq_refl (Hk x Hx))
    as (l & _ & Hl & Hw).
  exists (reverse l). split; [done|].
  unfold edge_count. rewrite length_reverse. lia.
Qed.
End SearchMore.

(** What [bfs_path] and [dfs_path] return on a start node of the graph. *)
Definition search_outcome {W} (G : Graph W) (start goal : string)
    (path order : list string) : Prop :=
  (reachable G start goal → walk G start goal path ∧ last order = Some goal) ∧
  (¬ reachable G start goal → path = [] ∧ ∀ x, x ∈ order ↔ reachable G start x) ∧
  (path = [] ∨ walk G start goal path) ∧
  NoDup path ∧
  (∀ x, x ∈ path → x ∈ order) ∧
  (∀ x, x ∈ order → reachable G start x).

(** [dist x] is the distance from [start] of every node of [order], and it
    does not decrease along [order]. *)
Definition by_distance {W} (G : Graph W) (start : string)
    (order : list string) (dist : string → nat) : Prop :=
  (∀ x, x ∈ order →
     (∃ p, walk G start x p ∧ edge_count p = dist x) ∧
     (∀ p, walk G start x p → dist x ≤ edge_count p)) ∧
  (∀ i j x y, i ≤ j → order !! i = Some x → order !! j = Some y → dist x ≤ dist y).

Lemma bfs_path_outcome {W} (G : Graph W) (start goal : string) (fuel : nat) :
  wf_graph G → start ∈ nodes G → length (nodes G) < fuel →
  ∃ path order,
    bfs_path fuel G start goal = Ok (path, order) ∧
    search_outcome G start goal path order ∧
    (∃ dist, by_distance G start order dist) ∧
    (∀ p, walk G start goal p → edge_count path ≤ edge_count p).
Proof.
  intros Hwf Hs Hf.
  destruct (bfs_loop_layers G Hwf start goal fuel Hs Hf) as (s & Hloop & Hpost).
  destruct (search_post_outcome G start goal _ s fuel Hpost) as (path & Hp & Hout);
    [by intros dep s' (_ & ? & _)|done..|].
  exists path, s.2. unfold bfs_path. rewrite Hloop. simpl. rewrite Hp. simpl.
  split_and!; [done|done|by eapply bfs_post_layers|].
  intros p Hw.
  destruct Hpost as [(dep & Hq & Hi & _)|(dep & visit & Ho & Hi & Hl & _)].
  - destruct (exhausted_complete G start goal dep s goal p Hi Hq Hw) as [pg Hg].
    exfalso. apply (si_goal _ _ _ _ _ Hi).
    assert (is_Some (s.1.2 !! goal)) as Hk by eauto.
    apply (si_keys _ _ _ _ _ Hi) in Hk. by rewrite Hq, app_nil_r in Hk.
  - destruct (reconstruct_found G start goal dep _ fuel goal Hi Hs Hf)
      as (path' & Hp' & _ & Hlen).
    { apply (si_keys _ _ _ _ _ Hi). simpl. rewrite elem_of_app, elem_of_cons. auto. }
    simpl in Hp'. assert (path' = path) as -> by congruence.
    unfold edge_count. rewrite Hlen.
    destruct (bfs_depth_minimal G start goal dep _ _ visit Hi Hl goal p Hw)
      as [[_ ?]|?]; lia.
Qed.

Lemma dfs_path_outcome {W} (G : Graph W) (start goal : string) (fuel : nat) :
  wf_graph G → start ∈ nodes G → length (nodes G) < fuel →
  ∃ path order,
    dfs_path fuel G start goal = Ok (path, order) ∧
    search_outcome G start goal path order.
Proof.
  intros Hwf Hs Hf.
  destruct (dfs_loop_parents G Hwf start goal fuel Hs Hf) as (s & Hloop & Hpost).
  destruct (search_post_outcome G start goal _ s fuel Hpost) as (path & Hp & Hout);
    [by intros dep s' ?|done..|].
  exists path, s.2. unfold dfs_path. rewrite Hloop. simpl. rewrite Hp. simpl.
  done.
Qed.

(** A walk without repeated node from a node to itself is that node alone. *)
Lemma simple_walk_to_start {W} (G : Graph W) u x p :
  walk G u x p → x = u → NoDup p → p = [u].
Proof.
  destruct 1 as [|v x p Hw He]; [done|]. intros -> Hn.
  apply walk_head in Hw. destruct p as [|y p]; simplify_eq/=.
  apply NoDup_cons in Hn as [Hn _]. destruct Hn.
  apply elem_of_app. right. by left.
Qed.

Lemma edge_sym {W} (G : Graph W) u v : wf_graph G → edge G u v → edge G v u.
Proof. intros Hwf [r Hr]. exists r. by apply (wf_sym G Hwf). Qed.

Lemma reference_reachable :
  reachable (@build_network_topology unit) "ISP" "Camera_1".
Proof.
  exists ["ISP"; "Router"; "Switch"; "AP_2"; "IoT_Hub"; "Camera_1"].
  apply (is_walk_sound (@build_network_topology unit) "ISP" "ISP" ["ISP"]
           ["Router"; "Switch"; "AP_2"; "IoT_Hub"; "Camera_1"]).
  - constructor. by_compute.
  - vm_compute. reflexivity.
Qed.

Lemma reference_wf : wf_graph (@build_network_topology unit).
Proof. apply wf_graphb_sound. vm_compute. reflexivity. Qed.

Lemma islands_wf : wf_graph two_islands.
Proof. apply wf_graphb_sound. vm_compute. reflexivity. Qed.

Lemma islands_apart : ¬ reachable two_islands "A" "C".
Proof.
  intros Hr. apply (closed_under_edges_reachable two_islands ["A"; "B"]) in Hr.
  - revert Hr. by_compute.
  - vm_compute. reflexivity.
  - by_compute.
Qed.

(** ** Properties of [dfs_path] and [bfs_path] *)

(** X1. For a start node of the graph [dfs_path] returns a non-empty path
    exactly when [goal] is reachable from [start], and that path is then a
    walk of the graph from [start] to [goal]. *)
Theorem dfs_path_finds_goal {W} (G : Graph W) (start goal : string) (fuel : nat) :
  wf_graph G → start ∈ nodes G → length (nodes G) < fuel →
  ∃ path order,
    dfs_path fuel G start goal = Ok (path, order) ∧
    (path ≠ [] ↔ reachable G start goal) ∧
    (reachable G start goal → walk G start goal path).
Proof.
  intros Hwf Hs Hf.
  destruct (dfs_path_outcome G start goal fuel Hwf Hs Hf)
    as (path & order & Hrun & Hr & Hnr & Hcase & _).
  exists path, order. split_and!; [done| |by intros [? _]%Hr].
  split.
  - intros Hne. destruct Hcase as [?|Hw]; [done|by eexists].
  - intros [Hw _]%Hr ->. apply walk_head in Hw. done.
Qed.

Lemma dfs_path_finds_goal_witness :
  ∃ path order,
    dfs_path 18 (@build_network_topology unit) "ISP" "Camera_1" = Ok (path, order) ∧
    (path ≠ [] ↔ reachable (@build_network_topology unit) "ISP" "Camera_1") ∧
    (reachable (@build_network_topology unit) "ISP" "Camera_1" →
     walk (@build_network_topology unit) "ISP" "Camera_1" path).
Proof.
  apply (dfs_path_finds_goal (@build_network_topology unit) "ISP" "Camera_1" 18).
  - apply wf_graphb_sound. vm_compute. reflexivity.
  - by_compute.
  - vm_compute. lia.
Defined.

(** X2. The path returned by either search repeats no node, and each of its
    nodes appears in the visit order returned with it. *)
Theorem returned_path_simple_and_visited {W} (G : Graph W)
    (start goal : string) (fuel : nat) :
  wf_graph G → start ∈ nodes G → length (nodes G) < fuel →
  (∃ path order, bfs_path fuel G start goal = Ok (path, order) ∧
                 NoDup path ∧ ∀ x, x ∈ path → x ∈ order) ∧
  (∃ path order, dfs_path fuel G start goal = Ok (path, order) ∧
                 NoDup path ∧ ∀ x, x ∈ path → x ∈ order).
Proof.
  intros Hwf Hs Hf. split.
  - destruct (bfs_path_outcome G start goal fuel Hwf Hs Hf)
      as (path & order & Hrun & (_ & _ & _ & Hn & Hsub & _) & _). eauto.
  - destruct (dfs_path_outcome G start goal fuel Hwf Hs Hf)
      as (path & order & Hrun & (_ & _ & _ & Hn & Hsub & _)). eauto.
Qed.

Lemma returned_path_simple_and_visited_witness :
  (∃ path order,
     bfs_path 18 (@build_network_topology unit) "Phone_1" "Printer" = Ok (path, order) ∧
     NoDup path ∧ ∀ x, x ∈ path → x ∈ order) ∧
  (∃ path order,
     dfs_path 18 (@build_network_topology unit) "Phone_1" "Printer" = Ok (path, order) ∧
     NoDup path ∧ ∀ x, x ∈ path → x ∈ order).
Proof.
  apply (returned_path_simple_and_visited (@build_network_topology unit)
           "Phone_1" "Printer" 18).
  - apply wf_graphb_sound. vm_compute. reflexivity.
  - by_compute.
  - vm_compute. lia.
Defined.

(** X3. Every node of the visit order of either search is reachable from
    [start]; when [goal] is reachable it is the last node visited. *)
Theorem visit_order_reachable_ends_at_goal {W} (G : Graph W)
    (start goal : string) (fuel : nat) :
  wf_graph G → start ∈ nodes G → length (nodes G) < fuel →
  (∃ path order, bfs_path fuel G start goal = Ok (path, order) ∧
     (∀ x, x ∈ order → reachable G start x) ∧
     (reachable G start goal → last order = Some goal)) ∧
  (∃ path order, dfs_path fuel G start goal = Ok (path, order) ∧
     (∀ x, x ∈ order → reachable G start x) ∧
     (reachable G start goal → last order = Some goal)).
Proof.
  intros Hwf Hs Hf. split.
  - destruct (bfs_path_outcome G start goal fuel Hwf Hs Hf)
      as (path & order & Hrun & (Hr & _ & _ & _ & _ & Hvis) & _).
    exists path, order. split_and!; [done..|by intros [_ ?]%Hr].
  - destruct (dfs_path_outcome G start goal fuel Hwf Hs Hf)
      as (path & order & Hrun & (Hr & _ & _ & _ & _ & Hvis)).
    exists path, order. split_and!; [done..|by intros [_ ?]%Hr].
Qed.

Lemma visit_order_reachable_ends_at_goal_witness :
  (∃ path order,
     bfs_path 18 (@build_network_topology unit) "ISP" "Switch" = Ok (path, order) ∧
     (∀ x, x ∈ order → reachable (@build_network_topology unit) "ISP" x) ∧
     (reachable (@build_network_topology unit) "ISP" "Switch" →
      last order = Some "Switch")) ∧
  (∃ path order,
     dfs_path 18 (@build_network_topology unit) "ISP" "Switch" = Ok (path, order) ∧
     (∀ x, x ∈ order → reachable (@build_network_topology unit) "ISP" x) ∧
     (reachable (@build_network_topology unit) "ISP" "Switch" →
      last order = Some "Switch")).
Proof.
  apply (visit_order_reachable_ends_at_goal (@build_network_topology unit)
           "ISP" "Switch" 18).
  - apply wf_graphb_sound. vm_compute. reflexivity.
  - by_compute.
  - vm_compute. lia.
Defined.

(** X4. When [goal] cannot be reached from [start], the visit order of
    either search lists exactly the nodes reachable from [start]. *)
Theorem visit_order_unreachable_goal {W} (G : Graph W)
    (start goal : string) (fuel : nat) :
  wf_graph G → start ∈ nodes G → ¬ reachable G start goal →
  length (nodes G) < fuel →
  (∃ path order, bfs_path fuel G start goal = Ok (path, order) ∧
                 ∀ x, x ∈ order ↔ reachable G start x) ∧
  (∃ path order, dfs_path fuel G start goal = Ok (path, order) ∧
                 ∀ x, x ∈ order ↔ reachable G start x).
Proof.
  intros Hwf Hs Hnr Hf. split.
  - destruct (bfs_path_outcome G start goal fuel Hwf Hs Hf)
      as (path & order & Hrun & (_ & Hno & _) & _).
    destruct (Hno Hnr) as [_ Hall]. eauto.
  - destruct (dfs_path_outcome G start goal fuel Hwf Hs Hf)
      as (path & order & Hrun & (_ & Hno & _)).
    destruct (Hno Hnr) as [_ Hall]. eauto.
Qed.

Lemma visit_order_unreachable_goal_witness :
  (∃ path order, bfs_path 4 two_islands "A" "C" = Ok (path, order) ∧
                 ∀ x, x ∈ order ↔ reachable two_islands "A" x) ∧
  (∃ path order, dfs_path 4 two_islands "A" "C" = Ok (path, order) ∧
                 ∀ x, x ∈ order ↔ reachable two_islands "A" x).
Proof.
  apply (visit_order_unreachable_goal two_islands "A" "C" 4).
  - apply wf_graphb_sound. vm_compute. reflexivity.
  - by_compute.
  - apply islands_apart.
  - vm_compute. lia.
Defined.

(** X5. [bfs_path] visits nodes in order of their distance from [start]:
    there is a function giving, for every visited node, the least number of
    edges of a walk from [start] to it, and it does not decrease along the
    visit order. *)
Theorem bfs_visit_order_by_distance {W} (G : Graph W)
    (start goal : string) (fuel : nat) :
  wf_graph G → start ∈ nodes G → length (nodes G) < fuel →
  ∃ path order (dist : string → nat),
    bfs_path fuel G start goal = Ok (path, order) ∧
    (∀ x, x ∈ order →
       (∃ p, walk G start x p ∧ edge_count p = dist x) ∧
       (∀ p, walk G start x p → dist x ≤ edge_count p)) ∧
    (∀ i j x y, i ≤ j → order !! i = Some x → order !! j = Some y →
       dist x ≤ dist y).
Proof.
  intros Hwf Hs Hf.
  destruct (bfs_path_outcome G start goal fuel Hwf Hs Hf)
    as (path & order & Hrun & _ & (dist & Hd & Hsorted) & _).
  by exists path, order, dist.
Qed.

Lemma bfs_visit_order_by_distance_witness :
  ∃ path order (dist : string → nat),
    bfs_path 18 (@build_network_topology unit) "ISP" "Camera_1" = Ok (path, order) ∧
    (∀ x, x ∈ order →
       (∃ p, walk (@build_network_topology unit) "ISP" x p ∧ edge_count p = dist x) ∧
       (∀ p, walk (@build_network_topology unit) "ISP" x p → dist x ≤ edge_count p)) ∧
    (∀ i j x y, i ≤ j → order !! i = Some x → order !! j = Some y →
       dist x ≤ dist y).
Proof.
  apply (bfs_visit_order_by_distance (@build_network_topology unit)
           "ISP" "Camera_1" 18).
  - apply wf_graphb_sound. vm_compute. reflexivity.
  - by_compute.
  - vm_compute. lia.
Defined.

(** X6. If the graph has only one walk without repeated node from [start]
    to [goal], [bfs_path] and [dfs_path] return that same path. *)
Theorem unique_simple_path_agreement {W} (G : Graph W)
    (start goal : string) (fuel : nat) (p : list string) :
  wf_graph G → start ∈ nodes G → length (nodes G) < fuel →
  walk G start goal p →
  (∀ q, walk G start goal q → NoDup q → q = p) →
  (∃ order, bfs_path fuel G start goal = Ok (p, order)) ∧
  (∃ order, dfs_path fuel G start goal = Ok (p, order)).
Proof.
  intros Hwf Hs Hf Hp Huniq.
  assert (reachable G start goal) as Hreach by by eexists.
  split.
  - destruct (bfs_path_outcome G start goal fuel Hwf Hs Hf)
      as (path & order & Hrun & (Hr & _ & _ & Hn & _) & _).
    destruct (Hr Hreach) as [Hw _].
    rewrite <- (Huniq path Hw Hn). eauto.
  - destruct (dfs_path_outcome G start goal fuel Hwf Hs Hf)
      as (path & order & Hrun & (Hr & _ & _ & Hn & _)).
    destruct (Hr Hreach) as [Hw _].
    rewrite <- (Huniq path Hw Hn). eauto.
Qed.

Lemma unique_simple_path_agreement_witness :
  (∃ order, bfs_path 4 two_islands "A" "B" = Ok (["A"; "B"], order)) ∧
  (∃ order, dfs_path 4 two_islands "A" "B" = Ok (["A"; "B"], order)).
Proof.
  apply (unique_simple_path_agreement two_islands "A" "B" 4 ["A"; "B"]).
  - apply wf_graphb_sound. vm_compute. reflexivity.
  - by_compute.
  - vm_compute. lia.
  - apply (walk_snoc two_islands "A" "A" "B" ["A"]).
    + constructor. by_compute.
    + by_compute.
  - intros q Hq Hn. inversion Hq as [|v x q' Hw He]; subst.
    apply (edge_sym _ _ _ islands_wf) in He.
    assert (v = "A") as ->.
    { apply (edge_neighbors two_islands "B" v ["A"]) in He; [|reflexivity].
      by apply list_elem_of_singleton in He. }
    apply NoDup_app in Hn as [Hn _].
    by rewrite (simple_walk_to_start _ _ _ _ Hw eq_refl Hn).
Defined.

(** ** [reconstruct_path] on parent maps the searches never build *)

Section ReconstructMore.
Implicit Types parent : gmap string (option string).

(** [dangling parent x c n]: [n] parent links lead from [x] to [c], and [c]
    has no entry in [parent]. *)
Inductive dangling parent : string → string → nat → Prop :=
| dangling_here x c :
    parent !! x = Some (Some c) → parent !! c = None → dangling parent x c 1
| dangling_step x y c n :
    parent !! x = Some (Some y) → dangling parent y c n →
    dangling parent x c (S n).

Lemma reconstruct_loop_dangling parent x c n :
  dangling parent x c n →
  ∀ fuel acc, n < fuel →
    while fuel reconstruct_cond (reconstruct_body parent) (Some x, acc)
    = Raise (KeyError c).
Proof.
  induction 1 as [x c Hx Hc|x y c n Hx Hd IH]; intros fuel acc Hf.
  - destruct fuel as [|[|fuel]]; [lia..|]. simpl.
    unfold reconstruct_body at 1. simpl. rewrite Hx.
    unfold reconstruct_body. simpl. by rewrite Hc.
  - destruct fuel as [|fuel]; [lia|]. simpl.
    unfold reconstruct_body at 1. simpl. rewrite Hx.
    apply IH. lia.
Qed.

Lemma reconstruct_loop_endless parent (P : string → Prop) :
  (∀ x, P x → ∃ y, parent !! x = Some (Some y) ∧ P y) →
  ∀ fuel x acc, P x →
    while fuel reconstruct_cond (reconstruct_body parent) (Some x, acc)
    = OutOfFuel.
Proof.
  intros Hclosed. induction fuel as [|fuel IH]; intros x acc Hx; [done|].
  destruct (Hclosed x Hx) as (y & Hxy & Hy). simpl.
  unfold reconstruct_body at 1. simpl. rewrite Hxy. by apply IH.
Qed.
End ReconstructMore.

(** X7. If the parent links followed from [goal] lead to a node that has no
    entry in [parent], [reconstruct_path] raises [KeyError] for that node. *)
Theorem reconstruct_path_key_error
    (parent : gmap string (option string)) (start goal c : string) (n fuel : nat) :
  dangling parent goal c n → n < fuel →
  reconstruct_path fuel parent start goal = Raise (KeyError c).
Proof.
  intros Hd Hf. unfold reconstruct_path.
  assert (is_Some (parent !! goal)) as [pg ->] by (destruct Hd; eauto).
  by rewrite (reconstruct_loop_dangling _ _ _ _ Hd).
Qed.

Lemma reconstruct_path_key_error_witness :
  reconstruct_path 3 {["C" := Some "B"; "B" := Some "A"]} "A" "C"
  = Raise (KeyError "A").
Proof.
  apply (reconstruct_path_key_error _ "A" "C" "A" 2 3); [|lia].
  apply dangling_step with "B"; [done|]. by apply dangling_here.
Defined.

(** X8. If the parent links followed from [goal] never reach [None] (they
    stay in a set of nodes each of which has a parent in the set, as on a
    cycle), the loop of [reconstruct_path] does not end: no number of
    iterations is enough. *)
Theorem reconstruct_path_cycle_diverges
    (parent : gmap string (option string)) (start goal : string)
    (P : string → Prop) :
  (∀ x, P x → ∃ y, parent !! x = Some (Some y) ∧ P y) → P goal →
  ∀ fuel, reconstruct_path fuel parent start goal = OutOfFuel.
Proof.
  intros Hclosed Hg fuel. unfold reconstruct_path.
  destruct (Hclosed goal Hg) as (y & -> & _).
  by rewrite (reconstruct_loop_endless parent P).
Qed.

Lemma reconstruct_path_cycle_diverges_witness :
  reconstruct_path 1000 {["A" := Some "B"; "B" := Some "A"]} "A" "B" = OutOfFuel.
Proof.
  apply (reconstruct_path_cycle_diverges _ "A" "B" (λ x, x = "A" ∨ x = "B")).
  - intros x [->| ->]; [exists "B"|exists "A"]; auto.
  - by right.
Defined.

(** ** More on [dijkstra_from_source] and the all-pairs table *)

(** X9. [dijkstra_from_source] from a node that is not in the graph raises
    the error of [G.neighbors(start)] in its first iteration. *)
Theorem dijkstra_absent_start_raises {W} `{Arith W} (G : Graph W)
    (start : string) (fuel : nat) :
  wf_graph G → start ∉ nodes G → w_ltb w_zero w_zero = false → 0 < fuel →
  dijkstra_from_source fuel G start = Raise (NetworkXError start).
Proof.
  intros Hwf Hs Hz Hf. destruct fuel as [|fuel]; [lia|].
  unfold dijkstra_from_source. simpl.
  unfold dijkstra_body. simpl. rewrite lookup_insert_eq, Hz.
  by rewrite (neighbors_absent G start Hwf Hs).
Qed.

Lemma dijkstra_absent_start_raises_witness :
  dijkstra_from_source 1 float_topology "Modem" = Raise (NetworkXError "Modem").
Proof.
  apply (dijkstra_absent_start_raises float_topology "Modem" 1).
  - apply wf_graphb_sound. vm_compute. reflexivity.
  - by_compute.
  - vm_compute. reflexivity.
  - lia.
Defined.

(** X10. In binary64, the distances [dijkstra_from_source] returns cannot be
    improved through any edge: [dist[v] <= dist[u] + w] for every edge
    [(u, v)] of weight [w]. *)
Theorem dijkstra_edges_relaxed (G : Graph float) (start : string)
    (fuel : nat) :
  wf_graph G → positive_weights G → start ∈ nodes G →
  dijkstra_bound G < fuel →
  ∃ dist,
    dijkstra_from_source fuel G start = Ok dist ∧
    ∀ u v w du, wedge G u v w → dist !! u = Some du →
      ∃ dv, dist !! v = Some dv ∧ (dv <=? du + w)%float = true.
Proof.
  intros Hwf Hpos Hs Hf.
  destruct (dijkstra_loop_binary64 G Hwf Hpos start fuel Hs Hf)
    as (dist & Hd & Hfinal).
  exists dist. split; [done|]. apply (sb_relaxed _ _ _ Hfinal).
Qed.

Lemma dijkstra_edges_relaxed_witness :
  ∃ dist,
    dijkstra_from_source 40 float_topology "ISP" = Ok dist ∧
    ∀ u v w du, wedge float_topology u v w → dist !! u = Some du →
      ∃ dv, dist !! v = Some dv ∧ (dv <=? du + w)%float = true.
Proof.
  apply (dijkstra_edges_relaxed float_topology "ISP" 40).
  - apply float_topology_wf.
  - apply float_topology_positive.
  - by_compute.
  - vm_compute. lia.
Defined.

Section DistanceMatrix.
Context {W : Type}.
Implicit Types t : gmap string (gmap string W).

(** What a cell shows once its distance is known. *)
Definition shown (src dst : string) (d : W) : cell :=
  if decide (src = dst) then Text "0" else Fixed4 d.

Lemma matrix_row_loop t src dists (l : list string) :
  t !! src = Some dists →
  ∀ ds row0,
    Forall2 (λ dst d, dists !! dst = Some d) l ds →
    for_each l
      (λ row dst,
         match t !! src with
         | None => Raise (KeyError src)
         | Some dists =>
             match dists !! dst with
             | None => Raise (KeyError dst)
             | Some d =>
                 Ok (row ++ [if decide (src = dst) then Text "0" else Fixed4 d])
             end
         end) row0
    = Ok (row0 ++ zip_with (shown src) l ds).
Proof.
  intros Ht.
  match goal with |- context [for_each l ?f] => set (body := f) end.
  induction l as [|dst l IH]; intros ds row0 Hds.
  - apply Forall2_nil_inv_l in Hds as ->. simpl. by rewrite app_nil_r.
  - apply Forall2_cons_inv_l in Hds as (d & ds' & Hd & Hds' & ->).
    cbn [for_each]. unfold body at 1. rewrite Ht, Hd. cbn [rbind].
    rewrite (IH ds') by done. simpl. by rewrite <- app_assoc.
Qed.

(** Every pair of nodes has an entry in [t]. *)
Definition covers t (l : list string) : Prop :=
  ∀ a b, a ∈ l → b ∈ l → is_Some (table_get t a b).

Lemma covers_row t l src :
  covers t l → src ∈ l →
  ∃ dists ds, t !! src = Some dists ∧
              Forall2 (λ dst d, dists !! dst = Some d) l ds.
Proof.
  intros Hc Hsrc. destruct (Hc src src Hsrc Hsrc) as [d0 Hd0].
  unfold table_get in Hd0. destruct (t !! src) as [dists|] eqn:Ht; [|done].
  exists dists.
  assert (∀ dst, dst ∈ l → is_Some (dists !! dst)) as Hall.
  { intros dst Hdst. destruct (Hc src dst Hsrc Hdst) as [d Hd].
    unfold table_get in Hd. rewrite Ht in Hd. eauto. }
  clear Hc Hsrc Hd0. induction l as [|dst l IH].
  - exists []. split; [done|constructor].
  - destruct IH as (ds & _ & Hds); [intros; apply Hall; by right|].
    destruct (Hall dst) as [d Hd]; [left|].
    exists (d :: ds). split; [done|by constructor].
Qed.

Lemma matrix_rows_loop t (nodes l : list string) :
  covers t nodes → (∀ a, a ∈ l → a ∈ nodes) →
  ∀ rows0, ∃ rows,
    for_each l
      (λ rows src, row ←r matrix_row t nodes src; Ok (rows ++ [row])) rows0
    = Ok (rows0 ++ rows) ∧
    Forall2 (λ src row,
               ∃ dists ds, t !! src = Some dists ∧
                 Forall2 (λ dst d, dists !! dst = Some d) nodes ds ∧
                 row = Text src :: zip_with (shown src) nodes ds) l rows.
Proof.
  intros Hc. induction l as [|src l IH]; intros Hl rows0.
  - exists []. split; [by rewrite app_nil_r|constructor].
  - destruct (covers_row t nodes src Hc) as (dists & ds & Ht & Hds);
      [apply Hl; left|].
    cbn [for_each]. unfold matrix_row at 1.
    rewrite (matrix_row_loop t src dists nodes Ht ds) by done. cbn [rbind].
    destruct (IH (λ a Ha, Hl a (proj2 (elem_of_cons l a src) (or_intror Ha)))
                 (rows0 ++ [[Text src] ++ zip_with (shown src) nodes ds]))
      as (rows & Hfor & Hrows).
    eexists (_ :: rows). split.
    + rewrite Hfor. by rewrite <- app_assoc.
    + constructor; [|done]. exists dists, ds. done.
Qed.
End DistanceMatrix.

(** X11. In binary64, on a graph with positive finite weights, the table of
    [all_pairs_shortest_distances] has an entry [all_pairs[a][b]] exactly
    for the pairs of nodes of the graph. *)
Theorem all_pairs_table_domain (G : Graph float) (fuel : nat) :
  wf_graph G → positive_weights G → dijkstra_bound G < fuel →
  ∃ t,
    all_pairs_shortest_distances fuel G = Ok t ∧
    ∀ a b, is_Some (table_get t a b) ↔ a ∈ nodes G ∧ b ∈ nodes G.
Proof.
  intros Hwf Hpos Hf.
  destruct (all_pairs_loop G fuel (nodes G))
    with (t0 := ∅ : gmap string (gmap string float))
    as (t & Ht & Hrows & Hrest).
  { intros a Ha.
    destruct (dijkstra_loop_binary64 G Hwf Hpos a fuel Ha Hf) as (dist & ? & _).
    eauto. }
  exists t. split; [done|]. intros a b. unfold table_get.
  destruct (decide (a ∈ nodes G)) as [Ha|Ha].
  - destruct (Hrows a Ha) as (dist & -> & Hdist). simpl.
    destruct (dijkstra_loop_binary64 G Hwf Hpos a fuel Ha Hf)
      as (dist' & Hd' & Hfinal).
    assert (dist' = dist) as -> by congruence.
    rewrite (sb_dom _ _ _ Hfinal b). tauto.
  - rewrite (Hrest a Ha), lookup_empty. simpl.
    split; [by intros [? ?]|by intros [? _]].
Qed.

Lemma all_pairs_table_domain_witness :
  ∃ t,
    all_pairs_shortest_distances 40 float_topology = Ok t ∧
    ∀ a b, is_Some (table_get t a b) ↔
           a ∈ nodes float_topology ∧ b ∈ nodes float_topology.
Proof.
  apply (all_pairs_table_domain float_topology 40).
  - apply float_topology_wf.
  - apply float_topology_positive.
  - vm_compute. lia.
Defined.

(** X12. On a table that has an entry for every pair of nodes,
    [print_distance_matrix] raises no [KeyError] and produces one row per
    node, in node order: the node's name, then for every node the text "0"
    on the diagonal and the tabulated distance elsewhere. *)
Theorem print_distance_matrix_rows {W} (G : Graph W)
    (t : gmap string (gmap string W)) :
  (∀ a b, a ∈ nodes G → b ∈ nodes G → is_Some (table_get t a b)) →
  ∃ rows,
    print_distance_matrix G t = Ok rows ∧
    length rows = length (nodes G) ∧
    ∀ i src, nodes G !! i = Some src →
      ∃ row, rows !! i = Some row ∧
        length row = S (length (nodes G)) ∧
        row !! 0 = Some (Text src) ∧
        ∀ j dst d, nodes G !! j = Some dst → table_get t src dst = Some d →
          row !! S j = Some (if decide (src = dst) then Text "0" else Fixed4 d).
Proof.
  intros Hc.
  destruct (matrix_rows_loop t (nodes G) (nodes G) Hc (λ a Ha, Ha) [])
    as (rows & Hfor & Hrows).
  exists rows. split; [done|]. split; [symmetry; by eapply Forall2_length|].
  intros i src Hi.
  destruct (Forall2_lookup_l _ _ _ _ _ Hrows Hi)
    as (row & Hrow & dists & ds & Ht & Hds & ->).
  exists (Text src :: zip_with (shown src) (nodes G) ds). split_and!; [done| |done|].
  - simpl. rewrite length_zip_with.
    apply Forall2_length in Hds. lia.
  - intros j dst d Hj Hd. simpl.
    destruct (Forall2_lookup_l _ _ _ _ _ Hds Hj) as (d' & Hd' & Hdd).
    unfold table_get in Hd. rewrite Ht in Hd. simpl in Hd.
    assert (d' = d) as -> by congruence.
    rewrite lookup_zip_with, Hj. simpl. rewrite Hd'. done.
Qed.

Lemma print_distance_matrix_rows_witness :
  ∃ rows,
    print_distance_matrix two_islands
      (gset_to_gmap (gset_to_gmap tt (list_to_set ["A"; "B"; "C"]))
                    (list_to_set ["A"; "B"; "C"])) = Ok rows ∧
    length rows = length (nodes two_islands) ∧
    ∀ i src, nodes two_islands !! i = Some src →
      ∃ row, rows !! i = Some row ∧
        length row = S (length (nodes two_islands)) ∧
        row !! 0 = Some (Text src) ∧
        ∀ j dst d, nodes two_islands !! j = Some dst →
          table_get (gset_to_gmap (gset_to_gmap tt (list_to_set ["A"; "B"; "C"]))
                                  (list_to_set ["A"; "B"; "C"])) src dst = Some d →
          row !! S j = Some (if decide (src = dst) then Text "0" else Fixed4 d).
Proof.
  apply (print_distance_matrix_rows two_islands).
  intros a b Ha Hb. unfold table_get.
  assert (∀ x, x ∈ nodes two_islands →
               x ∈ (list_to_set ["A"; "B"; "C"] : gset string)) as Hin.
  { intros x Hx. by apply elem_of_list_to_set. }
  rewrite lookup_gset_to_gmap, option_guard_True by by apply Hin.
  simpl. rewrite lookup_gset_to_gmap, option_guard_True by by apply Hin.
  eauto.
Defined.

(** ** More on [add_edge_weights] *)

Section EdgesMore.
Context {W : Type}.
Implicit Types G : Graph W.

(** [G.edges] from the adjacency entries that are left, given the nodes
    already seen. *)
Fixpoint edges_from (seen : list string)
    (l : list (string * list (string * nat))) : list (string * string * nat) :=
  match l with
  | [] => []
  | (n, nbrs) :: l' =>
      omap (λ '(nbr, r), if bool_decide (nbr ∈ seen) then None
                         else Some (n, nbr, r)) nbrs
      ++ edges_from (n :: seen) l'
  end.

Lemma edges_unfold G : edges G = edges_from [] (g_adj G).
Proof.
  unfold edges.
  assert (∀ l seen out,
            (foldl (λ '(seen, out) '(n, nbrs),
                      (n :: seen,
                       out ++ omap (λ '(nbr, r),
                                      if bool_decide (nbr ∈ seen) then None
                                      else Some (n, nbr, r)) nbrs))
                   (seen, out) l).2 = out ++ edges_from seen l) as Hgen.
  { induction l as [|[n nbrs] l IH]; intros seen out; simpl.
    - by rewrite app_nil_r.
    - rewrite IH. by rewrite <- app_assoc. }
  apply (Hgen (g_adj G) [] []).
Qed.

(** Every edge is listed by [G.edges], from one endpoint or the other. *)
Lemma edges_from_cover u v r l :
  ∀ seen, u ∉ seen → v ∉ seen →
    (dict_get u l ≫= dict_get v) = Some r →
    (dict_get v l ≫= dict_get u) = Some r →
    r ∈ (edges_from seen l).*2.
Proof.
  induction l as [|[n nbrs] l IH]; intros seen Hu Hv Huv Hvu; [done|].
  simpl in *. rewrite fmap_app, elem_of_app.
  destruct (decide (u = n)) as [->|Hun].
  - left. simpl in Huv. apply dict_get_Some_elem in Huv.
    apply list_elem_of_fmap. exists (n, v, r). split; [done|].
    apply list_elem_of_omap. exists (v, r). split; [done|].
    by rewrite bool_decide_eq_false_2.
  - destruct (decide (v = n)) as [->|Hvn].
    + left. simpl in Hvu. apply dict_get_Some_elem in Hvu.
      apply list_elem_of_fmap. exists (n, u, r). split; [done|].
      apply list_elem_of_omap. exists (u, r). split; [done|].
      by rewrite bool_decide_eq_false_2.
    + right. apply IH; [|  |done..].
      * by intros [?|?]%elem_of_cons.
      * by intros [?|?]%elem_of_cons.
Qed.

Lemma edges_cover G u v r :
  wf_graph G → adj G u v = Some r → r ∈ (edges G).*2.
Proof.
  intros Hwf Huv. rewrite edges_unfold.
  apply (edges_from_cover u v); [apply not_elem_of_nil..|done|].
  by apply (wf_sym G Hwf).
Qed.

Lemma edge_data_adj G u v data :
  edge_data G u v = Ok data ↔ ∃ r, adj G u v = Some r ∧ g_data G !! r = Some data.
Proof.
  unfold edge_data, adj.
  destruct (dict_get u (g_adj G)) as [nbrs|]; simpl; [|naive_solver].
  destruct (dict_get v nbrs) as [r|]; [|naive_solver].
  destruct (g_data G !! r) as [d|] eqn:Hd; naive_solver.
Qed.
End EdgesMore.

Section WeightsMore.
Context {W : Type} `{Arith W}.
Implicit Types G : Graph W.

(** A run of the loop of [add_edge_weights] that succeeds keeps nodes and
    adjacency, leaves in every dictionary it visits a value that
    [set_weight] maps to itself, and leaves the other dictionaries alone. *)
Lemma add_edge_weights_loop_inv (es : list (string * string * nat)) :
  ∀ G G',
    for_each es
      (λ G '(u, v, r),
         match g_data G !! r with
         | None => Raise (KeyError v)
         | Some data =>
             data' ←r set_weight data;
             Ok (mkGraph (g_node G) (g_adj G) (<[r := data']> (g_data G)))
         end) G = Ok G' →
    g_node G' = g_node G ∧ g_adj G' = g_adj G ∧
    (∀ r, r ∈ es.*2 → ∃ d, g_data G' !! r = Some d ∧ set_weight d = Ok d) ∧
    (∀ r, r ∉ es.*2 → g_data G' !! r = g_data G !! r).
Proof.
  induction es as [|[[u v] r] es IH]; intros G G'; cbn [for_each].
  - intros [= <-]. split_and!; [done..| |done]. by intros r ?%elem_of_nil.
  - destruct (g_data G !! r) as [data|] eqn:Hdata; [|done].
    destruct (set_weight data) as [data'| |] eqn:Hset; [|done..]. cbn [rbind].
    intros (Hn & Ha & Hvis & Hrest)%IH. simpl in *.
    split_and!; [done..| |].
    + intros r' Hr'. destruct (decide (r' ∈ es.*2)) as [Hin|Hin]; [by apply Hvis|].
      apply elem_of_cons in Hr' as [->|?]; [|done].
      rewrite (Hrest r Hin). exists data'. split.
      * apply list_lookup_insert_eq. by eapply lookup_lt_Some.
      * by eapply set_weight_idem.
    + intros r' Hr'. apply not_elem_of_cons in Hr' as [Hne Hin].
      rewrite (Hrest r' Hin). by apply list_lookup_insert_ne.
Qed.

Lemma add_edge_weights_loop_fixed (es : list (string * string * nat)) G :
  (∀ r, r ∈ es.*2 → ∃ d, g_data G !! r = Some d ∧ set_weight d = Ok d) →
  for_each es
    (λ G '(u, v, r),
       match g_data G !! r with
       | None => Raise (KeyError v)
       | Some data =>
           data' ←r set_weight data;
           Ok (mkGraph (g_node G) (g_adj G) (<[r := data']> (g_data G)))
       end) G = Ok G.
Proof.
  induction es as [|[[u v] r] es IH]; intros Hfix; cbn [for_each]; [done|].
  destruct (Hfix r) as (d & Hd & Hset); [left|].
  rewrite Hd, Hset. cbn [rbind]. rewrite list_insert_id by done.
  destruct G as [gn ga gd]. simpl in *. apply IH.
  intros r' Hr'. apply Hfix. by right.
Qed.
End WeightsMore.

(** X13. [add_edge_weights] changes neither the nodes nor the adjacency, and
    gives every edge, read from either endpoint, the weight
    [1.0 / max(speed_mbps, 1)] whatever weight it had, keeping its other
    attributes. *)
Theorem add_edge_weights_all_edges {W} `{Arith W} (G : Graph W) :
  wf_graph G → edges_valid G →
  (∀ data, data ∈ g_data G → is_Some (w_of_int (clamped_speed data))) →
  ∃ G',
    add_edge_weights G = Ok G' ∧
    g_node G' = g_node G ∧ g_adj G' = g_adj G ∧
    ∀ u v data, edge_data G u v = Ok data →
      ∃ s, w_of_int (clamped_speed data) = Some s ∧
           edge_data G' u v
           = Ok (mkEdgeData (kind data) (speed_mbps data) (Some (w_div w_one s))).
Proof.
  intros Hwf Hvalid Hconv.
  destruct (add_edge_weights_loop (edges G) G Hvalid) as (G' & Hfor & Hn & Ha & Hdat).
  { intros data [s Hs]%Hconv. eexists. by apply (set_weight_Ok data s). }
  exists G'. split_and!; [done..|].
  intros u v data (r & Hadj & Hdata)%edge_data_adj.
  destruct (Hconv data) as [s Hs]; [by eapply list_elem_of_lookup_2|].
  exists s. split; [done|].
  destruct (Hdat _ _ Hdata) as (data' & Hset & Hlook).
  rewrite bool_decide_eq_true_2 in Hlook by by eapply edges_cover.
  rewrite (set_weight_Ok data s Hs) in Hset. injection Hset as <-.
  apply edge_data_adj. exists r. split; [|done].
  unfold adj in *. by rewrite Ha.
Qed.

Lemma add_edge_weights_all_edges_witness :
  ∃ G',
    add_edge_weights bad_links = Ok G' ∧
    g_node G' = g_node bad_links ∧ g_adj G' = g_adj bad_links ∧
    ∀ u v data, edge_data bad_links u v = Ok data →
      ∃ s, w_of_int (clamped_speed data) = Some s ∧
           edge_data G' u v
           = Ok (mkEdgeData (kind data) (speed_mbps data) (Some (w_div w_one s))).
Proof.
  apply (add_edge_weights_all_edges bad_links).
  - apply wf_graphb_sound. vm_compute. reflexivity.
  - apply edges_validb_sound. vm_compute. reflexivity.
  - intros data Hd. revert data Hd. apply Forall_forall.
    repeat constructor; by eexists.
Defined.

(** X14. Running [add_edge_weights] again on its own result changes
    nothing. *)
Theorem add_edge_weights_idempotent {W} `{Arith W} (G G' : Graph W) :
  add_edge_weights G = Ok G' → add_edge_weights G' = Ok G'.
Proof.
  unfold add_edge_weights. intros (Hn & Ha & Hvis & _)%add_edge_weights_loop_inv.
  rewrite !edges_unfold, Ha, <- edges_unfold.
  by apply add_edge_weights_loop_fixed.
Qed.

Lemma add_edge_weights_idempotent_witness :
  add_edge_weights float_topology = Ok float_topology.
Proof.
  apply (add_edge_weights_idempotent (@build_network_topology float)).
  vm_compute. reflexivity.
Defined.

(** ** The remaining functions of the scripts *)

Section Columns.

Lemma padded_column (l : list string) (n : nat) :
  length l ≤ n →
  (λ i, if decide (i < length l) then default "" (l !! i) else "") <$> seq 0 n
  = l ++ replicate (n - length l) "".
Proof.
  intros Hn. apply list_eq. intros i. rewrite list_lookup_fmap.
  destruct (decide (i < n)) as [Hi|Hi].
  - rewrite lookup_seq_lt by done. simpl.
    destruct (decide (i < length l)) as [Hl|Hl].
    + rewrite lookup_app_l by done.
      destruct (lookup_lt_is_Some_2 l i Hl) as [x ->]. done.
    + rewrite lookup_app_r by lia. symmetry.
      apply lookup_replicate_2. lia.
  - rewrite lookup_seq_ge by lia. simpl. symmetry.
    apply lookup_ge_None. rewrite length_app, length_replicate. lia.
Qed.

Lemma foldl_max_le (d : nat) (ds : list nat) :
  d ≤ foldl Nat.max d ds ∧ ∀ x, x ∈ ds → x ≤ foldl Nat.max d ds.
Proof.
  revert d. induction ds as [|y ds IH]; intros d; simpl.
  - split; [done|]. by intros x ?%elem_of_nil.
  - destruct (IH (d `max` y)) as [Hd Hall]. split; [lia|].
    intros x [->|Hx]%elem_of_cons; [lia|auto].
Qed.

Lemma foldl_max_elem (d : nat) (ds : list nat) : foldl Nat.max d ds ∈ d :: ds.
Proof.
  revert d. induction ds as [|y ds IH]; intros d; simpl; [left|].
  specialize (IH (d `max` y)).
  apply elem_of_cons in IH as [->|?]; [|by do 2 right].
  destruct (Nat.max_spec d y) as [[_ ->]|[_ ->]]; [right|]; left.
Qed.
End Columns.

(** X15. [neighbors_sorted] returns the neighbours [G.neighbors] gives, each
    as often, arranged so that no name is followed by a smaller one; on a
    node that is not in the graph it raises the error of [G.neighbors]. *)
Theorem neighbors_sorted_ascending {W} (G : Graph W) (node : string) :
  (∀ nbs, neighbors G node = Ok nbs →
     ∃ l, neighbors_sorted G node = Ok l ∧ l ≡ₚ nbs ∧ Sorted str_le l) ∧
  (wf_graph G → node ∉ nodes G →
     neighbors_sorted G node = Raise (NetworkXError node)).
Proof.
  split.
  - intros nbs Hn. unfold neighbors_sorted. rewrite Hn. simpl.
    eexists. split_and!; [done|apply merge_sort_Permutation|].
    apply Sorted_merge_sort. intros a b. apply String.leb_total.
  - intros Hwf Hnode. unfold neighbors_sorted.
    by rewrite (neighbors_absent G node Hwf Hnode).
Qed.

Lemma neighbors_sorted_ascending_witness :
  (∃ l, neighbors_sorted (@build_network_topology unit) "Switch" = Ok l ∧
        l ≡ₚ ["Router"; "AP_1"; "AP_2"; "NAS"; "HomeServer"; "PC"; "Printer"] ∧
        Sorted str_le l) ∧
  neighbors_sorted (@build_network_topology unit) "Modem"
  = Raise (NetworkXError "Modem").
Proof.
  destruct (neighbors_sorted_ascending (@build_network_topology unit) "Switch")
    as [Hsorted _].
  destruct (neighbors_sorted_ascending (@build_network_topology unit) "Modem")
    as [_ Habsent].
  split.
  - apply Hsorted. vm_compute. reflexivity.
  - apply Habsent.
    + apply wf_graphb_sound. vm_compute. reflexivity.
    + by_compute.
Defined.

(** X16. [print_visit_order_table] adds as many rows as the longer visit
    order has nodes, numbered from 1; its second and third columns are the
    two visit orders, the shorter one followed by empty strings. *)
Theorem print_visit_order_table_columns (bfs_order dfs_order : list string) :
  let rows := print_visit_order_table bfs_order dfs_order in
  let n := length bfs_order `max` length dfs_order in
  length rows = n ∧
  rows.*1.*1 = (λ i, pretty (i + 1)) <$> seq 0 n ∧
  rows.*1.*2 = bfs_order ++ replicate (n - length bfs_order) "" ∧
  rows.*2 = dfs_order ++ replicate (n - length dfs_order) "".
Proof.
  unfold print_visit_order_table. cbv zeta. split_and!.
  - by rewrite length_fmap, length_seq.
  - rewrite <- !list_fmap_compose. done.
  - rewrite <- !list_fmap_compose. apply padded_column. lia.
  - rewrite <- !list_fmap_compose. apply padded_column. lia.
Qed.

(** X17. When [analyze_graph] succeeds, the largest degree it reports is
    the degree of some node and no node has a larger one, and the hubs it
    lists are exactly the nodes of that degree; there is at least one. *)
Theorem analyze_graph_hubs {W} `{Arith W} (G : Graph W) (s : summary) :
  analyze_graph G = Ok s →
  (∀ n d, (n, d) ∈ degree G → d ≤ s_max_deg s) ∧
  (∀ n, n ∈ s_hubs s ↔ (n, s_max_deg s) ∈ degree G) ∧
  s_hubs s ≠ [].
Proof.
  unfold analyze_graph.
  destruct (true_div _ _) as [avg| |]; [|done..]. cbn [rbind].
  destruct ((degree G).*2) as [|d ds] eqn:Hdeg; [done|]. cbn [rbind].
  intros [= <-]. simpl.
  pose proof (foldl_max_le d ds) as [Hd Hds].
  pose proof (foldl_max_elem d ds) as Hmax. rewrite <- Hdeg in Hmax.
  assert (∀ n, n ∈ (filter (λ nd, nd.2 = foldl Nat.max d ds) (degree G)).*1 ↔
               (n, foldl Nat.max d ds) ∈ degree G) as Hhubs.
  { intros n. rewrite list_elem_of_fmap. split.
    - intros ([n' d'] & -> & [Heq Hin]%list_elem_of_filter). simpl in *. by subst.
    - intros Hin. exists (n, foldl Nat.max d ds). split; [done|].
      by apply list_elem_of_filter. }
  split_and!.
  - intros n d' Hin.
    assert (d' ∈ (degree G).*2) as Hd'.
    { apply list_elem_of_fmap. by exists (n, d'). }
    rewrite Hdeg in Hd'. apply elem_of_cons in Hd' as [->|?]; auto.
  - done.
  - apply list_elem_of_fmap in Hmax as ([n d'] & Heq & Hin). simpl in Heq. subst d'.
    intros Hnil. apply Hhubs in Hin. rewrite Hnil in Hin. by apply elem_of_nil in Hin.
Qed.

Lemma analyze_graph_hubs_witness :
  let s := mkSummary 17 16 (w_div 32%float 17%float) 7 ["Switch"] in
  (∀ n d, (n, d) ∈ degree float_topology → d ≤ s_max_deg s) ∧
  (∀ n, n ∈ s_hubs s ↔ (n, s_max_deg s) ∈ degree float_topology) ∧
  s_hubs s ≠ [].
Proof.
  apply (analyze_graph_hubs float_topology).
  vm_compute. reflexivity.
Defined.

(** X18. The path of [bfs_path] never has more edges than the path of
    [dfs_path] for the same query, so the BFS row of [print_compare] never
    shows the larger edge count. *)
Theorem bfs_no_longer_than_dfs {W} (G : Graph W) (start goal : string) (fuel : nat) :
  wf_graph G → start ∈ nodes G → length (nodes G) < fuel →
  ∃ bfs_p bfs_order dfs_p dfs_order,
    bfs_path fuel G start goal = Ok (bfs_p, bfs_order) ∧
    dfs_path fuel G start goal = Ok (dfs_p, dfs_order) ∧
    edge_count bfs_p ≤ edge_count dfs_p.
Proof.
  intros Hwf Hs Hf.
  destruct (bfs_path_outcome G start goal fuel Hwf Hs Hf)
    as (pb & ob & Hb & (_ & Hnone & _) & _ & Hmin).
  destruct (dfs_path_outcome G start goal fuel Hwf Hs Hf)
    as (pd & od & Hd & (Hr & _ & Hcase & _)).
  exists pb, ob, pd, od. split_and!; [done..|].
  destruct Hcase as [->|Hw]; [|by apply Hmin].
  destruct (Hnone) as [-> _]; [|done].
  intros [Hw _]%Hr. by apply walk_head in Hw.
Qed.

Lemma bfs_no_longer_than_dfs_witness :
  ∃ bfs_p bfs_order dfs_p dfs_order,
    bfs_path 18 (@build_network_topology unit) "Laptop_1" "Camera_2"
    = Ok (bfs_p, bfs_order) ∧
    dfs_path 18 (@build_network_topology unit) "Laptop_1" "Camera_2"
    = Ok (dfs_p, dfs_order) ∧
    edge_count bfs_p ≤ edge_count dfs_p.
Proof.
  apply (bfs_no_longer_than_dfs (@build_network_topology unit)
           "Laptop_1" "Camera_2" 18).
  - apply wf_graphb_sound. vm_compute. reflexivity.
  - by_compute.
  - vm_compute. lia.
Defined.

(** ** What [add_nodes_from] and [add_edges_from] build *)

Section ConstructionMore.
Context {W : Type}.
Implicit Types G : Graph W.

Lemma dict_keys_set_elem {V} (k x : string) (v : V) (d : list (string * V)) :
  x ∈ dict_keys (dict_set k v d) ↔ x ∈ dict_keys d ∨ x = k.
Proof.
  rewrite <- !dict_get_is_Some, dict_get_set.
  case_decide; [|naive_solver]. split; [auto|eauto].
Qed.

Lemma touch_node_nodes G n x :
  x ∈ nodes (touch_node G n) ↔ x ∈ nodes G ∨ x = n.
Proof.
  unfold touch_node, nodes.
  destruct (dict_get n (g_node G)) eqn:Hn; simpl.
  - split; [auto|]. intros [?| ->]; [done|]. apply dict_get_is_Some. eauto.
  - apply dict_keys_set_elem.
Qed.

Lemma touch_node_adj G n x y :
  wf_graph G → adj (touch_node G n) x y = adj G x y.
Proof.
  intros Hwf. unfold touch_node.
  destruct (dict_get n (g_node G)) eqn:Hn; [done|].
  unfold adj at 1. simpl. rewrite dict_get_set. case_decide; [|done].
  subst x. simpl. symmetry. apply adj_None_absent; [done|].
  by apply dict_get_None.
Qed.

Lemma add_node_nodes G n ty x :
  x ∈ nodes (add_node G n ty) ↔ x ∈ nodes G ∨ x = n.
Proof.
  unfold add_node, nodes.
  destruct (dict_get n (g_node G)); simpl; apply dict_keys_set_elem.
Qed.

Lemma add_node_adj G n ty x y :
  wf_graph G → adj (add_node G n ty) x y = adj G x y.
Proof.
  intros Hwf. unfold add_node.
  destruct (dict_get n (g_node G)) eqn:Hn; [done|].
  unfold adj at 1. simpl. rewrite dict_get_set. case_decide; [|done].
  subst x. simpl. symmetry. apply adj_None_absent; [done|].
  by apply dict_get_None.
Qed.

Lemma add_edge_nodes G u v attr x :
  x ∈ nodes (add_edge G u v attr) ↔ x ∈ nodes G ∨ x = u ∨ x = v.
Proof.
  unfold add_edge.
  destruct (dict_get v _) as [r|]; unfold nodes; simpl;
    fold (nodes (touch_node (touch_node G u) v));
    rewrite !touch_node_nodes; tauto.
Qed.

(** The adjacency after linking [u] and [v] through the address [r]. *)
Lemma link_adj (a : list (string * list (string * nat))) (u v x y : string) (r : nat) :
  let nbrs_u := default [] (dict_get u a) in
  let adj1 := dict_set u (dict_set v r nbrs_u) a in
  let nbrs_v := default [] (dict_get v adj1) in
  let adj2 := dict_set v (dict_set u r nbrs_v) adj1 in
  (dict_get x adj2 ≫= dict_get y)
  = if decide ((x = u ∧ y = v) ∨ (x = v ∧ y = u)) then Some r
    else dict_get x a ≫= dict_get y.
Proof.
  intros nbrs_u adj1 nbrs_v adj2. unfold adj2, nbrs_v, adj1, nbrs_u.
  rewrite !dict_get_set.
  destruct (decide (x = v)) as [->|Hxv]; simpl.
  - rewrite dict_get_set.
    destruct (decide (y = u)) as [->|Hyu].
    + by rewrite decide_True by auto.
    + destruct (decide (v = u)) as [->|Hvu]; simpl.
      * rewrite dict_get_set, decide_False by done.
        rewrite decide_False by naive_solver.
        by destruct (dict_get u a).
      * rewrite decide_False by naive_solver.
        by destruct (dict_get v a).
  - destruct (decide (x = u)) as [->|Hxu]; simpl.
    + rewrite dict_get_set.
      destruct (decide (y = v)) as [->|Hyv].
      * by rewrite decide_True by auto.
      * rewrite decide_False by naive_solver.
        by destruct (dict_get u a).
    + by rewrite decide_False by naive_solver.
Qed.

Lemma add_edge_edge G u v attr x y :
  wf_graph G →
  edge (add_edge G u v attr) x y ↔
  (x = u ∧ y = v) ∨ (x = v ∧ y = u) ∨ edge G x y.
Proof.
  intros Hwf. unfold edge.
  assert (∃ r, adj (add_edge G u v attr) x y
               = if decide ((x = u ∧ y = v) ∨ (x = v ∧ y = u)) then Some r
                 else adj G x y) as [r ->].
  { unfold add_edge.
    destruct (dict_get v _) as [r|]; eexists; unfold adj at 1; simpl;
      rewrite link_adj;
      (case_decide; [done|]);
      change (adj (touch_node (touch_node G u) v) x y = adj G x y);
      rewrite !touch_node_adj by (done || by apply touch_node_wf); done. }
  case_decide; [|naive_solver]. split; [tauto|eauto].
Qed.

Lemma add_nodes_from_spec G ns :
  wf_graph G →
  wf_graph (add_nodes_from G ns) ∧
  (∀ x, x ∈ nodes (add_nodes_from G ns) ↔ x ∈ nodes G ∨ x ∈ ns.*1) ∧
  (∀ x y, edge (add_nodes_from G ns) x y ↔ edge G x y).
Proof.
  unfold add_nodes_from. revert G.
  induction ns as [|[n ty] ns IH]; intros G Hwf; simpl.
  - split_and!; [done| |done]. intros x. rewrite elem_of_nil. tauto.
  - destruct (IH (add_node G n ty)) as (Hwf' & Hnodes & Hedges);
      [by apply add_node_wf|].
    split_and!; [done| |].
    + intros x. rewrite Hnodes, add_node_nodes, elem_of_cons. tauto.
    + intros x y. rewrite Hedges. unfold edge. by rewrite add_node_adj.
Qed.

Lemma add_edges_from_spec G es :
  wf_graph G →
  wf_graph (add_edges_from G es) ∧
  (∀ x, x ∈ nodes (add_edges_from G es) ↔
        x ∈ nodes G ∨ ∃ u v attr, (u, v, attr) ∈ es ∧ (x = u ∨ x = v)) ∧
  (∀ x y, edge (add_edges_from G es) x y ↔
          edge G x y ∨ ∃ attr, (x, y, attr) ∈ es ∨ (y, x, attr) ∈ es).
Proof.
  unfold add_edges_from. revert G.
  induction es as [|[[u v] attr] es IH]; intros G Hwf; simpl.
  - split_and!; [done|..].
    + intros x. split; [auto|]. intros [?|(? & ? & ? & []%elem_of_nil & _)]. done.
    + intros x y. split; [auto|]. intros [?|(? & [[]%elem_of_nil|[]%elem_of_nil])]. done.
  - destruct (IH (add_edge G u v attr)) as (Hwf' & Hnodes & Hedges);
      [by apply add_edge_wf|].
    split_and!; [done| |].
    + intros x. rewrite Hnodes, add_edge_nodes. split.
      * intros [[?|Huv]|(u' & v' & a' & Hin & Hx)].
        -- by left.
        -- right. exists u, v, attr. split; [left|tauto].
        -- right. exists u', v', a'. split; [by right|done].
      * intros [?|(u' & v' & a' & Hin & Hx)]; [tauto|].
        apply elem_of_cons in Hin as [[= -> -> ->]|Hin]; [tauto|].
        right. eauto 6.
    + intros x y. rewrite Hedges, add_edge_edge by done. split.
      * intros [[[-> ->]|[[-> ->]|?]]|(a' & Hin)].
        -- right. exists attr. left. left.
        -- right. exists attr. right. left.
        -- by left.
        -- right. exists a'. destruct Hin; [left|right]; by right.
      * intros [?|(a' & [Hin|Hin])]; [tauto|..];
          (apply elem_of_cons in Hin as [[= -> -> ->]|Hin]; [tauto|]);
          right; eauto.
Qed.
End ConstructionMore.

(** X19. The graph built from a list of nodes and a list of links, as
    [build_network_topology] does, is well formed; its nodes are the listed
    nodes and the endpoints of the links; and two nodes are adjacent exactly
    when a link names them, in either order. *)
Theorem topology_construction {W} (ns : list (string * string))
    (es : list (string * string * EdgeData W)) :
  let G := add_edges_from (add_nodes_from Nx.empty ns) es in
  wf_graph G ∧
  (∀ x, x ∈ nodes G ↔
        x ∈ ns.*1 ∨ ∃ u v attr, (u, v, attr) ∈ es ∧ (x = u ∨ x = v)) ∧
  (∀ x y, edge G x y ↔ ∃ attr, (x, y, attr) ∈ es ∨ (y, x, attr) ∈ es).
Proof.
  cbv zeta.
  destruct (add_nodes_from_spec (Nx.empty (W:=W)) ns empty_wf)
    as (Hwf0 & Hn0 & He0).
  destruct (add_edges_from_spec (add_nodes_from Nx.empty ns) es Hwf0)
    as (Hwf & Hn & He).
  split_and!; [done| |].
  - intros x. rewrite Hn, Hn0. unfold nodes at 1. simpl.
    rewrite elem_of_nil. tauto.
  - intros x y. rewrite He, He0. unfold edge at 1, adj. simpl.
    split; [intros [[? ?]|?]; done|auto].
Qed.

(** ** The all-pairs table as a metric, and the weights of the links *)

(** X20. In binary64 the all-pairs table of the reference topology does not
    obey the triangle inequality: the distance from Router to Phone_1 is
    above the distance from Router to Switch plus the distance from Switch
    to Phone_1, because the two sides add the same three weights in a
    different order. *)
Theorem all_pairs_triangle_fails_binary64 :
  ∃ dab dbc dac,
    (t ←r all_pairs_shortest_distances 40 float_topology;
     Ok (table_get t "Router" "Switch", table_get t "Switch" "Phone_1",
         table_get t "Router" "Phone_1"))
    = Ok (Some dab, Some dbc, Some dac) ∧
    (dab + dbc <? dac)%float = true.
Proof. do 3 eexists. split; vm_compute; reflexivity. Qed.

(** The weight [add_edge_weights] stores for a link whose speed converts
    to a float: [1.0 / float(max(speed, 1))], above 0 and at most 1. *)
Lemma set_weight_unit (data : EdgeData float) :
  (clamped_speed data < 2 ^ 1024 - 2 ^ 970)%Z →
  ∃ w,
    set_weight data
    = Ok (mkEdgeData (kind data) (speed_mbps data) (Some w)) ∧
    (0 <? w)%float = true ∧ (w <=? 1)%float = true ∧
    (w <? infinity)%float = true.
Proof.
  intros Hs.
  assert (1 ≤ clamped_speed data)%Z as H1 by (unfold clamped_speed; lia).
  eexists. split.
  - apply set_weight_Ok. cbn [w_of_int float_arith]. unfold float_of_Z.
    rewrite Z.abs_eq by lia. by rewrite (proj2 (Z.ltb_lt _ _) Hs).
  - apply (float_inverse (clamped_speed data)). lia.
Qed.

(** X21. In binary64, [add_edge_weights] returns on every well-formed graph
    whose edges have their attribute dictionaries and whose speeds convert
    to floats; the graph stays well formed, and afterwards every weight
    [dijkstra_from_source] can read is greater than 0 and at most 1. *)
Theorem link_weights_in_unit_interval (G : Graph float) :
  wf_graph G → edges_valid G →
  (∀ data, data ∈ g_data G → (clamped_speed data < 2 ^ 1024 - 2 ^ 970)%Z) →
  ∃ G',
    add_edge_weights G = Ok G' ∧ wf_graph G' ∧
    ∀ u v w, wedge G' u v w →
      (0 <? w)%float = true ∧ (w <=? 1)%float = true.
Proof.
  intros Hwf Hvalid Hsmall.
  destruct (add_edge_weights_loop (edges G) G Hvalid)
    as (G' & Hfor & Hn & Ha & Hdat).
  { intros data Hd.
    destruct (set_weight_unit data (Hsmall data Hd)) as (w & ? & _). eauto. }
  assert (∀ u v, adj G' u v = adj G u v) as Hadj.
  { intros u v. unfold adj. by rewrite Ha. }
  assert (∀ u v r, adj G u v = Some r →
            ∃ data d', g_data G !! r = Some data ∧ set_weight data = Ok d' ∧
                       g_data G' !! r = Some d') as Hset.
  { intros u v r Hr.
    destruct (lookup_lt_is_Some_2 (g_data G) r) as [data Hdata];
      [by eapply wf_data|].
    destruct (Hdat _ _ Hdata) as (d' & Hd' & Hlook).
    rewrite bool_decide_eq_true_2 in Hlook by by eapply edges_cover.
    eauto. }
  exists G'. split_and!; [done| |].
  - split.
    + unfold nodes. rewrite Hn, Ha. apply (wf_keys G Hwf).
    + unfold nodes. rewrite Hn. apply (wf_nodup G Hwf).
    + intros u v. unfold edge, nodes. rewrite Hadj, Hn. apply (wf_closed G Hwf).
    + intros u v r. rewrite !Hadj. apply (wf_sym G Hwf).
    + intros u v r. rewrite Hadj. intros (data & d' & _ & _ & Hl)%Hset.
      by eapply lookup_lt_Some.
  - intros u v w (data' & (r & Hr & Hdata')%edge_data_adj & ->).
    rewrite Hadj in Hr. destruct (Hset u v r Hr) as (data & d' & Hdata & Hd' & Hl).
    assert (d' = data') as -> by congruence.
    destruct (set_weight_unit data) as (w & Hw & H0 & H1 & _).
    { apply Hsmall. by eapply list_elem_of_lookup_2. }
    rewrite Hw in Hd'. injection Hd' as <-. simpl. done.
Qed.

Lemma link_weights_in_unit_interval_witness :
  ∃ G',
    add_edge_weights (@build_network_topology float) = Ok G' ∧ wf_graph G' ∧
    ∀ u v w, wedge G' u v w →
      (0 <? w)%float = true ∧ (w <=? 1)%float = true.
Proof.
  apply (link_weights_in_unit_interval (@build_network_topology float)).
  - apply wf_graphb_sound. vm_compute. reflexivity.
  - apply edges_validb_sound. vm_compute. reflexivity.
  - apply Forall_forall. by_compute.
Defined.

(** ** The whole of task_03's [main], on any topology *)

(** Every attribute dictionary of the store belongs to an edge. *)
Definition no_orphans {W} (G : Graph W) : Prop :=
  ∀ r, r < length (g_data G) → r ∈ (edges G).*2.






(** ** The attribute store of the graphs the scripts build *)

Section BuiltStore.
Context {W : Type}.
Implicit Types G : Graph W.

(** Every address in the adjacency has its dictionary in the store. *)
Definition refs_valid G : Prop :=
  ∀ u nbrs v r, (u, nbrs) ∈ g_adj G → (v, r) ∈ nbrs → r < length (g_data G).

(** Every dictionary of the store is the dictionary of some edge. *)
Definition covered G : Prop :=
  ∀ r, r < length (g_data G) → ∃ u v, adj G u v = Some r.

Lemma dict_set_elem {V} (k : string) (v : V) (d : list (string * V)) x :
  x ∈ dict_set k v d → x = (k, v) ∨ x ∈ d.
Proof.
  induction d as [|[k' v'] d IH]; simpl.
  - intros ->%list_elem_of_singleton. by left.
  - case_decide.
    + intros [->|?]%elem_of_cons; [by left|]. right. by right.
    + intros [->|[->|?]%IH]%elem_of_cons; [right; left|by left|right; by right].
Qed.

Lemma touch_node_data G n : g_data (touch_node G n) = g_data G.
Proof. unfold touch_node. by destruct (dict_get n (g_node G)). Qed.

Lemma touch_node_refs G n : refs_valid G → refs_valid (touch_node G n).
Proof.
  intros Hr u nbrs v r. rewrite touch_node_data. unfold touch_node.
  destruct (dict_get n (g_node G)); simpl; [apply Hr|].
  intros [[= -> ->]|Hin]%dict_set_elem Hvr; [by apply elem_of_nil in Hvr|by eapply Hr].
Qed.

Lemma add_node_refs G n ty : refs_valid G → refs_valid (add_node G n ty).
Proof.
  intros Hr u nbrs v r. unfold add_node.
  destruct (dict_get n (g_node G)); simpl; [apply Hr|].
  intros [[= -> ->]|Hin]%dict_set_elem Hvr; [by apply elem_of_nil in Hvr|by eapply Hr].
Qed.

Lemma link_refs (a : list (string * list (string * nat))) (u v : string) (r n : nat) :
  (∀ u' nbrs v' r', (u', nbrs) ∈ a → (v', r') ∈ nbrs → r' < n) → r < n →
  let nbrs_u := default [] (dict_get u a) in
  let adj1 := dict_set u (dict_set v r nbrs_u) a in
  let nbrs_v := default [] (dict_get v adj1) in
  let adj2 := dict_set v (dict_set u r nbrs_v) adj1 in
  ∀ u' nbrs v' r', (u', nbrs) ∈ adj2 → (v', r') ∈ nbrs → r' < n.
Proof.
  intros Ha Hr nbrs_u adj1 nbrs_v adj2.
  assert (∀ (k : string) (nbrs0 : list (string * nat))
            (l : list (string * list (string * nat))),
            (∀ u' nbrs v' r', (u', nbrs) ∈ l → (v', r') ∈ nbrs → r' < n) →
            nbrs0 = default [] (dict_get k l) →
            ∀ v' r', (v', r') ∈ nbrs0 → r' < n) as Hdef.
  { intros k nbrs0 l Hl -> v' r'.
    destruct (dict_get k l) as [nbrs|] eqn:Hk; simpl; [|by intros ?%elem_of_nil].
    apply dict_get_Some_elem in Hk. by apply (Hl k). }
  assert (∀ (k k' : string) (nbrs0 : list (string * nat))
            (l : list (string * list (string * nat))),
            (∀ u' nbrs v' r', (u', nbrs) ∈ l → (v', r') ∈ nbrs → r' < n) →
            (∀ v' r', (v', r') ∈ nbrs0 → r' < n) →
            ∀ u' nbrs v' r',
              (u', nbrs) ∈ dict_set k (dict_set k' r nbrs0) l →
              (v', r') ∈ nbrs → r' < n) as Hset.
  { intros k k' nbrs0 l Hl H0 u' nbrs v' r' [[= -> ->]|Hin]%dict_set_elem.
    - intros [[= -> ->]|?]%dict_set_elem; [done|by eapply H0].
    - by apply (Hl u'). }
  assert (∀ u' nbrs v' r', (u', nbrs) ∈ adj1 → (v', r') ∈ nbrs → r' < n) as H1.
  { apply Hset; [done|]. by apply (Hdef u _ a). }
  apply Hset; [done|]. by apply (Hdef v _ adj1).
Qed.

(** The address [add_edge] links [u] and [v] through, and what it does to
    the store. *)
Lemma add_edge_store G u v attr :
  wf_graph G →
  ∃ r,
    (∀ x y, adj (add_edge G u v attr) x y
            = if decide ((x = u ∧ y = v) ∨ (x = v ∧ y = u)) then Some r
              else adj G x y) ∧
    ((adj G u v = Some r ∧
      length (g_data (add_edge G u v attr)) = length (g_data G)) ∨
     (adj G u v = None ∧ r = length (g_data G) ∧
      length (g_data (add_edge G u v attr)) = S (length (g_data G)))).
Proof.
  intros Hwf.
  assert (adj (touch_node (touch_node G u) v) u v = adj G u v) as Huv.
  { rewrite !touch_node_adj by (done || by apply touch_node_wf). done. }
  assert (adj (touch_node (touch_node G u) v) u v
          = dict_get v (default [] (dict_get u (g_adj (touch_node (touch_node G u) v)))))
    as Hget.
  { unfold adj. by destruct (dict_get u _). }
  unfold add_edge.
  destruct (dict_get v _) as [r|] eqn:Hr.
  - exists r. split.
    + intros x y. unfold adj at 1. simpl. rewrite link_adj.
      case_decide; [done|].
      change (adj (touch_node (touch_node G u) v) x y = adj G x y).
      rewrite !touch_node_adj by (done || by apply touch_node_wf). done.
    + left. simpl. rewrite length_alter, !touch_node_data.
      split; [congruence|done].
  - eexists. split.
    + intros x y. unfold adj at 1. simpl. rewrite link_adj.
      case_decide; [done|].
      change (adj (touch_node (touch_node G u) v) x y = adj G x y).
      rewrite !touch_node_adj by (done || by apply touch_node_wf). done.
    + right. simpl. rewrite length_app, !touch_node_data. simpl.
      split_and!; [congruence|done|lia].
Qed.

Lemma add_edge_refs G u v attr : refs_valid G → refs_valid (add_edge G u v attr).
Proof.
  intros Hr.
  assert (refs_valid (touch_node (touch_node G u) v)) as Hr2
    by (by apply touch_node_refs, touch_node_refs).
  unfold add_edge.
  destruct (dict_get v _) as [r|] eqn:Hv; unfold refs_valid; simpl.
  - rewrite length_alter. apply link_refs; [apply Hr2|].
    destruct (dict_get u (g_adj (touch_node (touch_node G u) v))) as [nbrs|] eqn:Hu;
      simpl in Hv; [|done].
    apply dict_get_Some_elem in Hu, Hv. by apply (Hr2 u nbrs v).
  - rewrite length_app. simpl. apply link_refs; [|lia].
    intros u' nbrs v' r' Hin Hin'. specialize (Hr2 u' nbrs v' r' Hin Hin'). lia.
Qed.

Lemma add_node_covered G n ty : wf_graph G → covered G → covered (add_node G n ty).
Proof.
  intros Hwf Hc r Hr.
  assert (g_data (add_node G n ty) = g_data G) as Hd.
  { unfold add_node. by destruct (dict_get n (g_node G)). }
  rewrite Hd in Hr. destruct (Hc r Hr) as (u & v & Huv).
  exists u, v. by rewrite add_node_adj.
Qed.

Lemma add_edge_covered G u v attr :
  wf_graph G → covered G → covered (add_edge G u v attr).
Proof.
  intros Hwf Hc r' Hr'.
  destruct (add_edge_store G u v attr Hwf) as (r & Hadj & Hcase).
  assert (adj (add_edge G u v attr) u v = Some r) as Hnew.
  { rewrite Hadj. by rewrite decide_True by auto. }
  assert (r' < length (g_data G) → ∃ x y, adj (add_edge G u v attr) x y = Some r')
    as Hold.
  { intros Hlt. destruct (Hc r' Hlt) as (x & y & Hxy).
    exists x, y. rewrite Hadj. case_decide as Hxyuv; [|done].
    destruct Hcase as [[Huv _]|[Huv _]].
    - destruct Hxyuv as [[-> ->]|[-> ->]]; [congruence|].
      apply (wf_sym G Hwf) in Hxy. congruence.
    - destruct Hxyuv as [[-> ->]|[-> ->]]; [congruence|].
      apply (wf_sym G Hwf) in Hxy. congruence. }
  destruct Hcase as [[_ Hlen]|(_ & -> & Hlen)].
  - apply Hold. lia.
  - destruct (decide (r' = length (g_data G))) as [->|Hne]; [eauto|].
    apply Hold. lia.
Qed.

Lemma built_store G : built G → refs_valid G ∧ covered G.
Proof.
  induction 1 as [|G n ty Hb [Hr Hc]|G u v attr Hb [Hr Hc]].
  - split.
    + intros u nbrs v r Hin. by apply elem_of_nil in Hin.
    + intros r Hr. simpl in Hr. lia.
  - split; [by apply add_node_refs|]. apply add_node_covered; [|done].
    by apply built_wf.
  - split; [by apply add_edge_refs|]. apply add_edge_covered; [|done].
    by apply built_wf.
Qed.

Lemma edges_from_elem seen (l : list (string * list (string * nat))) e :
  e ∈ edges_from seen l →
  ∃ nbrs, (e.1.1, nbrs) ∈ l ∧ (e.1.2, e.2) ∈ nbrs.
Proof.
  revert seen. induction l as [|[n nbrs] l IH]; intros seen; simpl.
  - by intros ?%elem_of_nil.
  - intros [Hin|Hin]%elem_of_app.
    + apply list_elem_of_omap in Hin as ([nbr r] & Hin & Hsome).
      case_bool_decide; [done|]. simplify_eq. simpl.
      exists nbrs. split; [left|done].
    + destruct (IH _ Hin) as (nbrs' & ? & ?). exists nbrs'. split; [by right|done].
Qed.
End BuiltStore.

(** X23. Every graph built from a list of nodes and a list of links, as
    [build_network_topology] does, keeps the attribute dictionary of each
    of its edges in the store, and has no dictionary there that belongs to
    no edge. *)
Theorem built_graph_store {W} (ns : list (string * string))
    (es : list (string * string * EdgeData W)) :
  let G := add_edges_from (add_nodes_from Nx.empty ns) es in
  edges_valid G ∧ no_orphans G.
Proof.
  cbv zeta.
  assert (built (add_edges_from (add_nodes_from (Nx.empty (W:=W)) ns) es)) as Hb.
  { apply add_edges_from_built, add_nodes_from_built. constructor. }
  destruct (built_store _ Hb) as [Hr Hc]. split.
  - intros e He. rewrite edges_unfold in He.
    apply edges_from_elem in He as (nbrs & Hin & Hin'). by eapply Hr.
  - intros r Hlt. destruct (Hc r Hlt) as (u & v & Huv).
    eapply edges_cover; [|done]. by apply built_wf.
Qed.
